(** * uncertainpy: parameters and the model-run scheduler

    A shallow embedding of [src/uncertainpy/parameters.py] and
    [src/uncertainpy/runmodel.py].  Python dictionaries are [gmap]s,
    except the [OrderedDict] of [Parameters], whose order is observable
    and which is an association list.  Exceptions are values of [exn];
    code that mutates [self.data] before raising returns the store as it
    stands at the [raise]. *)

From Stdlib Require Import ZArith Ascii String List Lia Permutation DecimalString.
From stdpp Require Import gmap strings list.

Local Open Scope string_scope.
Local Open Scope list_scope.

(** ** Python exceptions and fallible results *)

Inductive exn : Type :=
| KeyError
| IndexError
| TypeError
| ValueError
| AttributeError
| NotImplementedError
| UnboundLocalError.

Inductive result (A : Type) : Type :=
| Ok (a : A)
| Raise (e : exn).
Arguments Ok {A} a.
Arguments Raise {A} e.

Definition rbind {A B} (r : result A) (k : A -> result B) : result B :=
  match r with
  | Ok a => k a
  | Raise e => Raise e
  end.

Fixpoint rmapM {A B} (f : A -> result B) (l : list A) : result (list B) :=
  match l with
  | [] => Ok []
  | x :: l' =>
      rbind (f x) (fun y => rbind (rmapM f l') (fun ys => Ok (y :: ys)))
  end.

(** Lists written as right-nested appends. *)
Ltac norm_app :=
  repeat (rewrite <- app_assoc || rewrite <- app_comm_cons).
Ltac norm_app_in H :=
  repeat (rewrite <- app_assoc in H || rewrite <- app_comm_cons in H).

(** ** parameters.py *)

Module Parameters.

(** The fixed value of a parameter: [float, int, None].  The code never
    computes with a float; it only prints it, so a float is given by the
    text [str] prints for it. *)
Inductive value : Type :=
| VNone
| VInt (z : Z)
| VFloat (text : string).

Section WithDist.

(** [cp.Dist]: the distributions of chaospy, an external library. *)
Context {dist : Type}.

(** What a caller may pass as [distribution]: [None], a [cp.Dist], a
    callable (which returns a [cp.Dist], or, as [None] here, anything
    else), or some other object. *)
Inductive dist_arg : Type :=
| DistNone
| DistObj (d : dist)
| DistFun (f : value -> option dist)
| DistOther.

(** class Parameter; the record is called [ParameterObj] because
    [Parameter] is a reserved word of the vernacular. *)
Record ParameterObj : Type := mkParameter {
  name : string;
  pvalue : value;
  _distribution : option dist
}.

(** The [distribution] setter (lines 84-95). *)
Definition set_distribution_attr (self : ParameterObj) (new_distribution : dist_arg)
  : result ParameterObj :=
  match new_distribution with
  | DistNone => Ok (mkParameter (name self) (pvalue self) None)
  | DistObj d => Ok (mkParameter (name self) (pvalue self) (Some d))
  | DistFun f =>
      match f (pvalue self) with
      | Some d => Ok (mkParameter (name self) (pvalue self) (Some d))
      | None => Raise TypeError
      end
  | DistOther => Raise TypeError
  end.

(** [Parameter.__init__] (lines 39-61). *)
Definition Parameter_init (nm : string) (v : value) (distribution : dist_arg)
  : result ParameterObj :=
  set_distribution_attr (mkParameter nm v None) distribution.

(** The [distribution] property (line 82). *)
Definition distribution (self : ParameterObj) : option dist := _distribution self.

(** *** [collections.OrderedDict] keyed by name *)

Definition odict : Type := list (string * ParameterObj).

Fixpoint od_get (k : string) (d : odict) : option ParameterObj :=
  match d with
  | [] => None
  | (k', v) :: d' => if String.eqb k k' then Some v else od_get k d'
  end.

(** [d[k] = v]: an existing key keeps its position, a new key goes last. *)
Fixpoint od_set (k : string) (v : ParameterObj) (d : odict) : odict :=
  match d with
  | [] => [(k, v)]
  | (k', v') :: d' =>
      if String.eqb k k' then (k', v) :: d' else (k', v') :: od_set k v d'
  end.

Definition od_keys (d : odict) : list string := map fst d.
Definition od_values (d : odict) : list ParameterObj := map snd d.

(** class Parameters; [mdistribution] is the optional multivariate
    distribution. *)
Record Parameters : Type := mkParameters {
  parameters : odict;
  mdistribution : option dist
}.

(** An element of [parameterlist]: a [Parameter] instance, or a list
    [[name, value, distribution]] of some length. *)
Inductive entry : Type :=
| EParam (p : ParameterObj)
| ERaw0
| ERaw1 (nm : string)
| ERaw2 (nm : string) (v : value)
| ERaw3 (nm : string) (v : value) (d : dist_arg)
| ERawMore (nm : string) (v : value) (d : dist_arg).

(** One turn of the loop of [Parameters.__init__] (lines 208-212).  The
    right-hand side of the assignment to [self.parameters[i[0]]], the
    call of [Parameter] with the elements of [i] as arguments, is
    evaluated first: with no element, with one, or with more than three
    it is a [TypeError], and [i[0]] is not reached. *)
Definition init_step (ps : odict) (i : entry) : result odict :=
  match i with
  | EParam p => Ok (od_set (name p) p ps)
  | ERaw0 => Raise TypeError
  | ERaw1 _ => Raise TypeError
  | ERaw2 nm v =>
      rbind (Parameter_init nm v DistNone) (fun p => Ok (od_set nm p ps))
  | ERaw3 nm v d =>
      rbind (Parameter_init nm v d) (fun p => Ok (od_set nm p ps))
  | ERawMore _ _ _ => Raise TypeError
  end.

Fixpoint init_loop (ps : odict) (parameterlist : list entry) : result odict :=
  match parameterlist with
  | [] => Ok ps
  | i :: rest => rbind (init_step ps i) (fun ps' => init_loop ps' rest)
  end.

(** [Parameters.__init__] (lines 185-218); the [except TypeError] clause
    extends the message and re-raises the same exception. *)
Definition Parameters_init (parameterlist : list entry) (d : option dist)
  : result Parameters :=
  rbind (init_loop [] parameterlist) (fun ps => Ok (mkParameters ps d)).

(** The operand of a subscript or of [in]: a name, or some other
    hashable object; here a [Parameter] instance, which hashes by
    identity and equals no string. *)
Inductive operand : Type :=
| OpStr (s : string)
| OpParam (p : ParameterObj).

(** [Parameters.__getitem__] (line 235): [self.parameters[name]]. *)
Definition getitem (self : Parameters) (key : operand) : result ParameterObj :=
  match key with
  | OpStr s =>
      match od_get s (parameters self) with
      | Some p => Ok p
      | None => Raise KeyError
      end
  | OpParam _ => Raise KeyError
  end.

(** [Parameters.__iter__] (line 248): [iter(self.parameters.values())]. *)
Definition iter (self : Parameters) : list ParameterObj :=
  od_values (parameters self).

(** [Parameters.__len__] (line 275). *)
Definition len (self : Parameters) : nat := length (parameters self).

(** [key in parameters].  [Parameters] defines no [__contains__]; it
    inherits the one of [collections.Mapping], which the standard library
    writes as [try: self[key] / except KeyError: return False / else:
    return True]. *)
Definition contains (self : Parameters) (key : operand) : result bool :=
  match getitem self key with
  | Ok _ => Ok true
  | Raise KeyError => Ok false
  | Raise e => Raise e
  end.

(** [attribute: {"name", "value", "distribution"}] and what [getattr]
    returns for each. *)
Inductive attribute : Type := AttrName | AttrValue | AttrDistribution.

Inductive attr_value : Type :=
| GotName (s : string)
| GotValue (v : value)
| GotDistribution (d : option dist).

Definition getattr (p : ParameterObj) (a : attribute) : attr_value :=
  match a with
  | AttrName => GotName (name p)
  | AttrValue => GotValue (pvalue p)
  | AttrDistribution => GotDistribution (distribution p)
  end.

(** [Parameters.get_from_uncertain] (lines 354-358): the loop appends to
    [items]. *)
Definition get_from_uncertain_step (a : attribute)
    (items : list attr_value) (parameter : ParameterObj) : list attr_value :=
  match distribution parameter with
  | Some _ => items ++ [getattr parameter a]
  | None => items
  end.

Definition get_from_uncertain (self : Parameters) (a : attribute)
  : list attr_value :=
  fold_left (get_from_uncertain_step a) (od_values (parameters self)) [].

(** The same list, said as the specification says it: the names of the
    parameters that have a distribution, in storage order. *)
Definition is_uncertain (p : ParameterObj) : bool :=
  match distribution p with
  | Some _ => true
  | None => false
  end.

Definition uncertain_names_spec (self : Parameters) : list attr_value :=
  map (fun p => GotName (name p))
      (List.filter is_uncertain (od_values (parameters self))).

End WithDist.

Arguments ParameterObj : clear implicits.
Arguments Parameters : clear implicits.
Arguments dist_arg : clear implicits.
Arguments entry : clear implicits.
Arguments odict : clear implicits.
Arguments operand : clear implicits.
Arguments attr_value : clear implicits.

(** The distributions used in the examples. *)
Inductive cp_dist : Type :=
| Uniform (lo hi : Z)
| Normal (mu sigma : Z).

End Parameters.

(** ** The regular expression of [Parameter.set_parameter_file] *)

Module Re.

Definition code (c : ascii) : nat := nat_of_ascii c.

(** [\d], [\w] and [\s] on bytes: the parameter file is read as a [str]
    of Python 2, one character a byte, and the pattern is compiled with
    no flag, so the classes are the ASCII ones: digits; letters, digits
    and the underscore; the space and the bytes 9 to 13. *)
Definition is_digit (c : ascii) : bool :=
  (48 <=? code c)%nat && (code c <=? 57)%nat.

Definition is_word (c : ascii) : bool :=
  is_digit c
  || ((97 <=? code c)%nat && (code c <=? 122)%nat)
  || ((65 <=? code c)%nat && (code c <=? 90)%nat)
  || (code c =? 95)%nat.

Definition is_space (c : ascii) : bool :=
  (code c =? 32)%nat || ((9 <=? code c)%nat && (code c <=? 13)%nat).

Definition is_sign (c : ascii) : bool :=
  (code c =? 43)%nat || (code c =? 45)%nat.

Definition is_dot (c : ascii) : bool := (code c =? 46)%nat.

Definition is_e (c : ascii) : bool :=
  (code c =? 101)%nat || (code c =? 69)%nat.

Definition newline : ascii := ascii_of_nat 10.

(** The constructs the pattern uses. *)
Inductive regex : Type :=
| Empty
| Lit (c : ascii)
| Class (p : ascii -> bool)
| Cat (r1 r2 : regex)
| Alt (r1 r2 : regex)
| Opt (r : regex)
| Star (r : regex)
| Plus (r : regex)
| BeginText
| EndLine
| WordBoundary.

Definition word_opt (c : option ascii) : bool :=
  match c with
  | Some x => is_word x
  | None => false
  end.

(** [\b]: exactly one of the two neighbours is a word character. *)
Definition at_boundary (prev : option ascii) (s : list ascii) : bool :=
  xorb (word_opt prev) (word_opt (head s)).

(** [$] without MULTILINE: the end, or just before a final newline. *)
Definition at_end (s : list ascii) : bool :=
  match s with
  | [] => true
  | [c] => Ascii.eqb c newline
  | _ => false
  end.

Section Backtrack.

Context {A : Type}.

(** What follows a sub-pattern: given the last character read and the
    rest of the line, the result of the rest of the match. *)
Definition cont : Type := option ascii -> list ascii -> option A.

(** Greedy repetition: one more turn of the body if it reads something,
    and what follows otherwise. *)
Fixpoint star_loop (body : option ascii -> list ascii -> cont -> option A)
    (fuel : nat) (prev : option ascii) (s : list ascii) (k : cont) : option A :=
  match fuel with
  | O => k prev s
  | S fuel' =>
      match body prev s
              (fun prev' s' =>
                 if (length s' <? length s)%nat
                 then star_loop body fuel' prev' s' k
                 else None) with
      | Some x => Some x
      | None => k prev s
      end
  end.

(** The backtracking matcher of [re]: alternatives in order, quantifiers
    greedy, the first success wins. *)
Fixpoint bt (r : regex) (prev : option ascii) (s : list ascii) (k : cont)
  : option A :=
  match r with
  | Empty => k prev s
  | Lit c =>
      match s with
      | c' :: s' => if Ascii.eqb c c' then k (Some c') s' else None
      | [] => None
      end
  | Class p =>
      match s with
      | c' :: s' => if p c' then k (Some c') s' else None
      | [] => None
      end
  | Cat r1 r2 => bt r1 prev s (fun prev' s' => bt r2 prev' s' k)
  | Alt r1 r2 =>
      match bt r1 prev s k with
      | Some x => Some x
      | None => bt r2 prev s k
      end
  | Opt r1 =>
      match bt r1 prev s k with
      | Some x => Some x
      | None => k prev s
      end
  | Star r1 => star_loop (bt r1) (length s) prev s k
  | Plus r1 =>
      bt r1 prev s (fun prev' s' => star_loop (bt r1) (length s') prev' s' k)
  | BeginText =>
      match prev with
      | None => k prev s
      | Some _ => None
      end
  | EndLine => if at_end s then k prev s else None
  | WordBoundary => if at_boundary prev s then k prev s else None
  end.

End Backtrack.

Fixpoint lits (name : list ascii) : regex :=
  match name with
  | [] => Empty
  | c :: name' => Cat (Lit c) (lits name')
  end.

(** [search_string] (line 113), in three pieces: groups 1 to 3, group 4
    and group 9.  Line 113 splices [self.name] into the pattern without
    escaping it, so [re] reads a name with metacharacters as a pattern
    of its own ([a.b] matches [axb]), or refuses it ([g(]).  [lits]
    reads the name as literal text: the embedding is the pattern of
    line 113 for a name of word characters (letters, digits and the
    underscore), and only for such a name; the theorems about the
    parameter file are stated for such names. *)
Definition re_head (name : list ascii) : regex :=
  Cat (Alt BeginText WordBoundary)
      (Cat (lits name)
           (Cat (Star (Class is_space))
                (Cat (Lit "=") (Star (Class is_space))))).

Definition re_mantissa : regex :=
  Alt (Cat (Opt (Class is_sign))
           (Cat (Plus (Class is_digit))
                (Cat (Opt (Class is_dot)) (Star (Class is_digit)))))
      (Cat (Opt (Class is_sign))
           (Cat (Star (Class is_digit))
                (Cat (Opt (Class is_dot)) (Plus (Class is_digit))))).

Definition re_exponent : regex :=
  Cat (Class is_e) (Cat (Opt (Class is_sign)) (Plus (Class is_digit))).

Definition re_number : regex := Cat re_mantissa (Star re_exponent).

Definition re_tail : regex := Alt EndLine WordBoundary.

(** A match of the whole pattern starting here: the rest of the line
    where group 4 starts, the last character matched and the rest of the
    line after the match. *)
Definition match_here (name : list ascii) (prev : option ascii) (s : list ascii)
  : option (list ascii * option ascii * list ascii) :=
  bt (re_head name) prev s
     (fun p1 s1 =>
        bt (Cat re_number re_tail) p1 s1 (fun p2 s2 => Some (s1, p2, s2))).

(** [pattern.sub(r"\g<1>\g<2>\g<3>" + str(value), line)]: scan from the
    left; a match is replaced by its groups 1 to 3 followed by the text
    of the value, and the scan goes on after the match; elsewhere a
    character is copied. *)
Fixpoint sub_from (fuel : nat) (name repl : list ascii)
    (prev : option ascii) (s : list ascii) : list ascii :=
  match fuel with
  | O => s
  | S fuel' =>
      match match_here name prev s with
      | Some (s1, p2, s2) =>
          take (length s - length s1) s ++ repl ++
          (if (length s2 <? length s)%nat
           then sub_from fuel' name repl p2 s2
           else match s with
                | [] => []
                | c :: s' => c :: sub_from fuel' name repl (Some c) s'
                end)
      | None =>
          match s with
          | [] => []
          | c :: s' => c :: sub_from fuel' name repl (Some c) s'
          end
      end
  end.

Definition sub (name repl line : list ascii) : list ascii :=
  sub_from (S (length line)) name repl None line.

(** The scan from the middle of a line, with fuel to spare. *)
Definition sub_at (name repl : list ascii) (prev : option ascii)
    (s : list ascii) : list ascii :=
  sub_from (S (length s)) name repl prev s.

(** The lines of a file as [fileinput] yields them, each with its
    newline. *)
Fixpoint lines (s : list ascii) : list (list ascii) :=
  match s with
  | [] => []
  | c :: s' =>
      if Ascii.eqb c newline then [c] :: lines s'
      else match lines s' with
           | [] => [[c]]
           | l :: ls => (c :: l) :: ls
           end
  end.

(** *** What the pattern matches, said without the matcher *)

(** The last character read after [w], when [prev] came before. *)
Definition last_char (prev : option ascii) (w : list ascii) : option ascii :=
  match last w with
  | Some c => Some c
  | None => prev
  end.

(** [matches r prev w rest]: the text [w], preceded by [prev] and
    followed by [rest], is matched by [r]. *)
Inductive matches : regex -> option ascii -> list ascii -> list ascii -> Prop :=
| m_empty prev rest : matches Empty prev [] rest
| m_lit c prev rest : matches (Lit c) prev [c] rest
| m_class (p : ascii -> bool) c prev rest :
    p c = true -> matches (Class p) prev [c] rest
| m_cat r1 r2 prev w1 w2 rest :
    matches r1 prev w1 (w2 ++ rest) ->
    matches r2 (last_char prev w1) w2 rest ->
    matches (Cat r1 r2) prev (w1 ++ w2) rest
| m_alt_l r1 r2 prev w rest :
    matches r1 prev w rest -> matches (Alt r1 r2) prev w rest
| m_alt_r r1 r2 prev w rest :
    matches r2 prev w rest -> matches (Alt r1 r2) prev w rest
| m_opt_some r prev w rest :
    matches r prev w rest -> matches (Opt r) prev w rest
| m_opt_none r prev rest : matches (Opt r) prev [] rest
| m_star_nil r prev rest : matches (Star r) prev [] rest
| m_star_cons r prev w1 w2 rest :
    w1 <> [] ->
    matches r prev w1 (w2 ++ rest) ->
    matches (Star r) (last_char prev w1) w2 rest ->
    matches (Star r) prev (w1 ++ w2) rest
| m_plus r prev w1 w2 rest :
    matches r prev w1 (w2 ++ rest) ->
    matches (Star r) (last_char prev w1) w2 rest ->
    matches (Plus r) prev (w1 ++ w2) rest
| m_begin rest : matches BeginText None [] rest
| m_end prev rest : at_end rest = true -> matches EndLine prev [] rest
| m_boundary prev rest :
    at_boundary prev rest = true -> matches WordBoundary prev [] rest.

(** The matcher finds only what the pattern matches, and finds a match
    whenever there is one. *)
Definition sound_at {A} (r : regex) : Prop :=
  forall prev s (k : cont (A:=A)) x,
    bt r prev s k = Some x ->
    exists w rest,
      s = w ++ rest /\ matches r prev w rest /\ k (last_char prev w) rest = Some x.

Definition complete_at {A} (r : regex) : Prop :=
  forall prev w rest (k : cont (A:=A)),
    matches r prev w rest ->
    k (last_char prev w) rest <> None ->
    bt r prev (w ++ rest) k <> None.

(** A pattern without [\A], [$] and [\b]. *)
Fixpoint context_free (r : regex) : bool :=
  match r with
  | Empty | Lit _ | Class _ => true
  | Cat r1 r2 | Alt r1 r2 => context_free r1 && context_free r2
  | Opt r1 | Star r1 | Plus r1 => context_free r1
  | BeginText | EndLine | WordBoundary => false
  end.

Definition all_of (p : ascii -> bool) (w : list ascii) : Prop :=
  Forall (fun c => p c = true) w.

(** The characters a number is written with. *)
Definition is_numchar (c : ascii) : bool :=
  is_digit c || is_sign c || is_dot c || is_e c.

(** Groups 1 to 3: the name, blanks, [=], blanks, at the start of the
    line or at a word boundary. *)
Definition head_text (name : list ascii) (prev : option ascii)
    (pre : list ascii) : Prop :=
  exists ws1 ws2,
    pre = name ++ ws1 ++ "="%char :: ws2
    /\ all_of is_space ws1 /\ all_of is_space ws2
    /\ (prev = None \/ at_boundary prev pre = true).

(** Group 4: an integer or a float, with optional sign and exponents. *)
Definition sign_text (sg : list ascii) : Prop :=
  sg = [] \/ exists c, sg = [c] /\ is_sign c = true.

Definition dot_text (dt : list ascii) : Prop :=
  dt = [] \/ exists c, dt = [c] /\ is_dot c = true.

Definition mantissa_text (m : list ascii) : Prop :=
  exists sg ds1 dt ds2,
    m = sg ++ ds1 ++ dt ++ ds2
    /\ sign_text sg /\ all_of is_digit ds1 /\ dot_text dt /\ all_of is_digit ds2
    /\ (ds1 <> [] \/ ds2 <> []).

Definition exponent_text (e : list ascii) : Prop :=
  exists c sg ds,
    e = c :: sg ++ ds
    /\ is_e c = true /\ sign_text sg /\ all_of is_digit ds /\ ds <> [].

Definition number_text (num : list ascii) : Prop :=
  exists m es,
    num = m ++ concat es /\ mantissa_text m /\ Forall exponent_text es.

(** Group 9: the end of the line or a word boundary. *)
Definition tail_ok (prev : option ascii) (rest : list ascii) : Prop :=
  at_end rest = true \/ at_boundary prev rest = true.

(** [rewrites name repl prev s s']: [s'] is [s] with the number of some
    occurrences of [name = number] replaced by [repl], and every other
    character as it was. *)
Inductive rewrites (name repl : list ascii)
  : option ascii -> list ascii -> list ascii -> Prop :=
| rw_nil prev : rewrites name repl prev [] []
| rw_copy prev c s s' :
    rewrites name repl (Some c) s s' ->
    rewrites name repl prev (c :: s) (c :: s')
| rw_number prev pre num s s' :
    head_text name prev pre ->
    number_text num ->
    tail_ok (last_char (last_char prev pre) num) s ->
    rewrites name repl (last_char (last_char prev pre) num) s s' ->
    rewrites name repl prev (pre ++ num ++ s) (pre ++ repl ++ s').

(** An occurrence of [name = number] starts here: groups 1 to 3, a
    number and group 9, one after the other. *)
Definition occurrence (name : list ascii) (prev : option ascii)
    (s : list ascii) : Prop :=
  exists pre num rest,
    s = pre ++ num ++ rest
    /\ head_text name prev pre
    /\ number_text num
    /\ tail_ok (last_char (last_char prev pre) num) rest.

(** [replaces name repl prev s s']: [s'] is [s] read from the left, with
    a character copied only where no occurrence of [name = number]
    starts, and with the number of an occurrence that starts there
    replaced by [repl] everywhere else; the reading goes on after the
    replaced number. *)
Inductive replaces (name repl : list ascii)
  : option ascii -> list ascii -> list ascii -> Prop :=
| rp_nil prev : replaces name repl prev [] []
| rp_copy prev c s s' :
    ~ occurrence name prev (c :: s) ->
    replaces name repl (Some c) s s' ->
    replaces name repl prev (c :: s) (c :: s')
| rp_number prev pre num s s' :
    head_text name prev pre ->
    number_text num ->
    tail_ok (last_char (last_char prev pre) num) s ->
    replaces name repl (last_char (last_char prev pre) num) s s' ->
    replaces name repl prev (pre ++ num ++ s) (pre ++ repl ++ s').

(** The text does not start with a character of the class. *)
Definition nohead (p : ascii -> bool) (s : list ascii) : Prop :=
  match s with
  | [] => True
  | c :: _ => p c = false
  end.

(** The text [str] prints for an integer or a finite float: digits, with
    an optional sign, an optional fraction and an optional exponent. *)
Definition plain_number (v : list ascii) : Prop :=
  exists sg ds1 frac ex,
    v = sg ++ ds1 ++ frac ++ ex
    /\ sign_text sg
    /\ all_of is_digit ds1 /\ ds1 <> []
    /\ (frac = []
        \/ exists c ds2, frac = c :: ds2 /\ is_dot c = true
                         /\ all_of is_digit ds2 /\ ds2 <> [])
    /\ (ex = [] \/ exponent_text ex).

(** What may follow a replaced number for the replacement to be matched
    again as it is: the end of the line, or a character that is neither a
    word character nor a dot. *)
Definition delimiter (rest : list ascii) : bool :=
  match rest with
  | [] => true
  | c :: _ => negb (is_word c) && negb (is_dot c)
  end.

(** Every number the scan replaces is followed by a delimiter. *)
Fixpoint delimited_from (fuel : nat) (name : list ascii)
    (prev : option ascii) (s : list ascii) : bool :=
  match fuel with
  | O => true
  | S fuel' =>
      match match_here name prev s with
      | Some (s1, p2, s2) =>
          delimiter s2
          && (if (length s2 <? length s)%nat
              then delimited_from fuel' name p2 s2
              else match s with
                   | [] => true
                   | c :: s' => delimited_from fuel' name (Some c) s'
                   end)
      | None =>
          match s with
          | [] => true
          | c :: s' => delimited_from fuel' name (Some c) s'
          end
      end
  end.

Definition delimited_at (name : list ascii) (prev : option ascii)
    (s : list ascii) : bool :=
  delimited_from (S (length s)) name prev s.

Definition delimited (name line : list ascii) : bool :=
  delimited_from (S (length line)) name None line.

(** The shape of the lines of a file: every line but the last ends with
    its only newline, and the last one, when it has no newline, is not
    empty. *)
Definition no_newline (l : list ascii) : Prop :=
  Forall (fun c => c <> newline) l.

Definition full_line (l : list ascii) : Prop :=
  exists body, l = body ++ [newline] /\ no_newline body.

Definition part_line (l : list ascii) : Prop := l <> [] /\ no_newline l.

Inductive split_lines : list (list ascii) -> Prop :=
| sl_nil : split_lines []
| sl_last l : part_line l -> split_lines [l]
| sl_cons l ls : full_line l -> split_lines ls -> split_lines (l :: ls).

End Re.

(** ** runmodel.py *)

Module Runmodel.

Section WithNum.

(** The numbers of a grid node or of a model output; the scheduler never
    computes with them. *)
Context {num : Type}.

(** A value of a result tuple: [None], or a numpy array with its shape
    (a numpy scalar has the empty shape). *)
Inductive pyval : Type :=
| PyNone
| PyArr (shape : list nat) (data : list num).

(** [v.shape] *)
Definition shape_of (v : pyval) : result (list nat) :=
  match v with
  | PyNone => Raise AttributeError
  | PyArr sh _ => Ok sh
  end.

(** [len(v)] *)
Definition pylen (v : pyval) : result nat :=
  match v with
  | PyNone => Raise TypeError
  | PyArr [] _ => Raise TypeError
  | PyArr (n :: _) _ => Ok n
  end.

(** The tuple a node returns for one feature: [(t, U)] or
    [(t, U, interpolation)]. *)
Record ftuple : Type := mkTuple {
  f_t : pyval;
  f_U : pyval;
  f_interpolation : option (pyval -> pyval)
}.

(** [tup[2]] *)
Definition tuple_2 (tup : ftuple) : result (pyval -> pyval) :=
  match f_interpolation tup with
  | Some inter => Ok inter
  | None => Raise IndexError
  end.

(** The dictionary a node returns: feature name to tuple. *)
Definition solved : Type := gmap string ftuple.

(** [d[feature]] *)
Definition dict_get (d : solved) (feature : string) : result ftuple :=
  match d !! feature with
  | Some v => Ok v
  | None => Raise KeyError
  end.

(** [solves[0]] *)
Definition index0 {X} (l : list X) : result X :=
  match l with
  | [] => Raise IndexError
  | x :: _ => Ok x
  end.

(** A stored response collection: the Python list built by [append], or
    the numpy array [np.array] makes of it. *)
Inductive ucoll : Type :=
| PyList (items : list pyval)
| NdArray (items : list pyval).

Definition items_of (c : ucoll) : list pyval :=
  match c with
  | PyList l => l
  | NdArray l => l
  end.

Definition np_array (c : ucoll) : ucoll := NdArray (items_of c).

Definition is_ndarray (c : ucoll) : bool :=
  match c with
  | PyList _ => false
  | NdArray _ => true
  end.

(** The result store, class [Data]. *)
Record Data : Type := mkData {
  uncertain_parameters : list string;
  features_0d : list string;
  features_1d : list string;
  features_2d : list string;
  U : gmap string ucoll;
  t : gmap string pyval
}.

(** *** Statements that read and write [self.data] and may raise *)

Definition M (A : Type) : Type := Data -> result A * Data.

Definition ret {A} (a : A) : M A := fun d => (Ok a, d).

Definition raise {A} (e : exn) : M A := fun d => (Raise e, d).

Definition bind {A B} (m : M A) (k : A -> M B) : M B :=
  fun d =>
    match m d with
    | (Ok a, d') => k a d'
    | (Raise e, d') => (Raise e, d')
    end.

Definition lift {A} (r : result A) : M A := fun d => (r, d).

Definition get_data : M Data := fun d => (Ok d, d).

Local Notation "x <- m ;; k" := (bind m (fun x => k))
  (at level 100, m at next level, right associativity).
Local Notation "m ;;; k" := (bind m (fun _ => k))
  (at level 100, right associativity).

(** [self.data.U[feature] = c] *)
Definition set_U (feature : string) (c : ucoll) : M unit :=
  fun d =>
    (Ok tt,
     mkData (uncertain_parameters d) (features_0d d) (features_1d d)
            (features_2d d) (<[feature := c]> (U d)) (t d)).

(** [self.data.t[feature] = v] *)
Definition set_t (feature : string) (v : pyval) : M unit :=
  fun d =>
    (Ok tt,
     mkData (uncertain_parameters d) (features_0d d) (features_1d d)
            (features_2d d) (U d) (<[feature := v]> (t d))).

(** [self.data.U[feature]] *)
Definition lookup_U (feature : string) : M ucoll :=
  fun d =>
    match U d !! feature with
    | Some c => (Ok c, d)
    | None => (Raise KeyError, d)
    end.

Fixpoint for_each {X} (l : list X) (body : X -> M unit) : M unit :=
  match l with
  | [] => ret tt
  | x :: l' => body x ;;; for_each l' body
  end.

(** A [for] loop whose variable is read after the loop: the result is
    the last value the variable took, [last] if the loop had no turn. *)
Fixpoint for_var {X} (l : list X) (body : X -> M unit) (last : option X)
  : M (option X) :=
  match l with
  | [] => ret last
  | x :: l' => body x ;;; for_var l' body (Some x)
  end.

(** *** [Data.setFeatures] and [Data.resetValues] *)

Definition rank_class (v : pyval) : nat :=
  match v with
  | PyNone => 0
  | PyArr sh _ => Nat.min 2 (length sh)
  end.

Definition features_of_class (n : nat) (results : solved) : list string :=
  map fst (List.filter (fun kv => Nat.eqb (rank_class (f_U (snd kv))) n)
                       (map_to_list results)).

(** Modelled from the spec: [Data.setFeatures], of the module
    [uncertainty], which is not among the sources.  Every feature name
    of the first result is put into exactly one of the three classes by
    the shape of its values. *)
Definition setFeatures (results : solved) : M unit :=
  fun d =>
    (Ok tt,
     mkData (uncertain_parameters d)
            (features_of_class 0 results)
            (features_of_class 1 results)
            (features_of_class 2 results)
            (U d) (t d)).


(** *** [RunModel.performInterpolation] (lines 30-44) *)

(** [np.argmax]: the first index of the largest element. *)
Fixpoint argmax_from (best_i best i : nat) (l : list nat) : nat :=
  match l with
  | [] => best_i
  | x :: l' =>
      if (best <? x)%nat
      then argmax_from i x (S i) l'
      else argmax_from best_i best (S i) l'
  end.

Definition argmax (l : list nat) : result nat :=
  match l with
  | [] => Raise ValueError
  | x :: l' => Ok (argmax_from 0 x 1 l')
  end.

(** [ts[i]] *)
Definition index {X} (l : list X) (i : nat) : result X :=
  match l !! i with
  | Some x => Ok x
  | None => Raise IndexError
  end.

Definition performInterpolation (ts : list pyval)
    (interpolation : list (pyval -> pyval)) : result (pyval * ucoll) :=
  rbind (rmapM pylen ts) (fun lengths =>
  rbind (argmax lengths) (fun index_max_len =>
  rbind (index ts index_max_len) (fun tb =>
  let interpolated_solves := map (fun inter => inter tb) interpolation in
  Ok (tb, NdArray interpolated_solves)))).

(** *** [RunModel.isAdaptiveError] (lines 139-150) *)

Definition eqb_shape (a b : list nat) : bool := bool_decide (a = b).

Fixpoint check_shapes (u_prev : pyval) (rest : list pyval) : result unit :=
  match rest with
  | [] => Ok tt
  | u :: rest' =>
      rbind (shape_of u_prev) (fun s_prev =>
      rbind (shape_of u) (fun s =>
      if eqb_shape s_prev s then check_shapes u rest' else Raise ValueError))
  end.

Definition isAdaptiveError (adaptive_model : bool) : M unit :=
  if negb adaptive_model then
    d <- get_data ;;
    for_each (features_1d d ++ features_2d d) (fun feature =>
      c <- lookup_U feature ;;
      match items_of c with
      | [] => raise IndexError
      | u_prev :: rest => lift (check_shapes u_prev rest)
      end)
  else ret tt.

(** *** [RunModel.storeResults] (lines 48-95) *)

Definition directComparison : string := "directComparison".

(** [for solved in solves: self.data.U[feature].append(solved[feature][1])] *)
Definition collect (feature : string) (solves : list solved) : M unit :=
  for_each solves (fun solved_i =>
    c <- lookup_U feature ;;
    tup <- lift (dict_get solved_i feature) ;;
    match c with
    | PyList l => set_U feature (PyList (l ++ [f_U tup]))
    | NdArray _ => raise AttributeError
    end).

(** The [else] branches of lines 59-64 and 77-81. *)
Definition store_first_basis (feature : string) (solves : list solved) : M unit :=
  first <- lift (index0 solves) ;;
  tup <- lift (dict_get first feature) ;;
  set_t feature (f_t tup) ;;;
  set_U feature (PyList []) ;;;
  collect feature solves.

Definition body_2d (adaptive_model : bool) (solves : list solved)
    (feature : string) : M unit :=
  if adaptive_model && String.eqb feature directComparison
  then raise NotImplementedError
  else store_first_basis feature solves.

(** Lines 70-74: the native time bases and the interpolants. *)
Fixpoint gather_adaptive (feature : string) (solves : list solved)
  : result (list pyval * list (pyval -> pyval)) :=
  match solves with
  | [] => Ok ([], [])
  | solved_i :: rest =>
      rbind (dict_get solved_i feature) (fun tup =>
      rbind (tuple_2 tup) (fun inter =>
      rbind (gather_adaptive feature rest) (fun acc =>
      Ok (f_t tup :: fst acc, inter :: snd acc))))
  end.

Definition body_1d (adaptive_model : bool) (solves : list solved)
    (feature : string) : M unit :=
  if adaptive_model && String.eqb feature directComparison
  then
    acc <- lift (gather_adaptive feature solves) ;;
    tu <- lift (performInterpolation (fst acc) (snd acc)) ;;
    set_t feature (fst tu) ;;;
    set_U feature (snd tu)
  else store_first_basis feature solves.

Definition body_0d (solves : list solved) (feature : string) : M unit :=
  set_U feature (PyList []) ;;;
  set_t feature PyNone ;;;
  collect feature solves.

(** Line 95, after the loops: [feature] is whatever the last turn of the
    last loop that ran left in it. *)
Definition convert_last (feature : option string) : M unit :=
  match feature with
  | None => raise UnboundLocalError
  | Some f =>
      c <- lookup_U f ;;
      set_U f (np_array c)
  end.

Definition store_loops (adaptive_model : bool) (solves : list solved)
  : M (option string) :=
  d <- get_data ;;
  v2 <- for_var (features_2d d) (body_2d adaptive_model solves) None ;;
  v1 <- for_var (features_1d d) (body_1d adaptive_model solves) v2 ;;
  for_var (features_0d d) (body_0d solves) v1.

Definition storeResults (adaptive_model : bool) (solves : list solved)
  : M unit :=
  first <- lift (index0 solves) ;;
  setFeatures first ;;;
  isAdaptiveError adaptive_model ;;;
  feature <- store_loops adaptive_model solves ;;
  convert_last feature.

(** *** The tasks (lines 98-109) *)

(** The tuple handed to the worker for one node. *)
Record task : Type := mkTask {
  task_model_cmd : list string;
  task_supress_model_output : bool;
  task_adaptive_model : bool;
  task_node : list num;
  task_uncertain_parameters : list string;
  task_features_cmd : list string;
  task_features_kwargs : list (string * string)
}.

(** class RunModel: [self]. *)
Record RunModel : Type := mkRunModel {
  model_cmd : list string;
  adaptive_model : bool;
  features_cmd : list string;
  features_kwargs : list (string * string);
  CPUs : nat;
  supress_model_output : bool;
  supress_model_graphics : bool;
  data : Data
}.

Definition evaluateNodeFunctionList (self : RunModel) (nodes : list (list num))
  : list task :=
  map (fun node =>
         mkTask (model_cmd self) (supress_model_output self)
                (adaptive_model self) node
                (uncertain_parameters (data self))
                (features_cmd self) (features_kwargs self))
      nodes.

(** [nodes.T]: the grid has one row per uncertain parameter and one
    column per node; its transpose is the list of nodes.  (A grid without
    rows has no nodes here.) *)
Fixpoint transpose (rows : list (list num)) : list (list num) :=
  match rows with
  | [] => []
  | [r] => map (fun x => [x]) r
  | r :: rows' => zip_with cons r (transpose rows')
  end.

(** *** The worker pool and [RunModel.evaluateNodes] (lines 113-136) *)

(** The worker, [evaluateNodeFunction], of a module that is not among the
    sources: a function of the task, which returns the dictionary of the
    node or raises. *)
Context (evaluateNodeFunction : task -> result solved).

(** The results the pool holds, by task index. *)
Definition slots : Type := list (option (result solved)).

(** A worker finishes task [i]. *)
Definition complete (tasks : list task) (buf : slots) (i : nat) : slots :=
  match tasks !! i with
  | Some tk => <[i := Some (evaluateNodeFunction tk)]> buf
  | None => buf
  end.

(** The pool after the workers have finished in the order [completion]. *)
Definition pool_run (tasks : list task) (completion : list nat) : slots :=
  fold_left (complete tasks) completion (replicate (length tasks) None).

(** What the main process does, in order. *)
Inductive event : Type :=
| XvfbStart
| XvfbStop
| PoolOpen (processes : nat)
| Submit (i : nat)
| Collect (i : nat)
| PoolClose.

Global Instance event_eq_dec : EqDecision event.
Proof. solve_decision. Defined.

(** The loop over [pool.imap]: the iterator yields the result of task 0,
    then of task 1, and so on; an exception of a worker is raised where
    its result would be yielded.  [None] stands for an iterator that
    waits for a task no worker finishes. *)
Fixpoint gather (buf : slots) (i : nat) (solves : list solved)
  : list event * option (result (list solved)) :=
  match buf with
  | [] => ([], Some (Ok solves))
  | Some (Ok r) :: buf' =>
      let '(tr, res) := gather buf' (S i) (solves ++ [r]) in
      (Collect i :: tr, res)
  | Some (Raise e) :: _ => ([], Some (Raise e))
  | None :: _ => ([], None)
  end.

Definition evaluateNodes (self : RunModel) (completion : list nat)
    (nodes : list (list num)) : list event * option (result (list solved)) :=
  let vdisplay_start :=
    if supress_model_graphics self then [XvfbStart] else [] in
  let tasks := evaluateNodeFunctionList self (transpose nodes) in
  let '(collected, res) := gather (pool_run tasks completion) 0 [] in
  let tr :=
    vdisplay_start ++ [PoolOpen (CPUs self)] ++
    map Submit (seq 0 (length tasks)) ++ collected in
  match res with
  | Some (Ok solves) =>
      (tr ++ [PoolClose] ++
       (if supress_model_graphics self then [XvfbStop] else []),
       Some (Ok solves))
  | _ => (tr, res)
  end.

(** *** [RunModel.run] (lines 153-160) *)



(** *** What a statement may change in the store *)

Definition same_features (d d' : Data) : Prop :=
  uncertain_parameters d' = uncertain_parameters d
  /\ features_0d d' = features_0d d
  /\ features_1d d' = features_1d d
  /\ features_2d d' = features_2d d.

(** The entries of the features in [keep] are as they were. *)
Definition frame (keep : string -> Prop) (d d' : Data) : Prop :=
  same_features d d'
  /\ forall g, keep g -> U d' !! g = U d !! g /\ t d' !! g = t d !! g.

Definition respects {A} (keep : string -> Prop) (m : M A) : Prop :=
  forall d r d', m d = (r, d') -> frame keep d d'.

(** A statement that leaves the store as it is. *)
Definition reads_only {A} (m : M A) : Prop :=
  forall d r d', m d = (r, d') -> d' = d.


(** What the collecting loop appends: the values of the feature, node
    by node. *)
Definition values_of (f : string) (solves : list solved) (vals : list pyval)
  : Prop :=
  Forall2 (fun s v => exists tup, s !! f = Some tup /\ v = f_U tup) solves vals.

(** What the interpolating branch leaves for a feature: the basis and
    the collection [performInterpolation] makes of the native bases and
    the interpolants of the nodes. *)
Definition interpolated (solves : list solved) (d : Data) (f : string) : Prop :=
  exists ts inters tb c,
    gather_adaptive f solves = Ok (ts, inters)
    /\ performInterpolation ts inters = Ok (tb, c)
    /\ t d !! f = Some tb /\ U d !! f = Some c.

(** The same scheduler with another number of workers. *)
Definition with_CPUs (self : RunModel) (processes : nat) : RunModel :=
  mkRunModel (model_cmd self) (adaptive_model self) (features_cmd self)
             (features_kwargs self) processes (supress_model_output self)
             (supress_model_graphics self) (data self).



End WithNum.

Arguments pyval : clear implicits.
Arguments ftuple : clear implicits.
Arguments solved : clear implicits.
Arguments ucoll : clear implicits.
Arguments Data : clear implicits.
Arguments M : clear implicits.
Arguments task : clear implicits.
Arguments RunModel : clear implicits.
Arguments slots : clear implicits.

End Runmodel.

(** ** [Parameter.set_parameter_file] (lines 99-117) *)

Module ParameterFile.

Import Parameters Re.

(** [str(value)] *)
Definition str (v : value) : list ascii :=
  match v with
  | VNone => list_ascii_of_string "None"
  | VInt z => list_ascii_of_string (NilZero.string_of_int (Z.to_int z))
  | VFloat text => list_ascii_of_string text
  end.

(** The file is rewritten line by line; [content] is what it holds
    before and the result what it holds afterwards. *)
Definition set_parameter_file (name : string) (content : list ascii)
    (v : value) : list ascii :=
  concat (map (sub (list_ascii_of_string name) (str v)) (lines content)).

End ParameterFile.

(** ** Examples for the parameter collection *)

Module ParametersExamples.
Import Parameters.

(** [[["a", 1, Uniform(0, 1)], ["b", 2, None]]] *)
Definition triples_ab : list (string * value * dist_arg cp_dist) :=
  [("a", VInt 1, DistObj (Uniform 0 1)); ("b", VInt 2, DistNone)].

Definition raw_entry {dist} (tr : string * value * dist_arg dist) : entry dist :=
  ERaw3 (fst (fst tr)) (snd (fst tr)) (snd tr).

Definition make_parameter {dist} (tr : string * value * dist_arg dist)
  : result (ParameterObj dist) :=
  Parameter_init (fst (fst tr)) (snd (fst tr)) (snd tr).

Definition param_a : ParameterObj cp_dist :=
  mkParameter "a" (VInt 1) (Some (Uniform 0 1)).
Definition param_b : ParameterObj cp_dist :=
  mkParameter "b" (VInt 2) None.

Definition parameters_ab : Parameters cp_dist :=
  mkParameters [("a", param_a); ("b", param_b)] None.

End ParametersExamples.

(** ** Examples for the scheduler *)

Module RunExamples.

Import Runmodel.

Definition vec (xs : list Z) : pyval Z := PyArr [length xs] xs.
Definition scalar (x : Z) : pyval Z := PyArr [] [x].
Definition matrix (rows cols : nat) (xs : list Z) : pyval Z :=
  PyArr [rows; cols] xs.

(** An interpolant that answers [x] at every point of the basis it is
    given. *)
Definition constant_interpolant (x : Z) (tb : pyval Z) : pyval Z :=
  match tb with
  | PyNone => PyNone
  | PyArr sh data => PyArr sh (map (fun _ => x) data)
  end.

Definition empty_data : Data Z := mkData [] [] [] [] ∅ ∅.

(** Two nodes of an adaptive model: the 1-D features have two samples at
    the first node and three at the second. *)
Definition node_short : solved Z :=
  {[ "directComparison" :=
       mkTuple (vec [0; 1]) (vec [5; 6]) (Some (constant_interpolant 5));
     "spikes" :=
       mkTuple (vec [0; 1]) (vec [1; 1]) (Some (constant_interpolant 1));
     "rate" := mkTuple PyNone (scalar 7) None;
     "count" := mkTuple PyNone (scalar 2) None ]}%Z.

Definition node_long : solved Z :=
  {[ "directComparison" :=
       mkTuple (vec [0; 1; 2]) (vec [5; 6; 7]) (Some (constant_interpolant 6));
     "spikes" :=
       mkTuple (vec [0; 1; 2]) (vec [1; 1; 1]) (Some (constant_interpolant 1));
     "rate" := mkTuple PyNone (scalar 8) None;
     "count" := mkTuple PyNone (scalar 3) None ]}%Z.

Definition solves_adaptive : list (solved Z) := [node_short; node_long].

(** A node of an adaptive model with a 2-D feature called [image]. *)
Definition node_image : solved Z :=
  {[ "image" := mkTuple (vec [0; 1]) (matrix 2 2 [1; 2; 3; 4]) None;
     "rate" := mkTuple PyNone (scalar 7) None ]}%Z.

Definition solves_image : list (solved Z) := [node_image; node_image].

(** A node of an adaptive model whose [directComparison] is 2-D. *)
Definition node_dc_2d : solved Z :=
  {[ "directComparison" := mkTuple (vec [0; 1]) (matrix 2 2 [1; 2; 3; 4]) None;
     "rate" := mkTuple PyNone (scalar 7) None ]}%Z.

Definition solves_dc_2d : list (solved Z) := [node_dc_2d; node_dc_2d].

(** Two nodes of a model declared not adaptive, which returns two values
    at the first node and three at the second, and a 0-D feature. *)
Definition node_two : solved Z :=
  {[ "directComparison" := mkTuple (vec [0; 1]) (vec [5; 6]) None;
     "rate" := mkTuple PyNone (scalar 7) None ]}%Z.

Definition node_three : solved Z :=
  {[ "directComparison" := mkTuple (vec [0; 1; 2]) (vec [5; 6; 7]) None;
     "rate" := mkTuple PyNone (scalar 8) None ]}%Z.

Definition solves_ragged : list (solved Z) := [node_two; node_three].
Definition solves_uniform : list (solved Z) := [node_two; node_two].

(** A store that still holds the collection of an earlier run, two
    series of two values. *)
Definition stale_data : Data Z :=
  mkData [] [] [] []
         {[ "directComparison" := PyList [vec [1; 1]; vec [2; 2]] ]}%Z ∅.

(** A worker for a grid with one uncertain parameter: the value of the
    node is its 0-D feature [rate]; the value 13 makes the model fail. *)
Definition worker_rate (tk : task Z) : result (solved Z) :=
  match task_node tk with
  | [x] =>
      if (x =? 13)%Z then Raise ValueError
      else Ok {[ "rate" := mkTuple PyNone (scalar x) None ]}
  | _ => Raise TypeError
  end.

Definition scheduler (processes : nat) : RunModel Z :=
  mkRunModel ["model"] true ["features"] [] processes true true empty_data.

Definition grid_failing : list (list Z) := [[12; 13; 14]%Z].


End RunExamples.

From Stdlib Require OrderedTypeEx.
From stdpp Require Import sorting.

(** ** More about what [storeResults] leaves in the store *)

Module RunmodelMore.

Import Runmodel.

Section WithNum.

Context {num : Type}.

(** What the branches that do not interpolate leave for a feature: the
    values of the nodes in a Python list, and the time basis of the
    first node, or [None] for a 0-D feature. *)
Definition raw_entry_of (first : solved num) (solves : list (solved num))
    (d : Data num) (f : string) : Prop :=
  exists tup vals,
    first !! f = Some tup /\ values_of f solves vals
    /\ U d !! f = Some (PyList vals)
    /\ t d !! f
       = Some (if Nat.eqb (rank_class (f_U tup)) 0 then PyNone else f_t tup).

End WithNum.

End RunmodelMore.

(** ** The keys of a collection built from a list *)

Module ParametersMore.

(** The names of a list in the order in which they are first seen,
    without those already in [seen]: the order in which an
    [OrderedDict] that holds [seen] gets its new keys. *)
Fixpoint first_seen (seen names : list string) : list string :=
  match names with
  | [] => []
  | n :: names' =>
      if bool_decide (n ∈ seen) then first_seen seen names'
      else n :: first_seen (n :: seen) names'
  end.

End ParametersMore.

(** ** More examples for the scheduler *)

Module StoreExamples2.

Import Runmodel RunExamples.

(** A store after a run of two nodes whose 1-D feature has two values
    at the first node and three at the second. *)
Definition ragged_data : Data Z :=
  mkData [] [] ["directComparison"] []
         {[ "directComparison" := PyList [vec [5; 6]; vec [5; 6; 7]] ]}%Z ∅.


End StoreExamples2.

(** ** parameters.py: the methods that change the collection and its
       [Parameter] objects *)

Module Objects.

Import Parameters.

(** The identity of a [Parameter] object. *)
Definition loc : Type := nat.

(** [self.parameters], the [OrderedDict] of the collection: names, each
    with a reference to a [Parameter] object, in insertion order. *)
Definition refs : Type := list (string * loc).

Fixpoint ref_get (k : string) (d : refs) : option loc :=
  match d with
  | [] => None
  | (k', l) :: d' => if String.eqb k k' then Some l else ref_get k d'
  end.

(** [d[k] = l]: an existing key keeps its position, a new key goes last. *)
Fixpoint ref_set (k : string) (l : loc) (d : refs) : refs :=
  match d with
  | [] => [(k, l)]
  | (k', l') :: d' =>
      if String.eqb k k' then (k', l) :: d' else (k', l') :: ref_set k l d'
  end.

(** [del d[k]] *)
Fixpoint ref_del (k : string) (d : refs) : refs :=
  match d with
  | [] => []
  | (k', l') :: d' =>
      if String.eqb k k' then d' else (k', l') :: ref_del k d'
  end.

Definition keys (d : refs) : list string := map fst d.

(** A dictionary has every key once. *)
Definition well_formed (d : refs) : Prop := NoDup (keys d).

(** [Parameters.__getitem__] (line 235) *)
Definition getitem (self : refs) (name : string) : result loc :=
  match ref_get name self with
  | Some l => Ok l
  | None => Raise KeyError
  end.

(** [Parameters.__setitem__] (lines 290-292); [parameter] is a reference
    to a [Parameter] object, or, as [None] here, any other object. *)
Definition setitem (self : refs) (name : string) (parameter : option loc)
  : result refs :=
  match parameter with
  | None => Raise ValueError
  | Some l => Ok (ref_set name l self)
  end.

(** [Parameters.__delitem__] (line 305) *)
Definition delitem (self : refs) (name : string) : result refs :=
  match ref_get name self with
  | Some _ => Ok (ref_del name self)
  | None => Raise KeyError
  end.

(** [Parameters.__len__] (line 275) *)
Definition len (self : refs) : nat := length self.

(** [sorted] on names: [str] compares byte by byte. *)
Definition name_le (a b : string) : Prop := String.leb a b = true.

Global Instance name_le_dec (a b : string) : Decision (name_le a b).
Proof. unfold name_le. apply _. Defined.

Definition sorted (names : list string) : list string :=
  merge_sort name_le names.

(** [str.strip()]: the blanks at both ends go. *)
Fixpoint lstrip (s : list ascii) : list ascii :=
  match s with
  | [] => []
  | c :: s' => if Re.is_space c then lstrip s' else s
  end.

Definition rstrip (s : list ascii) : list ascii := rev (lstrip (rev s)).

Definition strip (s : list ascii) : list ascii := rstrip (lstrip s).

(** A line that is not empty and has no blank at either end. *)
Definition clean_line (l : list ascii) : Prop :=
  l <> [] /\ Re.nohead Re.is_space l /\ Re.nohead Re.is_space (rev l).

(** Lines joined by newlines. *)
Fixpoint join_lines (ls : list (list ascii)) : list ascii :=
  match ls with
  | [] => []
  | [l] => l
  | l :: ls' => l ++ Re.newline :: join_lines ls'
  end.

Section WithDist.

Context {dist : Type}.

(** What [_distribution] holds when it is not [None]: a [cp.Dist], or
    the object that a callable returned in its place. *)
Inductive held : Type :=
| IsDist (d : dist)
| NotDist.

(** A [Parameter] object. *)
Definition object : Type := ParameterObj held.

(** The [Parameter] objects of the program, by identity. *)
Definition heap : Type := loc -> object.

Definition update (h : heap) (l : loc) (o : object) : heap :=
  fun l' => if Nat.eqb l' l then o else h l'.

(** What a callable given as a distribution returns. *)
Inductive returned : Type :=
| RetNone
| RetDist (d : dist)
| RetOther.

(** The right-hand side of an assignment to [distribution]: [None], a
    [cp.Dist], a callable (which returns or raises), or another
    object. *)
Inductive assigned : Type :=
| AsNone
| AsDist (d : dist)
| AsCall (f : value -> result returned)
| AsOther.

Definition set_held (self : object) (x : option held) : object :=
  mkParameter (name self) (pvalue self) x.

(** The [distribution] setter (lines 84-95) on an existing object: what
    the assignment does and the object afterwards.  In the callable
    branch the attribute is assigned before it is tested. *)
Definition distribution_setter (self : object) (new_distribution : assigned)
  : result unit * object :=
  match new_distribution with
  | AsNone => (Ok tt, set_held self None)
  | AsDist d => (Ok tt, set_held self (Some (IsDist d)))
  | AsCall f =>
      match f (pvalue self) with
      | Ok (RetDist d) => (Ok tt, set_held self (Some (IsDist d)))
      | Ok RetNone => (Raise TypeError, set_held self None)
      | Ok RetOther => (Raise TypeError, set_held self (Some NotDist))
      | Raise e => (Raise e, self)
      end
  | AsOther => (Raise TypeError, self)
  end.

(** [Parameters.set_distribution] (line 319) *)
Definition set_distribution (self : refs) (h : heap) (parameter : string)
    (distribution : assigned) : result unit * heap :=
  match ref_get parameter self with
  | None => (Raise KeyError, h)
  | Some l =>
      let '(r, o) := distribution_setter (h l) distribution in
      (r, update h l o)
  end.

(** [Parameters.set_all_distributions] (lines 331-332): the loop over
    the keys. *)
Fixpoint set_all_loop (self : refs) (names : list string) (h : heap)
    (distribution : assigned) : result unit * heap :=
  match names with
  | [] => (Ok tt, h)
  | parameter :: names' =>
      match set_distribution self h parameter distribution with
      | (Ok _, h') => set_all_loop self names' h' distribution
      | (Raise e, h') => (Raise e, h')
      end
  end.

Definition set_all_distributions (self : refs) (h : heap)
    (distribution : assigned) : result unit * heap :=
  set_all_loop self (keys self) h distribution.

(** [self.parameters.values()] *)
Definition values (self : refs) (h : heap) : list object :=
  map (fun kl => h (snd kl)) self.

(** [Parameters.get_from_uncertain] (lines 354-358) *)
Definition get_from_uncertain (self : refs) (h : heap) (a : attribute)
  : list (attr_value held) :=
  fold_left (get_from_uncertain_step a) (values self h) [].

(** The argument [parameter_names] of [get]: [None], a string or a
    list. *)
Inductive names_arg : Type :=
| NamesNone
| NamesStr (s : string)
| NamesList (l : list string).

(** [Parameters.get] (lines 384-394) *)
Definition get (self : refs) (h : heap) (a : attribute)
    (parameter_names : names_arg) : result (list (attr_value held)) :=
  let names :=
    match parameter_names with
    | NamesNone => keys self
    | NamesStr s => [s]
    | NamesList l => l
    end in
  rbind (rmapM (getitem self) names) (fun return_parameters =>
  Ok (map (fun l => getattr (h l) a) return_parameters)).

(** *** [__str__] *)

(** [Parameter.__str__] (lines 141-146) *)
Definition Parameter_str (self : object) : list ascii :=
  list_ascii_of_string (name self)
  ++ list_ascii_of_string ": "
  ++ ParameterFile.str (pvalue self)
  ++ match distribution self with
     | None => []
     | Some _ => list_ascii_of_string " - Uncertain"
     end.

(** The loop of [Parameters.__str__] (lines 259-261). *)
Fixpoint str_loop (self : refs) (h : heap) (names : list string)
    (acc : list ascii) : result (list ascii) :=
  match names with
  | [] => Ok acc
  | name :: names' =>
      rbind (getitem self name) (fun l =>
      str_loop self h names' (acc ++ Parameter_str (h l) ++ [Re.newline]))
  end.

(** [Parameters.__str__] (lines 259-263) *)
Definition Parameters_str (self : refs) (h : heap) : result (list ascii) :=
  rbind (str_loop self h (sorted (keys self)) []) (fun acc => Ok (strip acc)).

(** *** The parameter file *)

(** [Parameter.reset_parameter_file] (line 129) *)
Definition Parameter_reset_parameter_file (self : object)
    (content : list ascii) : list ascii :=
  ParameterFile.set_parameter_file (name self) content (pvalue self).

(** [Parameters.reset_parameter_file] (lines 427-428): the result, and
    what the file holds afterwards. *)
Fixpoint reset_loop (self : refs) (h : heap) (names : list string)
    (content : list ascii) : result unit * list ascii :=
  match names with
  | [] => (Ok tt, content)
  | parameter :: names' =>
      match getitem self parameter with
      | Ok l =>
          reset_loop self h names'
            (ParameterFile.set_parameter_file
               (name (h l)) content (pvalue (h l)))
      | Raise e => (Raise e, content)
      end
  end.

Definition reset_parameter_file (self : refs) (h : heap)
    (content : list ascii) : result unit * list ascii :=
  reset_loop self h (keys self) content.

(** The argument [parameters] of [set_parameters_file]: a mapping from
    names to values, given by its items in the order it iterates, or, as
    the docstring has it, a list of names. *)
Inductive values_arg : Type :=
| ValuesDict (items : list (string * value))
| ValuesList (names : list string).

(** [Parameters.set_parameters_file] (lines 411-412).  The object is
    looked up before the argument [parameters[parameter]] is evaluated;
    a list indexed by a name is a [TypeError]. *)
Fixpoint set_parameters_dict (self : refs) (h : heap)
    (items : list (string * value)) (content : list ascii)
  : result unit * list ascii :=
  match items with
  | [] => (Ok tt, content)
  | (parameter, v) :: items' =>
      match getitem self parameter with
      | Ok l =>
          set_parameters_dict self h items'
            (ParameterFile.set_parameter_file (name (h l)) content v)
      | Raise e => (Raise e, content)
      end
  end.

Definition set_parameters_file (self : refs) (h : heap)
    (parameters : values_arg) (content : list ascii)
  : result unit * list ascii :=
  match parameters with
  | ValuesDict items => set_parameters_dict self h items content
  | ValuesList [] => (Ok tt, content)
  | ValuesList (parameter :: _) =>
      match getitem self parameter with
      | Ok _ => (Raise TypeError, content)
      | Raise e => (Raise e, content)
      end
  end.

(** *** What the theorems say about a collection *)

(** The objects the collection refers to. *)
Definition locs (self : refs) : list loc := map snd self.

(** Every key is the name of its object, as [__init__] leaves it. *)
Definition named_by_key (self : refs) (h : heap) : Prop :=
  Forall (fun kl => name (h (snd kl)) = fst kl) self.

(** The line [__str__] writes for a key. *)
Definition line_of (self : refs) (h : heap) (k : string) : list ascii :=
  match ref_get k self with
  | Some l => Parameter_str (h l)
  | None => []
  end.

End WithDist.

Arguments held : clear implicits.
Arguments object : clear implicits.
Arguments heap : clear implicits.
Arguments returned : clear implicits.
Arguments assigned : clear implicits.

End Objects.

(** ** Examples for the methods that change a collection *)

Module ObjectsExamples.

Import Parameters Objects.

(** Two objects: [a] with the value 2 and a distribution, and [b] with
    the value 1 and none. *)
Definition heap_ab : heap cp_dist :=
  fun l =>
    match l with
    | 0 => mkParameter "a" (VInt 2) (Some (IsDist (Uniform 0 1)))
    | _ => mkParameter "b" (VInt 1) None
    end.

(** The collection of the two, and the same two put in the other
    order. *)
Definition refs_ab : refs := [("a", 0); ("b", 1)].
Definition refs_ba : refs := [("b", 1); ("a", 0)].

(** A callable that makes a distribution around an integer above 1, and
    returns something else for any other value. *)
Definition around (v : value) : result (returned cp_dist) :=
  match v with
  | VInt z =>
      if (1 <? z)%Z then Ok (RetDist (Uniform (z - 1) (z + 1)))
      else Ok RetOther
  | _ => Ok RetOther
  end.

End ObjectsExamples.

(** * Facts about the parameter collection *)

Section ParametersFacts.
Import Parameters ParametersExamples.
Context {dist : Type}.
Implicit Types (self : Parameters dist) (p : ParameterObj dist).

Lemma get_from_uncertain_fold (a : attribute) (ps : list (ParameterObj dist))
    (items : list (attr_value dist)) :
  fold_left (get_from_uncertain_step a) ps items
  = items ++ map (fun p => getattr p a) (List.filter is_uncertain ps).
Proof.
  revert items. induction ps as [|p ps IH]; intros items; simpl.
  - by rewrite app_nil_r.
  - rewrite IH. unfold get_from_uncertain_step, is_uncertain.
    destruct (distribution p); simpl; [|done].
    by rewrite <- app_assoc.
Qed.

Lemma Parameter_init_name nm v da p :
  Parameter_init (dist:=dist) nm v da = Ok p -> name p = nm.
Proof.
  unfold Parameter_init, set_distribution_attr. simpl.
  destruct da as [|d|f|]; try destruct (f v); intros H; inversion H; done.
Qed.

Lemma init_loop_raw_objects (triples : list (string * value * dist_arg dist))
    (objs : list (ParameterObj dist)) (ps : odict dist) :
  rmapM make_parameter triples = Ok objs ->
  init_loop ps (map raw_entry triples) = init_loop ps (map EParam objs).
Proof.
  revert objs ps. induction triples as [|[[nm v] da] triples IH]; intros objs ps.
  - simpl. intros H; inversion H; done.
  - simpl. unfold make_parameter at 1. simpl.
    destruct (Parameter_init nm v da) as [p|e] eqn:Hp; simpl; [|done].
    destruct (rmapM make_parameter triples) as [objs'|e] eqn:Hr; simpl; [|done].
    intros H; inversion H; subst. simpl.
    rewrite (Parameter_init_name _ _ _ _ Hp). by apply IH.
Qed.

Lemma init_loop_objects_ok (objs : list (ParameterObj dist)) (ps : odict dist) :
  exists ps', init_loop ps (map EParam objs) = Ok ps'.
Proof.
  revert ps. induction objs as [|p objs IH]; intros ps; simpl; eauto.
Qed.

End ParametersFacts.

Section ParametersClaims.
Import Parameters ParametersExamples.

(** C5.  [get_from_uncertain("name")] is the list of the names of the
    parameters whose distribution is not [None], in storage order; built
    from [[["a", 1, Uniform(0, 1)], ["b", 2, None]]] the collection
    answers [["a"]]. *)
Theorem get_from_uncertain_names :
  (forall (dist : Type) (self : Parameters dist),
      get_from_uncertain self AttrName = uncertain_names_spec self)
  /\ (exists ps,
        Parameters_init (map raw_entry triples_ab) None = Ok ps
        /\ get_from_uncertain ps AttrName = [GotName "a"]).
Proof.
  split.
  - intros dist self. unfold get_from_uncertain, uncertain_names_spec.
    by rewrite get_from_uncertain_fold.
  - exists parameters_ab. split; reflexivity.
Qed.

(** C6.  When the triples make valid [Parameter] objects, the collection
    built from the raw triples and the one built from those objects exist
    and give the same [get_from_uncertain("name")], element by element. *)
Theorem triples_and_objects_agree (dist : Type)
    (triples : list (string * value * dist_arg dist))
    (objs : list (ParameterObj dist)) (d : option dist) :
  rmapM make_parameter triples = Ok objs ->
  exists p1 p2,
    Parameters_init (map raw_entry triples) d = Ok p1
    /\ Parameters_init (map EParam objs) d = Ok p2
    /\ get_from_uncertain p1 AttrName = get_from_uncertain p2 AttrName.
Proof.
  intros H. unfold Parameters_init.
  rewrite (init_loop_raw_objects _ _ _ H).
  destruct (init_loop_objects_ok objs []) as [ps' Hps]. rewrite Hps. simpl.
  eauto.
Qed.

Lemma triples_and_objects_agree_witness :
  rmapM make_parameter triples_ab = Ok [param_a; param_b]
  /\ exists p1 p2,
    Parameters_init (map raw_entry triples_ab) None = Ok p1
    /\ Parameters_init (map EParam [param_a; param_b]) None = Ok p2
    /\ get_from_uncertain p1 AttrName = get_from_uncertain p2 AttrName.
Proof.
  split; [reflexivity|].
  apply (triples_and_objects_agree cp_dist triples_ab [param_a; param_b] None).
  reflexivity.
Defined.

(** C9 as stated fails: the name ["a"] is stored, [parameters["a"]]
    succeeds, and yet ["a" in parameters] is not [False], and the test on
    the stored object is not [True]. *)
Lemma membership_counterexample :
  getitem parameters_ab (OpStr "a") = Ok param_a
  /\ contains parameters_ab (OpStr "a") <> Ok false
  /\ contains parameters_ab (OpParam param_a) <> Ok true.
Proof. repeat split; discriminate. Qed.

Lemma od_get_keys {dist} (nm : string) (ps : odict dist) :
  is_Some (od_get nm ps) <-> nm ∈ od_keys ps.
Proof.
  induction ps as [|[k v] ps IH]; simpl.
  - split; [intros [? ?]; done | intros H; inversion H].
  - destruct (String.eqb_spec nm k) as [->|Hne].
    + split; [intros _; left | eauto].
    + rewrite IH. split; [intros ?; by right | intros H; inversion H; subst; done].
Qed.

(** C9, amended.  Iterating yields the stored [Parameter] objects; the
    inherited membership test goes through [__getitem__], so it is
    [True] exactly for the stored names, for which [parameters[name]]
    succeeds, and [False] for a [Parameter] object. *)
Theorem membership_follows_getitem (dist : Type) (self : Parameters dist) :
  iter self = map snd (parameters self)
  /\ (forall nm, contains self (OpStr nm) = Ok true <-> nm ∈ od_keys (parameters self))
  /\ (forall nm, contains self (OpStr nm) = Ok false <-> nm ∉ od_keys (parameters self))
  /\ (forall nm, contains self (OpStr nm) = Ok true <->
                 exists p, getitem self (OpStr nm) = Ok p)
  /\ (forall p, contains self (OpParam p) = Ok false).
Proof.
  split; [reflexivity|].
  assert (Hc : forall nm,
             contains self (OpStr nm) = Ok true /\ nm ∈ od_keys (parameters self)
             \/ contains self (OpStr nm) = Ok false /\ nm ∉ od_keys (parameters self)).
  { intros nm. pose proof (od_get_keys nm (parameters self)) as Hk.
    unfold contains, getitem.
    destruct (od_get nm (parameters self)) as [p|]; simpl.
    - left. split; [done|]. apply Hk. eauto.
    - right. split; [done|]. intros Hin. apply Hk in Hin. by destruct Hin. }
  repeat split.
  - intros H. destruct (Hc nm) as [[_ ?]|[H' _]]; [done|congruence].
  - intros H. destruct (Hc nm) as [[? _]|[_ H']]; done.
  - intros H. destruct (Hc nm) as [[H' _]|[_ ?]]; [congruence|done].
  - intros H. destruct (Hc nm) as [[_ H']|[? _]]; done.
  - unfold contains, getitem.
    destruct (od_get nm (parameters self)); [eauto | discriminate].
  - intros [p Hp]. unfold contains. by rewrite Hp.
Qed.

End ParametersClaims.

(** * Facts about the result store and [storeResults] *)

Section StoreFacts.
Import Runmodel.
Context {num : Type}.
Implicit Types (d : Data num) (f g feature : string) (solves : list (solved num)).

(** ** Inversion of sequenced statements *)

Lemma bind_ok {A B} (m : M num A) (k : A -> M num B) d b d' :
  bind m k d = (Ok b, d') ->
  exists a d1, m d = (Ok a, d1) /\ k a d1 = (Ok b, d').
Proof.
  unfold bind. destruct (m d) as [[a|e] d1]; [eauto | discriminate].
Qed.

Lemma bind_raise {A B} (m : M num A) (k : A -> M num B) d e d' :
  bind m k d = (Raise e, d') ->
  m d = (Raise e, d')
  \/ exists a d1, m d = (Ok a, d1) /\ k a d1 = (Raise e, d').
Proof.
  unfold bind. destruct (m d) as [[a|e0] d1]; [eauto | left; congruence].
Qed.

Lemma bind_run {A B} (m : M num A) (k : A -> M num B) d a d1 :
  m d = (Ok a, d1) -> bind m k d = k a d1.
Proof. unfold bind. by intros ->. Qed.

Lemma bind_raise_run {A B} (m : M num A) (k : A -> M num B) d e d' :
  m d = (Raise e, d') -> bind m k d = (Raise e, d').
Proof. unfold bind. by intros ->. Qed.

(** ** What a statement may change *)

Lemma frame_refl keep d : frame keep d d.
Proof. by repeat split. Qed.

Lemma frame_trans keep d1 d2 d3 :
  frame keep d1 d2 -> frame keep d2 d3 -> frame keep d1 d3.
Proof.
  intros [(Ha1 & Ha2 & Ha3 & Ha4) Ha] [(Hb1 & Hb2 & Hb3 & Hb4) Hb].
  split.
  - repeat split; congruence.
  - intros g Hg. destruct (Ha g Hg), (Hb g Hg). split; congruence.
Qed.

Lemma frame_weaken (keep keep' : string -> Prop) d d' :
  (forall g, keep' g -> keep g) -> frame keep d d' -> frame keep' d d'.
Proof. intros Hk [Hs H]. split; [done|]. intros g Hg. apply H, Hk, Hg. Qed.

Lemma respects_ret {A} keep (a : A) : respects (num:=num) keep (ret a).
Proof. intros d r d' H. inversion H; subst. apply frame_refl. Qed.

Lemma respects_raise {A} keep e : respects (num:=num) keep (raise (A:=A) e).
Proof. intros d r d' H. inversion H; subst. apply frame_refl. Qed.

Lemma respects_lift {A} keep (x : result A) : respects (num:=num) keep (lift x).
Proof. intros d r d' H. inversion H; subst. apply frame_refl. Qed.

Lemma respects_get_data keep : respects (num:=num) keep get_data.
Proof. intros d r d' H. inversion H; subst. apply frame_refl. Qed.

Lemma respects_lookup_U keep f : respects (num:=num) keep (lookup_U f).
Proof.
  intros d r d' H. unfold lookup_U in H.
  destruct (U d !! f); inversion H; subst; apply frame_refl.
Qed.

Lemma respects_bind {A B} keep (m : M num A) (k : A -> M num B) :
  respects (num:=num) keep m -> (forall a, respects (num:=num) keep (k a)) -> respects (num:=num) keep (bind m k).
Proof.
  intros Hm Hk d r d' H. unfold bind in H.
  destruct (m d) as [[a|e] d1] eqn:E.
  - eapply frame_trans; [eapply Hm, E | eapply Hk, H].
  - inversion H; subst. eapply Hm, E.
Qed.

Lemma respects_set_U (keep : string -> Prop) f c :
  ~ keep f -> respects (num:=num) keep (set_U f c).
Proof.
  intros Hf d r d' H. inversion H; subst. split; [by repeat split|].
  intros g Hg. simpl. split; [|done].
  apply lookup_insert_ne. intros ->. done.
Qed.

Lemma respects_set_t (keep : string -> Prop) f v :
  ~ keep f -> respects (num:=num) keep (set_t f v).
Proof.
  intros Hf d r d' H. inversion H; subst. split; [by repeat split|].
  intros g Hg. simpl. split; [done|].
  apply lookup_insert_ne. intros ->. done.
Qed.

Lemma respects_for_each {X} keep (l : list X) (body : X -> M num unit) :
  (forall x, respects (num:=num) keep (body x)) -> respects (num:=num) keep (for_each l body).
Proof.
  intros Hb. induction l as [|x l IH]; simpl.
  - apply respects_ret.
  - apply respects_bind; [apply Hb | intros _; apply IH].
Qed.

Lemma respects_for_var {X} keep (l : list X) (body : X -> M num unit) last :
  (forall x, x ∈ l -> respects (num:=num) keep (body x)) ->
  respects (num:=num) keep (for_var l body last).
Proof.
  revert last. induction l as [|x l IH]; intros last Hb; simpl.
  - apply respects_ret.
  - apply respects_bind; [apply Hb; left | intros _; apply IH].
    intros y Hy. apply Hb. by right.
Qed.

Lemma respects_collect (keep : string -> Prop) f solves :
  ~ keep f -> respects (num:=num) keep (collect f solves).
Proof.
  intros Hf. apply respects_for_each. intros s.
  apply respects_bind; [apply respects_lookup_U|]. intros c.
  apply respects_bind; [apply respects_lift|]. intros tup.
  destruct c; [by apply respects_set_U | apply respects_raise].
Qed.

Lemma respects_store_first_basis (keep : string -> Prop) f solves :
  ~ keep f -> respects (num:=num) keep (store_first_basis f solves).
Proof.
  intros Hf. unfold store_first_basis.
  apply respects_bind; [apply respects_lift|]. intros first.
  apply respects_bind; [apply respects_lift|]. intros tup.
  apply respects_bind; [by apply respects_set_t|]. intros _.
  apply respects_bind; [by apply respects_set_U|]. intros _.
  by apply respects_collect.
Qed.

Lemma respects_body_2d (keep : string -> Prop) adaptive solves f :
  ~ keep f -> respects (num:=num) keep (body_2d adaptive solves f).
Proof.
  intros Hf. unfold body_2d.
  destruct (adaptive && String.eqb f directComparison);
    [apply respects_raise | by apply respects_store_first_basis].
Qed.

Lemma respects_body_1d (keep : string -> Prop) adaptive solves f :
  ~ keep f -> respects (num:=num) keep (body_1d adaptive solves f).
Proof.
  intros Hf. unfold body_1d.
  destruct (adaptive && String.eqb f directComparison);
    [|by apply respects_store_first_basis].
  apply respects_bind; [apply respects_lift|]. intros acc.
  apply respects_bind; [apply respects_lift|]. intros tu.
  apply respects_bind; [by apply respects_set_t|]. intros _.
  by apply respects_set_U.
Qed.

Lemma respects_body_0d (keep : string -> Prop) solves f :
  ~ keep f -> respects (num:=num) keep (body_0d solves f).
Proof.
  intros Hf. unfold body_0d.
  apply respects_bind; [by apply respects_set_U|]. intros _.
  apply respects_bind; [by apply respects_set_t|]. intros _.
  by apply respects_collect.
Qed.

(** A loop over features changes the entries of those features only. *)
Lemma respects_loop (body : string -> M num unit) (fs : list string) last :
  (forall keep f, ~ keep f -> respects (num:=num) keep (body f)) ->
  respects (num:=num) (fun g => g ∉ fs) (for_var fs body last).
Proof.
  intros Hb. apply respects_for_var. intros f Hf. apply Hb. tauto.
Qed.

(** ** The loop variable *)

Lemma for_var_app {X} (l1 l2 : list X) (body : X -> M num unit) last d :
  for_var (l1 ++ l2) body last d
  = bind (for_var l1 body last) (fun v => for_var l2 body v) d.
Proof.
  revert last d. induction l1 as [|x l1 IH]; intros last d; simpl.
  - done.
  - unfold bind. destruct (body x d) as [[[]|e] d1]; [|done].
    rewrite IH. done.
Qed.

Lemma for_var_last {X} (l : list X) (body : X -> M num unit) lst d v d' :
  for_var l body lst d = (Ok v, d') ->
  v = match last l with Some x => Some x | None => lst end.
Proof.
  revert lst d. induction l as [|x l IH]; intros lst d H; simpl in *.
  - by inversion H.
  - apply bind_ok in H as ([] & d1 & _ & H). apply IH in H. subst v.
    rewrite last_cons. by destruct (last l).
Qed.

(** ** What a successful loop leaves for each of its features *)

Lemma loop_establishes (Q : Data num -> string -> Prop)
    (body : string -> M num unit) (fs : list string) lst d v d' :
  (forall keep f, ~ keep f -> respects keep (body f)) ->
  (forall d1 d2 f,
      U d2 !! f = U d1 !! f -> t d2 !! f = t d1 !! f -> Q d1 f -> Q d2 f) ->
  (forall f d1 d2, f ∈ fs -> body f d1 = (Ok tt, d2) -> Q d2 f) ->
  for_var fs body lst d = (Ok v, d') ->
  forall f, f ∈ fs -> Q d' f.
Proof.
  intros Hframe Hstable. revert lst d.
  induction fs as [|x fs IH]; intros lst d Hbody H f Hf.
  - inversion Hf.
  - simpl in H. apply bind_ok in H as ([] & d1 & Hx & H).
    destruct (decide (f ∈ fs)) as [Hin|Hnin].
    + eapply IH; [|exact H|exact Hin].
      intros g d2 d3 Hg. apply Hbody. by right.
    + assert (f = x) as -> by (inversion Hf; subst; done).
      pose proof (respects_loop body fs (Some x) Hframe _ _ _ H) as [_ Hk].
      destruct (Hk x Hnin) as [HU Ht].
      eapply Hstable; [exact HU|exact Ht|]. eapply Hbody; [left|exact Hx].
Qed.

(** ** The statements of the loop bodies, when they succeed *)

Lemma collect_ok f solves d d' l0 :
  U d !! f = Some (PyList l0) ->
  collect f solves d = (Ok tt, d') ->
  exists vals,
    values_of f solves vals
    /\ U d' !! f = Some (PyList (l0 ++ vals))
    /\ t d' = t d.
Proof.
  unfold collect, values_of. revert d l0.
  induction solves as [|s solves IH]; intros d l0 HU H; simpl in H.
  - inversion H; subst. exists []. rewrite app_nil_r. by repeat split.
  - apply bind_ok in H as ([] & d1 & Hs & H).
    apply bind_ok in Hs as (c & d2 & Hc & Hs).
    unfold lookup_U in Hc. rewrite HU in Hc. inversion Hc; subst c d2.
    apply bind_ok in Hs as (tup & d2 & Htup & Hs).
    unfold lift, dict_get in Htup.
    destruct (s !! f) as [tup'|] eqn:Hsf; [|discriminate].
    inversion Htup; subst tup' d2.
    inversion Hs; subst d1.
    destruct (IH _ (l0 ++ [f_U tup]) (lookup_insert_eq _ _ _) H)
      as (vals & Hv & HU' & Ht).
    exists (f_U tup :: vals). split; [|split].
    + constructor; eauto.
    + rewrite HU'. by rewrite <- app_assoc.
    + by rewrite Ht.
Qed.

Lemma store_first_basis_ok f solves d d' :
  store_first_basis f solves d = (Ok tt, d') ->
  exists first tup vals,
    index0 solves = Ok first
    /\ first !! f = Some tup
    /\ values_of f solves vals
    /\ U d' !! f = Some (PyList vals)
    /\ t d' !! f = Some (f_t tup).
Proof.
  unfold store_first_basis. intros H.
  apply bind_ok in H as (first & d1 & E1 & H). inversion E1; subst d1.
  apply bind_ok in H as (tup & d1 & E2 & H). unfold lift, dict_get in E2.
  destruct (first !! f) as [tup'|] eqn:Hf; [|discriminate].
  inversion E2; subst tup' d1.
  apply bind_ok in H as ([] & d1 & E3 & H). inversion E3; subst d1.
  apply bind_ok in H as ([] & d1 & E4 & H). inversion E4; subst d1.
  eapply collect_ok in H as (vals & Hv & HU & Ht); [|apply lookup_insert_eq].
  exists first, tup, vals. repeat split; try done.
  rewrite Ht. simpl. apply lookup_insert_eq.
Qed.

Lemma body_0d_ok f solves d d' :
  body_0d solves f d = (Ok tt, d') ->
  exists vals,
    values_of f solves vals
    /\ U d' !! f = Some (PyList vals)
    /\ t d' !! f = Some PyNone.
Proof.
  unfold body_0d. intros H.
  apply bind_ok in H as ([] & d1 & E3 & H). inversion E3; subst d1.
  apply bind_ok in H as ([] & d1 & E4 & H). inversion E4; subst d1.
  eapply collect_ok in H as (vals & Hv & HU & Ht); [|apply lookup_insert_eq].
  exists vals. repeat split; try done.
  rewrite Ht. simpl. apply lookup_insert_eq.
Qed.


(** ** [isAdaptiveError] only reads the store *)

Lemma reads_only_bind {A B} (m : M num A) (k : A -> M num B) :
  reads_only (num:=num) m -> (forall a, reads_only (k a)) -> reads_only (bind m k).
Proof.
  intros Hm Hk d r d' H. unfold bind in H.
  destruct (m d) as [[a|e] d1] eqn:E.
  - apply Hm in E. subst d1. by apply Hk in H.
  - inversion H; subst. by apply Hm in E.
Qed.

Lemma reads_only_for_each {X} (l : list X) (body : X -> M num unit) :
  (forall x, reads_only (num:=num) (body x)) -> reads_only (for_each l body).
Proof.
  intros Hb. induction l as [|x l IH]; simpl.
  - intros d r d' H. by inversion H.
  - apply reads_only_bind; [apply Hb | intros _; apply IH].
Qed.

Lemma reads_only_lookup_U f : reads_only (num:=num) (lookup_U f).
Proof.
  intros d r d' H. unfold lookup_U in H. destruct (U d !! f); by inversion H.
Qed.

Lemma isAdaptiveError_reads_only adaptive :
  reads_only (num:=num) (isAdaptiveError adaptive).
Proof.
  unfold isAdaptiveError. destruct (negb adaptive).
  - apply reads_only_bind; [intros d r d' H; by inversion H|]. intros d0.
    apply reads_only_for_each. intros f.
    apply reads_only_bind; [apply reads_only_lookup_U|]. intros c.
    destruct (items_of c); intros d r d' H; by inversion H.
  - intros d r d' H. by inversion H.
Qed.

(** ** The phases of a [storeResults] that returns *)

Lemma storeResults_ok adaptive solves d d' :
  storeResults adaptive solves d = (Ok tt, d') ->
  exists first d0 d2 d1 d00 v2 v1 v0,
    index0 solves = Ok first
    /\ setFeatures first d = (Ok tt, d0)
    /\ isAdaptiveError adaptive d0 = (Ok tt, d0)
    /\ for_var (features_2d d0) (body_2d adaptive solves) None d0 = (Ok v2, d2)
    /\ for_var (features_1d d0) (body_1d adaptive solves) v2 d2 = (Ok v1, d1)
    /\ for_var (features_0d d0) (body_0d solves) v1 d1 = (Ok v0, d00)
    /\ convert_last v0 d00 = (Ok tt, d').
Proof.
  unfold storeResults, store_loops. intros H.
  apply bind_ok in H as (first & dx & E1 & H). inversion E1; subst dx.
  apply bind_ok in H as ([] & d0 & E2 & H).
  apply bind_ok in H as ([] & dx & E3 & H).
  pose proof (isAdaptiveError_reads_only _ _ _ _ E3). subst dx.
  apply bind_ok in H as (v0 & d00 & H & E7).
  apply bind_ok in H as (dd & dx & E4 & H). inversion E4; subst dd dx.
  apply bind_ok in H as (v2 & d2 & E5 & H).
  apply bind_ok in H as (v1 & d1 & E6 & H).
  exists first, d0, d2, d1, d00, v2, v1, v0. by repeat split.
Qed.

Lemma convert_last_ok v d d' :
  convert_last v d = (Ok tt, d') ->
  exists f c,
    v = Some f /\ U d !! f = Some c
    /\ U d' = <[f := np_array c]> (U d) /\ t d' = t d
    /\ same_features d d'.
Proof.
  destruct v as [f|]; simpl; [|discriminate]. intros H.
  apply bind_ok in H as (c & dx & E1 & H). unfold lookup_U in E1.
  destruct (U d !! f) as [c'|] eqn:Hc; [|discriminate].
  inversion E1; subst c' dx. inversion H; subst d'.
  exists f, c. by repeat split.
Qed.

Lemma convert_last_items v d d' f :
  convert_last v d = (Ok tt, d') ->
  items_of <$> (U d' !! f) = items_of <$> (U d !! f) /\ t d' !! f = t d !! f.
Proof.
  intros H. apply convert_last_ok in H as (fl & c & -> & Hfl & HU & Ht & _).
  rewrite HU, Ht. split; [|done].
  destruct (decide (fl = f)) as [->|Hne].
  - rewrite lookup_insert_eq, Hfl. by destruct c.
  - by rewrite lookup_insert_ne.
Qed.

(** ** The feature classes of [setFeatures] *)

Lemma elem_of_features_of_class (n : nat) (first : solved num) f :
  f ∈ features_of_class n first
  <-> exists tup, first !! f = Some tup /\ rank_class (f_U tup) = n.
Proof.
  unfold features_of_class, solved in *.
  rewrite list_elem_of_In, in_map_iff. split.
  - intros ([g tup] & <- & Hin). apply filter_In in Hin as [Hin Hr].
    apply list_elem_of_In in Hin. apply elem_of_map_to_list in Hin. simpl in *.
    exists tup. split; [done|]. by apply Nat.eqb_eq.
  - intros (tup & Hf & Hr). exists (f, tup). split; [done|].
    apply filter_In. split.
    + apply list_elem_of_In. by apply elem_of_map_to_list.
    + by apply Nat.eqb_eq.
Qed.

Lemma features_of_class_disjoint (n m : nat) (first : solved num) f :
  f ∈ features_of_class n first -> f ∈ features_of_class m first -> n = m.
Proof.
  rewrite !elem_of_features_of_class.
  intros (tup & H1 & <-) (tup' & H2 & <-). congruence.
Qed.

Lemma setFeatures_ok (first : solved num) d d0 :
  setFeatures first d = (Ok tt, d0) ->
  features_0d d0 = features_of_class 0 first
  /\ features_1d d0 = features_of_class 1 first
  /\ features_2d d0 = features_of_class 2 first
  /\ U d0 = U d /\ t d0 = t d.
Proof. intros H. inversion H; subst. by repeat split. Qed.

(** ** [np.argmax] and [performInterpolation] *)

Lemma rmapM_ok {A B} (fn : A -> result B) (l : list A) (ys : list B) :
  rmapM fn l = Ok ys -> Forall2 (fun x y => fn x = Ok y) l ys.
Proof.
  revert ys. induction l as [|x l IH]; intros ys H; simpl in H.
  - inversion H. constructor.
  - destruct (fn x) as [y|] eqn:Hx; [|discriminate]. simpl in H.
    destruct (rmapM fn l) as [ys'|]; [|discriminate]. simpl in H.
    inversion H; subst. constructor; eauto.
Qed.

Lemma argmax_from_spec (l : list nat) (bi b i : nat) :
  (argmax_from bi b i l = bi /\ Forall (fun x => x <= b) l)
  \/ exists k v,
      argmax_from bi b i l = i + k /\ l !! k = Some v /\ b < v
      /\ Forall (fun x => x <= v) l
      /\ forall j x, j < k -> l !! j = Some x -> x < v.
Proof.
  revert bi b i. induction l as [|x l IH]; intros bi b i; simpl.
  - left. split; [done|constructor].
  - destruct (Nat.ltb_spec b x) as [Hlt|Hge].
    + right. destruct (IH i x (S i)) as [[Hr Hall]|(k & v & Hr & Hk & Hv & Hall & Hfirst)].
      * exists 0, x. rewrite Hr. repeat split; try done; try lia.
        constructor; [lia|done].
      * exists (S k), v. rewrite Hr. repeat split; try done; try lia.
        -- constructor; [lia|done].
        -- intros [|j] y Hj Hy; simpl in Hy.
           ++ inversion Hy; subst. lia.
           ++ eapply Hfirst; [|exact Hy]. lia.
    + destruct (IH bi b (S i)) as [[Hr Hall]|(k & v & Hr & Hk & Hv & Hall & Hfirst)].
      * left. split; [done|]. constructor; [lia|done].
      * right. exists (S k), v. rewrite Hr. repeat split; try done; try lia.
        -- constructor; [lia|done].
        -- intros [|j] y Hj Hy; simpl in Hy.
           ++ inversion Hy; subst. lia.
           ++ eapply Hfirst; [|exact Hy]. lia.
Qed.

(** [np.argmax] gives the first index of a largest element. *)
Lemma argmax_ok (l : list nat) (r : nat) :
  argmax l = Ok r ->
  exists v,
    l !! r = Some v
    /\ Forall (fun x => x <= v) l
    /\ forall j x, j < r -> l !! j = Some x -> x < v.
Proof.
  destruct l as [|x l]; simpl; [discriminate|]. intros H.
  assert (Hr : argmax_from 0 x 1 l = r) by congruence. clear H.
  destruct (argmax_from_spec l 0 x 1) as [[E Hall]|(k & v & E & Hk & Hv & Hall & Hfirst)].
  - rewrite E in Hr. subst r. exists x. split; [done|]. split.
    + constructor; [lia|done].
    + intros; lia.
  - rewrite E in Hr. subst r. exists v. split; [done|]. split.
    + constructor; [lia|done].
    + intros [|j] y Hj Hy; simpl in Hy.
      * inversion Hy; subst. lia.
      * eapply Hfirst; [|exact Hy]. lia.
Qed.

Lemma performInterpolation_ok (ts : list (pyval num))
    (interpolation : list (pyval num -> pyval num)) tb c :
  performInterpolation ts interpolation = Ok (tb, c) ->
  exists i n,
    ts !! i = Some tb /\ pylen tb = Ok n
    /\ (forall j tj, ts !! j = Some tj ->
          exists m, pylen tj = Ok m /\ m <= n /\ (j < i -> m < n))
    /\ c = NdArray (map (fun inter => inter tb) interpolation).
Proof.
  unfold performInterpolation. intros H.
  destruct (rmapM pylen ts) as [lengths|] eqn:Hl; [|discriminate]. simpl in H.
  destruct (argmax lengths) as [i|] eqn:Hi; [|discriminate]. simpl in H.
  unfold index in H. destruct (ts !! i) as [tb'|] eqn:Hti; [|discriminate].
  simpl in H. inversion H; subst tb' c.
  apply rmapM_ok in Hl. apply argmax_ok in Hi as (n & Hn & Hall & Hfirst).
  exists i, n. split; [done|]. split.
  { destruct (Forall2_lookup_l _ _ _ _ _ Hl Hti) as (n' & Hn' & Hlen). congruence. }
  split; [|done].
  intros j tj Hj.
  destruct (Forall2_lookup_l _ _ _ _ _ Hl Hj) as (m & Hm & Hlen).
  exists m. split; [done|]. split.
  - rewrite Forall_forall in Hall. apply Hall.
    eapply list_elem_of_lookup_2, Hm.
  - intros Hlt. eapply Hfirst; eauto.
Qed.

Lemma gather_adaptive_ok f solves ts (inters : list (pyval num -> pyval num)) :
  gather_adaptive f solves = Ok (ts, inters) ->
  length ts = length solves /\ length inters = length solves
  /\ forall j s, solves !! j = Some s ->
       exists tup inter,
         s !! f = Some tup /\ f_interpolation tup = Some inter
         /\ ts !! j = Some (f_t tup) /\ inters !! j = Some inter.
Proof.
  revert ts inters. induction solves as [|s0 solves IH]; intros ts inters H;
    simpl in H.
  - inversion H; subst. by repeat split.
  - unfold dict_get in H. destruct (s0 !! f) as [tup|] eqn:Hs0; [|discriminate].
    simpl in H. unfold tuple_2 in H.
    destruct (f_interpolation tup) as [inter|] eqn:Hint; [|discriminate].
    simpl in H.
    destruct (gather_adaptive f solves) as [[ts' inters']|]; [|discriminate].
    simpl in H. inversion H; subst ts inters.
    destruct (IH _ _ eq_refl) as (L1 & L2 & Hall).
    repeat split; simpl; try congruence.
    intros [|j] s Hj; simpl in Hj.
    + inversion Hj; subst s. exists tup, inter. by repeat split.
    + apply Hall in Hj as (tup' & inter' & ?). exists tup', inter'. done.
Qed.

End StoreFacts.

(** * Claims about [storeResults] *)

Section StoreClaims.
Import Runmodel.
Context {num : Type}.
Implicit Types (d : Data num) (f g feature : string) (solves : list (solved num)).





Lemma body_1d_interpolated solves d1 d2 :
  body_1d true solves directComparison d1 = (Ok tt, d2) ->
  interpolated solves d2 directComparison.
Proof.
  unfold body_1d. simpl. intros H.
  apply bind_ok in H as ([ts inters] & dx & E1 & H).
  unfold lift in E1. injection E1 as E1 <-.
  apply bind_ok in H as ([tb c] & dx & E2 & H).
  unfold lift in E2. injection E2 as E2 <-.
  apply bind_ok in H as ([] & dx & E3 & H).
  unfold set_t in E3. injection E3 as <-.
  unfold set_U in H. injection H as <-. simpl.
  exists ts, inters, tb, c. simpl.
  split; [done|]. split; [done|].
  split; apply lookup_insert_eq.
Qed.

(** What a returning [storeResults] of an adaptive run has stored for a
    1-D [directComparison]. *)
Lemma directComparison_stored solves d d' :
  storeResults true solves d = (Ok tt, d') ->
  directComparison ∈ features_1d d' ->
  (forall s tup inter v,
      s ∈ solves -> s !! directComparison = Some tup ->
      f_interpolation tup = Some inter -> pylen (inter v) = pylen v) ->
  exists i s_i tup_i n c,
    solves !! i = Some s_i /\ s_i !! directComparison = Some tup_i
    /\ t d' !! directComparison = Some (f_t tup_i)
    /\ pylen (f_t tup_i) = Ok n
    /\ (forall j s tup,
          solves !! j = Some s -> s !! directComparison = Some tup ->
          exists m, pylen (f_t tup) = Ok m /\ m <= n /\ (j < i -> m < n))
    /\ U d' !! directComparison = Some c
    /\ length (items_of c) = length solves
    /\ (forall j s tup inter,
          solves !! j = Some s -> s !! directComparison = Some tup ->
          f_interpolation tup = Some inter ->
          items_of c !! j = Some (inter (f_t tup_i)))
    /\ (forall u, u ∈ items_of c -> pylen u = Ok n).
Proof.
  intros H Hin Hlen.
  apply storeResults_ok in H
    as (first & d0 & d2 & d1 & d00 & v2 & v1 & v0 & _ & HsF & _ & L2 & L1 & L0 & Hc).
  pose proof (respects_loop _ _ _ (fun k f => respects_body_1d k true solves f)
                _ _ _ L1) as [S1 F1].
  pose proof (respects_loop _ _ _ (fun k f => respects_body_2d k true solves f)
                _ _ _ L2) as [S2 F2].
  pose proof (respects_loop _ _ _ (fun k f => respects_body_0d k solves f)
                _ _ _ L0) as [S0 F0].
  destruct (convert_last_items _ _ _ directComparison Hc) as [HcU Hct].
  apply convert_last_ok in Hc as (fl & c0 & _ & _ & _ & _ & Sc).
  destruct S2 as (_ & S20 & S21 & S22), S1 as (_ & S10 & S11 & S12),
    S0 as (_ & S00 & S01 & S02), Sc as (_ & Sc0 & Sc1 & Sc2).
  assert (E1 : features_1d d' = features_1d d0) by congruence.
  rewrite E1 in Hin.
  apply setFeatures_ok in HsF as (F0d & F1d & F2d & _ & _).
  assert (Hn0 : directComparison ∉ features_0d d0).
  { rewrite F0d. intros H0. rewrite F1d in Hin.
    pose proof (features_of_class_disjoint _ _ _ _ H0 Hin). discriminate. }
  assert (HQ : interpolated solves d1 directComparison).
  { eapply (loop_establishes
              (fun d f => f = directComparison -> interpolated solves d f));
      [| | |exact L1|exact Hin|done].
    - intros k g. apply respects_body_1d.
    - intros da db g HUg Htg Hq ->. destruct (Hq eq_refl) as (ts & inters & tb & c & ?).
      exists ts, inters, tb, c. rewrite HUg, Htg. done.
    - intros g da db _ Hb ->. by eapply body_1d_interpolated. }
  destruct HQ as (ts & inters & tb & c & Hg & Hp & Ht & HU).
  destruct (F0 _ Hn0) as [HU0 Ht0].
  rewrite HU0, HU in HcU. rewrite Ht0, Ht in Hct.
  destruct (U d' !! directComparison) as [c'|] eqn:HU'; [|discriminate].
  simpl in HcU. inversion HcU as [Hitems]. clear HcU.
  apply gather_adaptive_ok in Hg as (Lts & Lint & Hnodes).
  apply performInterpolation_ok in Hp as (i & n & Hi & Hn & Hmax & ->).
  simpl in Hitems.
  assert (Hsi : exists s_i, solves !! i = Some s_i).
  { apply lookup_lt_is_Some. rewrite <- Lts. eapply lookup_lt_Some, Hi. }
  destruct Hsi as [s_i Hsi].
  destruct (Hnodes _ _ Hsi) as (tup_i & inter_i & Htup_i & _ & Hti & _).
  assert (tb = f_t tup_i) as -> by congruence.
  exists i, s_i, tup_i, n, c'. repeat split; try done.
  - intros j s tup Hj Hs.
    destruct (Hnodes _ _ Hj) as (tup' & inter' & Htup' & _ & Htj & _).
    assert (tup' = tup) as -> by congruence. by apply Hmax in Htj.
  - rewrite Hitems, length_map. done.
  - intros j s tup inter Hj Hs Hint.
    destruct (Hnodes _ _ Hj) as (tup' & inter' & Htup' & Hint' & _ & Hij).
    assert (tup' = tup) as -> by congruence.
    assert (inter' = inter) as -> by congruence.
    rewrite Hitems, list_lookup_fmap, Hij. done.
  - intros u Hu. rewrite Hitems in Hu.
    apply list_elem_of_fmap in Hu as (inter & -> & Hinter).
    apply list_elem_of_lookup in Hinter as [j Hj].
    assert (Hsj : exists s, solves !! j = Some s).
    { apply lookup_lt_is_Some. rewrite <- Lint. eapply lookup_lt_Some, Hj. }
    destruct Hsj as [s Hsj].
    destruct (Hnodes _ _ Hsj) as (tup & inter' & Htup & Hint & _ & Hij).
    assert (inter' = inter) as -> by congruence.
    rewrite (Hlen s tup inter _ (list_elem_of_lookup_2 _ _ _ Hsj) Htup Hint).
    done.
Qed.

Lemma collect_succeeds f solves d l0 :
  U d !! f = Some (PyList l0) ->
  (forall s, s ∈ solves -> is_Some (s !! f)) ->
  exists d', collect f solves d = (Ok tt, d').
Proof.
  unfold collect. revert d l0.
  induction solves as [|s solves IH]; intros d l0 HU Hall; simpl.
  - eauto.
  - destruct (Hall s) as [tup Htup]; [left|].
    unfold bind at 1. unfold bind at 1. unfold lookup_U at 1. rewrite HU.
    unfold bind at 1. unfold lift, dict_get. rewrite Htup. simpl.
    eapply IH.
    + simpl. apply lookup_insert_eq.
    + intros s' Hs'. apply Hall. by right.
Qed.

Lemma store_first_basis_succeeds f solves first d :
  index0 solves = Ok first ->
  (forall s, s ∈ solves -> is_Some (s !! f)) ->
  exists d', store_first_basis f solves d = (Ok tt, d').
Proof.
  intros Hfirst Hall. unfold store_first_basis.
  assert (Hin : first ∈ solves).
  { destruct solves; inversion Hfirst; subst. left. }
  destruct (Hall _ Hin) as [tup Htup].
  unfold bind at 1. unfold lift at 1. rewrite Hfirst.
  unfold bind at 1. unfold lift at 1, dict_get. rewrite Htup.
  unfold bind at 1. simpl. unfold bind at 1. simpl.
  eapply collect_succeeds; [|exact Hall]. simpl. apply lookup_insert_eq.
Qed.

Lemma loop_succeeds (body : string -> M num unit) (fs : list string) lst d :
  (forall f d1, f ∈ fs -> exists d2, body f d1 = (Ok tt, d2)) ->
  exists v d', for_var fs body lst d = (Ok v, d').
Proof.
  revert lst d. induction fs as [|x fs IH]; intros lst d Hb; simpl.
  - unfold ret. eauto.
  - destruct (Hb x d) as [d1 H1]; [left|].
    rewrite (bind_run _ _ _ _ _ H1). apply IH.
    intros f d2 Hf. apply Hb. by right.
Qed.

(** C3, amended.  In a run of an adaptive model in which the feature
    [directComparison] is 2-D, and every node reports the 2-D features,
    [storeResults] raises [NotImplementedError] in its first loop: no
    interpolation has been attempted, and the entries of the features
    that are not 2-D are as they were. *)
Theorem adaptive_2d_directComparison_raises solves (first : solved num) d :
  index0 solves = Ok first ->
  directComparison ∈ features_of_class 2 first ->
  (forall s f, s ∈ solves -> f ∈ features_of_class 2 first -> is_Some (s !! f)) ->
  exists d',
    storeResults true solves d = (Raise NotImplementedError, d')
    /\ forall f, f ∉ features_of_class 2 first ->
         U d' !! f = U d !! f /\ t d' !! f = t d !! f.
Proof.
  intros Hfirst Hdc Hall.
  apply list_elem_of_split_l in Hdc as (l1 & l2 & Hsplit & Hnin).
  set (d0 := mkData (uncertain_parameters d) (features_of_class 0 first)
                    (features_of_class 1 first) (features_of_class 2 first)
                    (U d) (t d)).
  destruct (loop_succeeds (body_2d true solves) l1 None d0) as (v & dmid & Hl1).
  { intros f d1 Hf. unfold body_2d.
    destruct (String.eqb_spec f directComparison) as [->|Hne]; [done|]. simpl.
    eapply store_first_basis_succeeds; [exact Hfirst|].
    intros s Hs. apply Hall; [done|]. rewrite Hsplit. apply elem_of_app. by left. }
  exists dmid. split.
  - assert (H2 : for_var (features_2d d0) (body_2d true solves) None d0
                 = (Raise NotImplementedError, dmid)).
    { simpl features_2d. rewrite Hsplit, for_var_app.
      rewrite (bind_run _ _ _ _ _ Hl1). simpl.
      by apply bind_raise_run. }
    unfold storeResults.
    rewrite (bind_run (lift (index0 solves)) _ d first d)
      by (unfold lift; by rewrite Hfirst).
    rewrite (bind_run (setFeatures first) _ d tt d0) by done.
    rewrite (bind_run (isAdaptiveError true) _ d0 tt d0) by done.
    apply bind_raise_run. unfold store_loops.
    rewrite (bind_run get_data _ d0 d0 d0) by done.
    by apply bind_raise_run.
  - intros f Hf.
    pose proof (respects_loop _ _ _ (fun k f => respects_body_2d k true solves f)
                  _ _ _ Hl1) as [_ F].
    apply F. intros Hin. apply Hf. rewrite Hsplit. apply elem_of_app. by left.
Qed.

(** ** An adaptive run on complete results returns *)

Lemma rmapM_succeeds {A B} (fn : A -> result B) (l : list A) :
  (forall x, x ∈ l -> exists y, fn x = Ok y) -> exists ys, rmapM fn l = Ok ys.
Proof.
  induction l as [|x l IH]; intros H; simpl; [eauto|].
  destruct (H x) as [y Hy]; [left|]. rewrite Hy. simpl.
  destruct IH as [ys Hys]; [intros z Hz; apply H; by right|].
  rewrite Hys. simpl. eauto.
Qed.

Lemma gather_adaptive_succeeds f solves :
  (forall s, s ∈ solves ->
     exists tup inter, s !! f = Some tup /\ f_interpolation tup = Some inter) ->
  exists acc, gather_adaptive f solves = Ok acc.
Proof.
  induction solves as [|s solves IH]; intros H; simpl; [eauto|].
  destruct (H s) as (tup & inter & Hs & Hi); [left|].
  unfold dict_get, tuple_2. rewrite Hs. simpl. rewrite Hi. simpl.
  destruct IH as [acc Hacc]; [intros z Hz; apply H; by right|].
  rewrite Hacc. simpl. eauto.
Qed.

Lemma performInterpolation_succeeds (ts : list (pyval num))
    (inters : list (pyval num -> pyval num)) :
  ts <> [] ->
  (forall tb, tb ∈ ts -> exists n, pylen tb = Ok n) ->
  exists tu, performInterpolation ts inters = Ok tu.
Proof.
  intros Hne Hlen. unfold performInterpolation.
  destruct (rmapM_succeeds pylen ts Hlen) as [lengths Hl]. rewrite Hl. simpl.
  pose proof (rmapM_ok _ _ _ Hl) as H2. apply Forall2_length in H2.
  destruct (argmax lengths) as [i|e] eqn:Hi.
  - simpl. apply argmax_ok in Hi as (v & Hv & _).
    apply lookup_lt_Some in Hv. rewrite <- H2 in Hv.
    apply lookup_lt_is_Some in Hv as [tb Htb].
    unfold index. rewrite Htb. simpl. eauto.
  - destruct lengths; [|discriminate]. destruct ts; [done|discriminate].
Qed.

Lemma body_0d_succeeds f solves d :
  (forall s, s ∈ solves -> is_Some (s !! f)) ->
  exists d', body_0d solves f d = (Ok tt, d').
Proof.
  intros Hall. unfold body_0d.
  unfold bind at 1. simpl. unfold bind at 1. simpl.
  eapply collect_succeeds; [|exact Hall]. simpl. apply lookup_insert_eq.
Qed.

Lemma body_1d_adaptive_succeeds solves d :
  solves <> [] ->
  (forall s, s ∈ solves ->
     exists tup inter n,
       s !! directComparison = Some tup
       /\ f_interpolation tup = Some inter /\ pylen (f_t tup) = Ok n) ->
  exists d', body_1d true solves directComparison d = (Ok tt, d').
Proof.
  intros Hne Hall. unfold body_1d. simpl.
  destruct (gather_adaptive_succeeds directComparison solves) as [[ts inters] Hg].
  { intros s Hs. destruct (Hall s Hs) as (tup & inter & n & ? & ? & _). eauto. }
  pose proof (gather_adaptive_ok _ _ _ _ Hg) as (Lts & _ & Hnodes).
  destruct (performInterpolation_succeeds ts inters) as [[tb c] Hp].
  { intros ->. destruct solves; [done|discriminate]. }
  { intros tb Htb. apply list_elem_of_lookup in Htb as [j Hj].
    assert (Hsj : is_Some (solves !! j)).
    { apply lookup_lt_is_Some. rewrite <- Lts. eapply lookup_lt_Some, Hj. }
    destruct Hsj as [s Hsj].
    destruct (Hnodes _ _ Hsj) as (tup & inter & Htup & _ & Htj & _).
    destruct (Hall s (list_elem_of_lookup_2 _ _ _ Hsj))
      as (tup' & _ & n & Htup' & _ & Hn).
    exists n. congruence. }
  rewrite (bind_run (lift (gather_adaptive directComparison solves)) _ d (ts, inters) d)
    by (unfold lift; by rewrite Hg).
  rewrite (bind_run (lift (performInterpolation ts inters)) _ d (tb, c) d)
    by (unfold lift; simpl; by rewrite Hp).
  unfold bind. simpl. eauto.
Qed.

Lemma is_some_U_stable d1 d2 f :
  U d2 !! f = U d1 !! f -> t d2 !! f = t d1 !! f ->
  is_Some (U d1 !! f) -> is_Some (U d2 !! f).
Proof. by intros -> _. Qed.

Lemma body_1d_sets_U adaptive solves f d1 d2 :
  body_1d adaptive solves f d1 = (Ok tt, d2) -> is_Some (U d2 !! f).
Proof.
  unfold body_1d. destruct (adaptive && String.eqb f directComparison).
  - intros H.
    apply bind_ok in H as (acc & dx & E1 & H). unfold lift in E1.
    injection E1 as E1 <-.
    apply bind_ok in H as (tu & dx & E2 & H). unfold lift in E2.
    injection E2 as E2 <-.
    apply bind_ok in H as ([] & dx & E3 & H).
    unfold set_t in E3. injection E3 as <-.
    unfold set_U in H. injection H as <-. simpl.
    rewrite lookup_insert_eq. eauto.
  - intros H.
    apply store_first_basis_ok in H as (? & ? & vals & _ & _ & _ & HU & _).
    rewrite HU. eauto.
Qed.

Lemma body_0d_sets_U solves f d1 d2 :
  body_0d solves f d1 = (Ok tt, d2) -> is_Some (U d2 !! f).
Proof.
  intros H. apply body_0d_ok in H as (vals & _ & HU & _). rewrite HU. eauto.
Qed.

Lemma storeResults_adaptive_succeeds solves (first : solved num) d :
  index0 solves = Ok first ->
  directComparison ∈ features_of_class 1 first ->
  (forall s f, s ∈ solves -> is_Some (first !! f) -> is_Some (s !! f)) ->
  (forall s tup, s ∈ solves -> s !! directComparison = Some tup ->
     exists inter n, f_interpolation tup = Some inter /\ pylen (f_t tup) = Ok n) ->
  exists d', storeResults true solves d = (Ok tt, d').
Proof.
  intros Hfirst Hdc Hall Hdcs.
  assert (Hne : solves <> []) by (intros ->; discriminate).
  assert (Hfeat : forall n f s, f ∈ features_of_class n first -> s ∈ solves ->
                    is_Some (s !! f)).
  { intros n f s Hf Hs. apply Hall; [done|].
    apply elem_of_features_of_class in Hf as (tup & -> & _). eauto. }
  set (d0 := mkData (uncertain_parameters d) (features_of_class 0 first)
                    (features_of_class 1 first) (features_of_class 2 first)
                    (U d) (t d)).
  destruct (loop_succeeds (body_2d true solves) (features_of_class 2 first) None d0)
    as (v2 & d2 & L2).
  { intros f d1 Hf. unfold body_2d.
    destruct (String.eqb_spec f directComparison) as [->|_].
    - pose proof (features_of_class_disjoint _ _ _ _ Hf Hdc). discriminate.
    - simpl. eapply store_first_basis_succeeds; [exact Hfirst|].
      intros s Hs. by eapply Hfeat. }
  destruct (loop_succeeds (body_1d true solves) (features_of_class 1 first) v2 d2)
    as (v1 & d1 & L1).
  { intros f dx Hf.
    destruct (String.eqb_spec f directComparison) as [->|Hn].
    - apply body_1d_adaptive_succeeds; [done|].
      intros s Hs. destruct (Hfeat 1 directComparison s Hdc Hs) as [tup Htup].
      destruct (Hdcs s tup Hs Htup) as (inter & n & ? & ?).
      exists tup, inter, n. done.
    - unfold body_1d. rewrite (proj2 (String.eqb_neq _ _) Hn). simpl.
      eapply store_first_basis_succeeds; [exact Hfirst|].
      intros s Hs. by eapply Hfeat. }
  destruct (loop_succeeds (body_0d solves) (features_of_class 0 first) v1 d1)
    as (v0 & d00 & L0).
  { intros f dx Hf. apply body_0d_succeeds. intros s Hs. by eapply Hfeat. }
  assert (Hlast : exists fl, v0 = Some fl /\ is_Some (U d00 !! fl)).
  { pose proof (for_var_last _ _ _ _ _ _ L0) as Hv0.
    pose proof (for_var_last _ _ _ _ _ _ L1) as Hv1.
    destruct (last (features_of_class 0 first)) as [fl|] eqn:H0.
    - exists fl. split; [done|].
      eapply (loop_establishes (fun d f => is_Some (U d !! f)));
        [| | |exact L0|].
      + intros k g. apply respects_body_0d.
      + apply is_some_U_stable.
      + intros g da db _. apply body_0d_sets_U.
      + apply last_Some in H0 as [l' ->]. apply elem_of_app. right. left.
    - apply last_None in H0. rewrite H0 in L0. simpl in L0.
      injection L0 as <- <-.
      destruct (last (features_of_class 1 first)) as [fl|] eqn:H1.
      + exists fl. split; [done|].
        eapply (loop_establishes (fun d f => is_Some (U d !! f)));
          [| | |exact L1|].
        * intros k g. apply respects_body_1d.
        * apply is_some_U_stable.
        * intros g da db _. apply body_1d_sets_U.
        * apply last_Some in H1 as [l' ->]. apply elem_of_app. right. left.
      + apply last_None in H1. rewrite H1 in Hdc. inversion Hdc. }
  destruct Hlast as (fl & -> & [c Hc]).
  eexists. unfold storeResults.
  rewrite (bind_run (lift (index0 solves)) _ d first d)
    by (unfold lift; by rewrite Hfirst).
  rewrite (bind_run (setFeatures first) _ d tt d0) by done.
  rewrite (bind_run (isAdaptiveError true) _ d0 tt d0) by done.
  assert (Hloops : store_loops true solves d0 = (Ok (Some fl), d00)).
  { unfold store_loops.
    rewrite (bind_run get_data _ d0 d0 d0) by done.
    rewrite (bind_run _ _ _ _ _ L2). rewrite (bind_run _ _ _ _ _ L1).
    exact L0. }
  rewrite (bind_run _ _ _ _ _ Hloops). simpl.
  unfold bind, lookup_U. rewrite Hc. reflexivity.
Qed.

(** C1, amended.  In a run of an adaptive model in which the feature
    [directComparison] is 1-D, every node reports the features of the
    first one, and [directComparison] comes with a sized time basis and
    an interpolant that gives as many values as the basis it is
    evaluated on has points, [storeResults] returns, and: the stored
    basis is the native basis of a node, no node has a longer one and no
    earlier node one as long; the stored collection has one series per
    node, the interpolant of the node evaluated on that basis, each as
    long as the basis. *)
Theorem directComparison_on_longest_basis solves (first : solved num) d :
  index0 solves = Ok first ->
  directComparison ∈ features_of_class 1 first ->
  (forall s f, s ∈ solves -> is_Some (first !! f) -> is_Some (s !! f)) ->
  (forall s tup, s ∈ solves -> s !! directComparison = Some tup ->
     exists inter n,
       f_interpolation tup = Some inter /\ pylen (f_t tup) = Ok n
       /\ forall v, pylen (inter v) = pylen v) ->
  exists d' i s_i tup_i n c,
    storeResults true solves d = (Ok tt, d')
    /\ solves !! i = Some s_i /\ s_i !! directComparison = Some tup_i
    /\ t d' !! directComparison = Some (f_t tup_i)
    /\ pylen (f_t tup_i) = Ok n
    /\ (forall j s tup,
          solves !! j = Some s -> s !! directComparison = Some tup ->
          exists m, pylen (f_t tup) = Ok m /\ m <= n /\ (j < i -> m < n))
    /\ U d' !! directComparison = Some c
    /\ length (items_of c) = length solves
    /\ (forall j s tup inter,
          solves !! j = Some s -> s !! directComparison = Some tup ->
          f_interpolation tup = Some inter ->
          items_of c !! j = Some (inter (f_t tup_i)))
    /\ (forall u, u ∈ items_of c -> pylen u = Ok n).
Proof.
  intros Hfirst Hdc Hall Hdcs.
  destruct (storeResults_adaptive_succeeds solves first d Hfirst Hdc Hall)
    as [d' Hd'].
  { intros s tup Hs Htup. destruct (Hdcs s tup Hs Htup) as (inter & n & ? & ? & _).
    eauto. }
  assert (Hin : directComparison ∈ features_1d d').
  { pose proof Hd' as H.
    apply storeResults_ok in H
      as (first' & d0 & d2 & d1 & d00 & v2 & v1 & v0 & Hf' & HsF & _ & L2 & L1 & L0 & Hc).
    assert (first' = first) as -> by congruence.
    pose proof (respects_loop _ _ _ (fun k f => respects_body_1d k true solves f)
                  _ _ _ L1) as [(_ & _ & S1 & _) _].
    pose proof (respects_loop _ _ _ (fun k f => respects_body_2d k true solves f)
                  _ _ _ L2) as [(_ & _ & S2 & _) _].
    pose proof (respects_loop _ _ _ (fun k f => respects_body_0d k solves f)
                  _ _ _ L0) as [(_ & _ & S0 & _) _].
    apply convert_last_ok in Hc as (_ & _ & _ & _ & _ & _ & (_ & _ & Sc & _)).
    apply setFeatures_ok in HsF as (_ & F1 & _).
    congruence. }
  destruct (directComparison_stored solves d d' Hd' Hin)
    as (i & s_i & tup_i & n & c & H).
  { intros s tup inter v Hs Htup Hint.
    destruct (Hdcs s tup Hs Htup) as (inter' & _ & Hi' & _ & Hlen).
    assert (inter' = inter) as -> by congruence. apply Hlen. }
  exists d', i, s_i, tup_i, n, c. split; [done|exact H].
Qed.

End StoreClaims.

Section StoreExamples.
Import Runmodel RunExamples.


(** C1 as stated fails on a 1-D feature with another name: in the
    adaptive run of two nodes, the basis stored for [spikes] is that of
    the first node, with two points, although the second node has three,
    and the two stored series have two and three values. *)
Lemma adaptive_1d_feature_counterexample :
  let d' := snd (storeResults true solves_adaptive empty_data) in
  fst (storeResults true solves_adaptive empty_data) = Ok tt
  /\ "spikes" ∈ features_1d d'
  /\ t d' !! "spikes" = Some (vec [0; 1]%Z)
  /\ f_t <$> (node_long !! "spikes") = Some (vec [0; 1; 2]%Z)
  /\ pylen (vec [0; 1]%Z) = Ok 2
  /\ pylen (vec [0; 1; 2]%Z) = Ok 3
  /\ U d' !! "spikes" = Some (PyList [vec [1; 1]%Z; vec [1; 1; 1]%Z]).
Proof.
  repeat split; try (vm_compute; reflexivity).
  vm_compute. left.
Qed.

Lemma constant_interpolant_length (x : Z) (v : pyval Z) :
  pylen (constant_interpolant x v) = pylen v.
Proof. by destruct v as [|[|n sh] data]. Qed.

Lemma solves_adaptive_complete (s : solved Z) (f : string) :
  s ∈ solves_adaptive -> is_Some (node_short !! f) -> is_Some (s !! f).
Proof.
  intros Hs [tup Hf].
  assert (Hkeys : f = "directComparison" \/ f = "spikes" \/ f = "rate" \/ f = "count").
  { unfold node_short, solved in *.
    destruct (decide (f = "directComparison")) as [?|N1]; [by left|].
    destruct (decide (f = "spikes")) as [?|N2]; [by right; left|].
    destruct (decide (f = "rate")) as [?|N3]; [by right; right; left|].
    rewrite !lookup_insert_ne in Hf by done.
    apply lookup_singleton_Some in Hf as [<- _]. by right; right; right. }
  assert (Hcases : s = node_short \/ s = node_long).
  { unfold solves_adaptive in Hs. rewrite !elem_of_cons in Hs.
    destruct Hs as [?|[?|Hs]]; [by left|by right|inversion Hs]. }
  destruct Hcases as [-> | ->];
    destruct Hkeys as [-> | [-> | [-> | ->]]]; vm_compute; eauto.
Qed.

Lemma solves_adaptive_directComparison (s : solved Z) (tup : ftuple Z) :
  s ∈ solves_adaptive -> s !! directComparison = Some tup ->
  exists inter n,
    f_interpolation tup = Some inter /\ pylen (f_t tup) = Ok n
    /\ forall v, pylen (inter v) = pylen v.
Proof.
  intros Hs Htup.
  assert (Hcases : s = node_short \/ s = node_long).
  { unfold solves_adaptive in Hs. rewrite !elem_of_cons in Hs.
    destruct Hs as [?|[?|Hs]]; [by left|by right|inversion Hs]. }
  destruct Hcases as [-> | ->]; vm_compute in Htup; inversion Htup; subst tup;
    simpl; eexists _, _; (split; [reflexivity|]); (split; [reflexivity|]);
    intros v; apply constant_interpolant_length.
Qed.

Lemma directComparison_on_longest_basis_witness :
  index0 solves_adaptive = Ok node_short
  /\ directComparison ∈ features_of_class 1 node_short
  /\ exists d' i s_i tup_i n c,
    storeResults true solves_adaptive empty_data = (Ok tt, d')
    /\ solves_adaptive !! i = Some s_i /\ s_i !! directComparison = Some tup_i
    /\ t d' !! directComparison = Some (f_t tup_i)
    /\ pylen (f_t tup_i) = Ok n
    /\ (forall j s tup,
          solves_adaptive !! j = Some s -> s !! directComparison = Some tup ->
          exists m, pylen (f_t tup) = Ok m /\ m <= n /\ (j < i -> m < n))
    /\ U d' !! directComparison = Some c
    /\ length (items_of c) = length solves_adaptive
    /\ (forall j s tup inter,
          solves_adaptive !! j = Some s -> s !! directComparison = Some tup ->
          f_interpolation tup = Some inter ->
          items_of c !! j = Some (inter (f_t tup_i)))
    /\ (forall u, u ∈ items_of c -> pylen u = Ok n).
Proof.
  split; [reflexivity|].
  split; [vm_compute; right; left|].
  apply (directComparison_on_longest_basis solves_adaptive node_short empty_data).
  - reflexivity.
  - vm_compute; right; left.
  - apply solves_adaptive_complete.
  - apply solves_adaptive_directComparison.
Defined.

(** C3 as stated fails on a 2-D feature with another name: the adaptive
    run with the 2-D feature [image] raises nothing and stores it. *)
Lemma adaptive_2d_feature_counterexample :
  let d' := snd (storeResults true solves_image empty_data) in
  fst (storeResults true solves_image empty_data) = Ok tt
  /\ "image" ∈ features_2d d'
  /\ U d' !! "image"
     = Some (PyList [matrix 2 2 [1; 2; 3; 4]%Z; matrix 2 2 [1; 2; 3; 4]%Z]).
Proof.
  repeat split; try (vm_compute; reflexivity).
  vm_compute. left.
Qed.

Lemma solves_dc_2d_complete (s : solved Z) (f : string) :
  s ∈ solves_dc_2d -> f ∈ features_of_class 2 node_dc_2d -> is_Some (s !! f).
Proof.
  intros Hs Hf.
  assert (s = node_dc_2d) as ->.
  { unfold solves_dc_2d in Hs. rewrite !elem_of_cons in Hs.
    destruct Hs as [?|[?|Hs]]; [done|done|inversion Hs]. }
  apply elem_of_features_of_class in Hf as (tup & Htup & _). eauto.
Qed.

Lemma adaptive_2d_directComparison_raises_witness :
  index0 solves_dc_2d = Ok node_dc_2d
  /\ directComparison ∈ features_of_class 2 node_dc_2d
  /\ exists d',
    storeResults true solves_dc_2d empty_data = (Raise NotImplementedError, d')
    /\ forall f, f ∉ features_of_class 2 node_dc_2d ->
         U d' !! f = U empty_data !! f /\ t d' !! f = t empty_data !! f.
Proof.
  split; [reflexivity|].
  split; [vm_compute; left|].
  apply (adaptive_2d_directComparison_raises solves_dc_2d node_dc_2d empty_data).
  - reflexivity.
  - vm_compute; left.
  - apply solves_dc_2d_complete.
Defined.

(** C2, on the code.  [isAdaptiveError] runs before the collections of
    the run are stored, so it sees the store as it was.  On the cleared
    store the lookup of the feature fails with [KeyError], whether the
    shapes of the nodes differ or agree; on a store that holds an earlier
    collection of equal shapes the check passes, and the series of two
    and of three values are stored side by side, with no error; the
    array made at the end is the one of the 0-D feature. *)
Theorem shape_check_precedes_collection :
  fst (storeResults false solves_ragged empty_data) = Raise KeyError
  /\ fst (storeResults false solves_uniform empty_data) = Raise KeyError
  /\ fst (storeResults false solves_ragged stale_data) = Ok tt
  /\ U (snd (storeResults false solves_ragged stale_data)) !! directComparison
     = Some (PyList [vec [5; 6]%Z; vec [5; 6; 7]%Z])
  /\ U (snd (storeResults false solves_ragged stale_data)) !! "rate"
     = Some (NdArray [scalar 7%Z; scalar 8%Z])
  /\ shape_of (vec [5; 6]%Z) <> shape_of (vec [5; 6; 7]%Z).
Proof.
  repeat split; try (vm_compute; reflexivity). vm_compute. discriminate.
Qed.

End StoreExamples.

(** * Facts about the worker pool and [evaluateNodes] *)

Section PoolFacts.
Import Runmodel.
Context {num : Type} (worker : task num -> result (solved num)).
Implicit Types (tasks : list (task num)) (buf : slots num) (self : RunModel num).

Lemma complete_length tasks buf i :
  length (complete worker tasks buf i) = length buf.
Proof. unfold complete. destruct (tasks !! i); [apply length_insert|done]. Qed.


(** The slot of a task holds its result once a worker has finished it,
    whatever was finished before or after. *)
Lemma fold_complete_lookup tasks (l : list nat) buf (i : nat) :
  length buf = length tasks ->
  fold_left (complete worker tasks) l buf !! i
  = if decide (i ∈ l)
    then (fun tk => Some (worker tk)) <$> (tasks !! i)
    else buf !! i.
Proof.
  revert buf. induction l as [|x l IH]; intros buf Hlen; simpl.
  - done.
  - rewrite IH by (by rewrite complete_length).
    destruct (decide (i ∈ l)) as [Hin|Hnin].
    + rewrite decide_True; [done|by right].
    + unfold complete. destruct (decide (i = x)) as [->|Hne].
      * rewrite decide_True by left.
        destruct (tasks !! x) as [tk|] eqn:Htk; simpl.
        -- apply list_lookup_insert_eq. rewrite Hlen. eapply lookup_lt_Some, Htk.
        -- apply lookup_ge_None. rewrite Hlen. by apply lookup_ge_None.
      * rewrite decide_False by (rewrite elem_of_cons; tauto).
        destruct (tasks !! x); [|done]. by apply list_lookup_insert_ne.
Qed.






Lemma tasks_with_CPUs self (c : nat) nodes :
  evaluateNodeFunctionList (with_CPUs self c) nodes
  = evaluateNodeFunctionList self nodes.
Proof. done. Qed.


End PoolFacts.

(** * Claims about [evaluateNodes] and [run] *)

Section PoolClaims.
Import Runmodel.
Context {num : Type} (worker : task num -> result (solved num)).
Implicit Types (self : RunModel num) (nodes : list (list num)).




End PoolClaims.

Section PoolExamples.
Import Runmodel RunExamples.




End PoolExamples.

(** * The matcher and what it matches *)

Section Matcher.
Import Re.
Implicit Types (prev : option ascii) (w s rest : list ascii) (r : regex).

Lemma last_char_nil prev : last_char prev [] = prev.
Proof. done. Qed.

Lemma last_char_app prev w1 w2 :
  last_char prev (w1 ++ w2) = last_char (last_char prev w1) w2.
Proof.
  unfold last_char. rewrite last_app. by destruct (last w2).
Qed.

Lemma last_char_cons prev c w : last_char prev (c :: w) = last_char (Some c) w.
Proof. unfold last_char. rewrite last_cons. by destruct (last w). Qed.

Lemma last_char_singleton prev c : last_char prev [c] = Some c.
Proof. done. Qed.

(** ** The matcher finds only what the pattern matches *)

Section Sound.
Context {A : Type}.
Implicit Types (k : cont (A:=A)).

Lemma star_loop_sound r :
  sound_at (A:=A) r ->
  forall fuel prev s k x,
    star_loop (bt r) fuel prev s k = Some x ->
    exists w rest,
      s = w ++ rest /\ matches (Star r) prev w rest
      /\ k (last_char prev w) rest = Some x.
Proof.
  intros Hr. induction fuel as [|fuel IH]; intros prev s k x H; simpl in H.
  - exists [], s. repeat split; [constructor|done].
  - destruct (bt r prev s _) as [y|] eqn:Hb.
    + inversion H; subst y. apply Hr in Hb as (w1 & rest1 & -> & Hm & Hk).
      destruct (Nat.ltb_spec (length rest1) (length (w1 ++ rest1))) as [Hlt|];
        [|discriminate].
      apply IH in Hk as (w2 & rest & -> & Hm2 & Hk).
      exists (w1 ++ w2), rest. rewrite <- app_assoc, last_char_app.
      repeat split; [|done]. constructor; [|done|done].
      intros ->. simpl in Hlt. lia.
    + exists [], s. repeat split; [constructor|done].
Qed.

Lemma bt_sound r : sound_at (A:=A) r.
Proof.
  induction r as [|c|p|r1 IH1 r2 IH2|r1 IH1 r2 IH2|r1 IH1|r1 IH1|r1 IH1| | |];
    intros prev s k x H; simpl in H.
  - exists [], s. repeat split; [constructor|done].
  - destruct s as [|c' s]; [discriminate|].
    destruct (Ascii.eqb_spec c c') as [->|]; [|discriminate].
    exists [c'], s. repeat split; [constructor|done].
  - destruct s as [|c' s]; [discriminate|].
    destruct (p c') eqn:Hp; [|discriminate].
    exists [c'], s. repeat split; [by constructor|done].
  - apply IH1 in H as (w1 & rest1 & -> & Hm1 & H).
    apply IH2 in H as (w2 & rest & -> & Hm2 & H).
    exists (w1 ++ w2), rest. rewrite <- app_assoc, last_char_app.
    repeat split; [|done]. by constructor.
  - destruct (bt r1 prev s k) as [y|] eqn:Hb.
    + inversion H; subst y. apply IH1 in Hb as (w & rest & -> & Hm & Hk).
      exists w, rest. repeat split; [|done]. by apply m_alt_l.
    + apply IH2 in H as (w & rest & -> & Hm & Hk).
      exists w, rest. repeat split; [|done]. by apply m_alt_r.
  - destruct (bt r1 prev s k) as [y|] eqn:Hb.
    + inversion H; subst y. apply IH1 in Hb as (w & rest & -> & Hm & Hk).
      exists w, rest. repeat split; [|done]. by apply m_opt_some.
    + exists [], s. repeat split; [apply m_opt_none|done].
  - by apply (star_loop_sound r1 IH1) in H.
  - apply IH1 in H as (w1 & rest1 & -> & Hm1 & H).
    apply (star_loop_sound r1 IH1) in H as (w2 & rest & -> & Hm2 & H).
    exists (w1 ++ w2), rest. rewrite <- app_assoc, last_char_app.
    repeat split; [|done]. by constructor.
  - destruct prev; [discriminate|].
    exists [], s. repeat split; [constructor|done].
  - destruct (at_end s) eqn:He; [|discriminate].
    exists [], s. repeat split; [by constructor|done].
  - destruct (at_boundary prev s) eqn:He; [|discriminate].
    exists [], s. repeat split; [by constructor|done].
Qed.

(** ** The matcher finds a match whenever there is one *)

Lemma star_loop_complete r :
  complete_at (A:=A) r ->
  forall prev w rest,
    matches (Star r) prev w rest ->
    forall fuel k,
      length (w ++ rest) <= fuel ->
      k (last_char prev w) rest <> None ->
      star_loop (bt r) fuel prev (w ++ rest) k <> None.
Proof.
  intros Hr prev w rest Hm.
  remember (Star r) as sr eqn:Hsr.
  induction Hm as [| | | | | | | |r' prev rest|r' prev w1 w2 rest Hne Hm1 _ Hm2 IH2| | | |];
    try discriminate; inversion Hsr; subst r'; intros fuel k Hfuel Hk.
  - destruct fuel as [|fuel]; simpl; [done|].
    by destruct (bt r prev rest _).
  - destruct fuel as [|fuel].
    { destruct w1; [done|]. simpl in Hfuel. lia. }
    rewrite <- app_assoc in *. simpl.
    match goal with
    | |- match ?b with _ => _ end <> None => destruct b eqn:Hb; [done|]
    end.
    exfalso. revert Hb. apply Hr; [done|].
    destruct (Nat.ltb_spec (length (w2 ++ rest)) (length (w1 ++ w2 ++ rest)))
      as [Hlt|Hge].
    + apply IH2; [done| |].
      * rewrite length_app in Hfuel.
        destruct w1; [done|]. simpl in Hfuel. lia.
      * by rewrite <- last_char_app.
    + rewrite length_app in Hge. destruct w1; [done|]. simpl in Hge. lia.
Qed.

Lemma bt_complete r : complete_at (A:=A) r.
Proof.
  induction r as [|c|p|r1 IH1 r2 IH2|r1 IH1 r2 IH2|r1 IH1|r1 IH1|r1 IH1| | |];
    intros prev w rest k Hm Hk; inversion Hm; subst; simpl in *.
  - done.
  - by rewrite Ascii.eqb_refl.
  - by rewrite H0.
  - rewrite <- app_assoc. apply IH1; [done|].
    apply IH2; [done|]. by rewrite <- last_char_app.
  - destruct (bt r1 prev (w ++ rest) k) eqn:Hb; [done|].
    exfalso. revert Hb. by apply IH1.
  - destruct (bt r1 prev (w ++ rest) k) eqn:Hb; [done|]. by apply IH2.
  - destruct (bt r1 prev (w ++ rest) k) eqn:Hb; [done|].
    exfalso. revert Hb. by apply IH1.
  - by destruct (bt r1 prev rest k).
  - apply (star_loop_complete r1 IH1 prev [] rest); [constructor|simpl; lia|done].
  - apply (star_loop_complete r1 IH1 prev (w1 ++ w2) rest); [done|lia|done].
  - rewrite <- app_assoc. apply IH1; [done|].
    apply (star_loop_complete r1 IH1); [done|lia|]. by rewrite <- last_char_app.
  - done.
  - by rewrite H.
  - by rewrite H.
Qed.

End Sound.

(** ** Patterns that do not look at their context *)

Lemma matches_context_free r prev w rest :
  matches r prev w rest ->
  context_free r = true ->
  forall prev' rest', matches r prev' w rest'.
Proof.
  induction 1 as [| | |r1 r2 prev w1 w2 rest _ IH1 _ IH2
                  |r1 r2 prev w rest _ IH|r1 r2 prev w rest _ IH
                  |r1 prev w rest _ IH| |
                  |r1 prev w1 w2 rest Hne _ IH1 _ IH2
                  |r1 prev w1 w2 rest _ IH1 _ IH2| | |];
    simpl; intros Hcf prev' rest'; try discriminate.
  - constructor.
  - constructor.
  - by constructor.
  - apply andb_true_iff in Hcf as [H1 H2]. constructor; [by apply IH1|by apply IH2].
  - apply andb_true_iff in Hcf as [H1 H2]. apply m_alt_l. by apply IH.
  - apply andb_true_iff in Hcf as [H1 H2]. apply m_alt_r. by apply IH.
  - apply m_opt_some. by apply IH.
  - apply m_opt_none.
  - apply m_star_nil.
  - apply m_star_cons; [done|by apply IH1|by apply IH2].
  - apply m_plus; [by apply IH1|by apply IH2].
Qed.

(** ** What the pieces of the pattern match *)

Lemma matches_lits name prev w rest :
  matches (lits name) prev w rest -> w = name.
Proof.
  revert prev w. induction name as [|c name IH]; intros prev w H; simpl in H.
  - by inversion H.
  - inversion H as [| | |? ? ? w1 w2 ? H1 H2| | | | | | | | | |]; subst.
    inversion H1; subst. apply IH in H2. by subst.
Qed.

Lemma lits_matches name prev rest : matches (lits name) prev name rest.
Proof.
  revert prev. induction name as [|c name IH]; intros prev; simpl.
  - constructor.
  - change (c :: name) with ([c] ++ name). constructor; [constructor|apply IH].
Qed.

Lemma matches_class p prev w rest :
  matches (Class p) prev w rest -> exists c, w = [c] /\ p c = true.
Proof. inversion 1; subst. eauto. Qed.

Lemma matches_star_class p prev w rest :
  matches (Star (Class p)) prev w rest -> all_of p w.
Proof.
  remember (Star (Class p)) as r eqn:Hr. intros H.
  induction H as [| | | | | | | | |r1 prev w1 w2 rest Hne H1 _ H2 IH2| | | |];
    try discriminate; inversion Hr; subst.
  - constructor.
  - apply matches_class in H1 as (c & -> & Hc). constructor; [done|by apply IH2].
Qed.

Lemma star_class_matches p prev w rest :
  all_of p w -> matches (Star (Class p)) prev w rest.
Proof.
  revert prev. induction w as [|c w IH]; intros prev H.
  - constructor.
  - inversion H; subst. change (c :: w) with ([c] ++ w).
    apply m_star_cons; [done|by constructor|by apply IH].
Qed.

Lemma matches_plus_class p prev w rest :
  matches (Plus (Class p)) prev w rest -> all_of p w /\ w <> [].
Proof.
  inversion 1 as [| | | | | | | | | |? ? w1 w2 ? H1 H2| | |]; subst.
  apply matches_class in H1 as (c & -> & Hc).
  apply matches_star_class in H2. split; [by constructor|done].
Qed.

Lemma matches_opt_class p prev w rest :
  matches (Opt (Class p)) prev w rest ->
  w = [] \/ exists c, w = [c] /\ p c = true.
Proof.
  inversion 1 as [| | | | | |? ? ? ? H1| | | | | | |]; subst; [|by left].
  right. by apply matches_class in H1.
Qed.

Lemma at_boundary_app prev pre rest :
  pre <> [] -> at_boundary prev (pre ++ rest) = at_boundary prev pre.
Proof. by destruct pre. Qed.

Lemma matches_head name prev pre rest :
  matches (re_head name) prev pre rest -> head_text name prev pre.
Proof.
  unfold re_head. intros H.
  inversion H as [| | |? ? ? w0 w1 ? H0 H1| | | | | | | | | |]; subst. clear H.
  inversion H1 as [| | |? ? ? wn w2 ? Hn H2| | | | | | | | | |]; subst. clear H1.
  apply matches_lits in Hn. subst wn.
  inversion H2 as [| | |? ? ? ws1 w3 ? Hs1 H3| | | | | | | | | |]; subst. clear H2.
  apply matches_star_class in Hs1.
  inversion H3 as [| | |? ? ? we ws2 ? He Hs2| | | | | | | | | |]; subst. clear H3.
  inversion He; subst. clear He.
  apply matches_star_class in Hs2.
  assert (Hw0 : w0 = [] /\ (prev = None
                \/ at_boundary prev (name ++ ws1 ++ "="%char :: ws2) = true)).
  { inversion H0 as [| | | |? ? ? ? ? Hb|? ? ? ? ? Hb| | | | | | | |]; subst;
      inversion Hb as [| | | | | | | | | | |? |? |? ? Hat]; subst;
      split; try done; [by left|].
    right.
    rewrite <- (at_boundary_app prev (name ++ ws1 ++ "="%char :: ws2) rest)
      by (destruct name, ws1; done).
    simpl in Hat. rewrite <- ?app_assoc in *. simpl in *. exact Hat. }
  destruct Hw0 as [-> Hstart]. simpl.
  exists ws1, ws2. by repeat split.
Qed.

Lemma head_matches name prev pre rest :
  head_text name prev pre -> matches (re_head name) prev pre rest.
Proof.
  intros (ws1 & ws2 & -> & Hs1 & Hs2 & Hstart). unfold re_head.
  change (name ++ ws1 ++ "="%char :: ws2)
    with ([] ++ name ++ ws1 ++ ["="%char] ++ ws2).
  constructor.
  - destruct Hstart as [->|Hb]; [apply m_alt_l; constructor|].
    apply m_alt_r. constructor.
    rewrite <- (at_boundary_app prev (name ++ ws1 ++ "="%char :: ws2) rest) in Hb
      by (destruct name, ws1; done).
    simpl. rewrite <- ?app_assoc in *. simpl in *. exact Hb.
  - apply m_cat; [apply lits_matches|].
    apply m_cat; [by apply star_class_matches|].
    apply (m_cat _ _ _ ["="%char] ws2); [constructor|by apply star_class_matches].
Qed.

Lemma matches_tail prev w rest :
  matches re_tail prev w rest -> w = [] /\ tail_ok prev rest.
Proof.
  unfold re_tail, tail_ok.
  inversion 1 as [| | | |? ? ? ? ? Hb|? ? ? ? ? Hb| | | | | | | |]; subst;
    inversion Hb; subst; auto.
Qed.

Lemma tail_matches prev rest : tail_ok prev rest -> matches re_tail prev [] rest.
Proof.
  intros [H|H]; [apply m_alt_l|apply m_alt_r]; by constructor.
Qed.

(** ** Character classes *)

Lemma numchar_not_space c : is_numchar c = true -> is_space c = false.
Proof. destruct c as [[] [] [] [] [] [] [] []]; vm_compute; congruence. Qed.

Lemma numchar_not_equals c : is_numchar c = true -> c <> "="%char.
Proof. destruct c as [[] [] [] [] [] [] [] []]; vm_compute; congruence. Qed.

Lemma space_not_word c : is_space c = true -> is_word c = false.
Proof. destruct c as [[] [] [] [] [] [] [] []]; vm_compute; congruence. Qed.

Lemma space_not_equals c : is_space c = true -> c <> "="%char.
Proof. destruct c as [[] [] [] [] [] [] [] []]; vm_compute; congruence. Qed.

Lemma word_not_equals c : is_word c = true -> c <> "="%char.
Proof. destruct c as [[] [] [] [] [] [] [] []]; vm_compute; congruence. Qed.

Lemma digit_numchar c : is_digit c = true -> is_numchar c = true.
Proof. unfold is_numchar. by intros ->. Qed.

Lemma sign_numchar c : is_sign c = true -> is_numchar c = true.
Proof. unfold is_numchar. intros ->. by rewrite orb_true_r. Qed.

Lemma dot_numchar c : is_dot c = true -> is_numchar c = true.
Proof. unfold is_numchar. intros ->. by rewrite !orb_true_r. Qed.

Lemma e_numchar c : is_e c = true -> is_numchar c = true.
Proof. unfold is_numchar. intros ->. by rewrite !orb_true_r. Qed.

Lemma digit_word c : is_digit c = true -> is_word c = true.
Proof. unfold is_word. by intros ->. Qed.

Lemma all_of_app p w1 w2 : all_of p (w1 ++ w2) <-> all_of p w1 /\ all_of p w2.
Proof. apply Forall_app. Qed.

Lemma all_of_impl (p q : ascii -> bool) w :
  (forall c, p c = true -> q c = true) -> all_of p w -> all_of q w.
Proof. intros Hpq H. eapply Forall_impl; [exact H|exact Hpq]. Qed.

(** ** The text of a number *)

Lemma sign_text_numchar sg : sign_text sg -> all_of is_numchar sg.
Proof.
  intros [->|(c & -> & Hc)]; [constructor|].
  constructor; [by apply sign_numchar|constructor].
Qed.

Lemma dot_text_numchar dt : dot_text dt -> all_of is_numchar dt.
Proof.
  intros [->|(c & -> & Hc)]; [constructor|].
  constructor; [by apply dot_numchar|constructor].
Qed.

Lemma exponent_text_numchar e : exponent_text e -> all_of is_numchar e.
Proof.
  intros (c & sg & ds & -> & Hc & Hsg & Hds & _).
  constructor; [by apply e_numchar|]. apply all_of_app. split.
  - by apply sign_text_numchar.
  - eapply all_of_impl; [apply digit_numchar|done].
Qed.

Lemma number_text_numchar num : number_text num -> all_of is_numchar num.
Proof.
  intros (m & es & -> & (sg & ds1 & dt & ds2 & -> & Hsg & H1 & Hdt & H2 & _) & Hes).
  rewrite !all_of_app. repeat split.
  - by apply sign_text_numchar.
  - eapply all_of_impl; [apply digit_numchar|done].
  - by apply dot_text_numchar.
  - eapply all_of_impl; [apply digit_numchar|done].
  - induction Hes as [|e es He _ IH]; simpl; [constructor|].
    apply all_of_app. split; [by apply exponent_text_numchar|done].
Qed.

Lemma number_text_nonempty num : number_text num -> num <> [].
Proof.
  intros (m & es & -> & (sg & ds1 & dt & ds2 & -> & _ & _ & _ & _ & Hne) & _) H.
  apply app_eq_nil in H as [H _].
  apply app_eq_nil in H as [_ H]. apply app_eq_nil in H as [H1 H].
  apply app_eq_nil in H as [_ H2]. destruct Hne; done.
Qed.

Lemma matches_opt_sign prev w rest :
  matches (Opt (Class is_sign)) prev w rest -> sign_text w.
Proof. intros H. apply matches_opt_class in H. exact H. Qed.

Lemma matches_opt_dot prev w rest :
  matches (Opt (Class is_dot)) prev w rest -> dot_text w.
Proof. intros H. apply matches_opt_class in H. exact H. Qed.

Lemma matches_mantissa prev m rest :
  matches re_mantissa prev m rest -> mantissa_text m.
Proof.
  unfold re_mantissa. intros H.
  inversion H as [| | | |? ? ? ? ? Ha|? ? ? ? ? Ha| | | | | | | |]; subst; clear H.
  - inversion Ha as [| | |? ? ? sg w1 ? Hsg H1| | | | | | | | | |]; subst. clear Ha.
    inversion H1 as [| | |? ? ? ds1 w2 ? Hd1 H2| | | | | | | | | |]; subst. clear H1.
    inversion H2 as [| | |? ? ? dt ds2 ? Hdt Hd2| | | | | | | | | |]; subst. clear H2.
    apply matches_opt_sign in Hsg. apply matches_plus_class in Hd1 as [Hd1 Hne].
    apply matches_opt_dot in Hdt. apply matches_star_class in Hd2.
    exists sg, ds1, dt, ds2. repeat split; try done. by left.
  - inversion Ha as [| | |? ? ? sg w1 ? Hsg H1| | | | | | | | | |]; subst. clear Ha.
    inversion H1 as [| | |? ? ? ds1 w2 ? Hd1 H2| | | | | | | | | |]; subst. clear H1.
    inversion H2 as [| | |? ? ? dt ds2 ? Hdt Hd2| | | | | | | | | |]; subst. clear H2.
    apply matches_opt_sign in Hsg. apply matches_star_class in Hd1.
    apply matches_opt_dot in Hdt. apply matches_plus_class in Hd2 as [Hd2 Hne].
    exists sg, ds1, dt, ds2. repeat split; try done. by right.
Qed.

Lemma matches_exponent prev e rest :
  matches re_exponent prev e rest -> exponent_text e.
Proof.
  unfold re_exponent. intros H.
  inversion H as [| | |? ? ? we w1 ? He H1| | | | | | | | | |]; subst. clear H.
  inversion H1 as [| | |? ? ? sg ds ? Hsg Hds| | | | | | | | | |]; subst. clear H1.
  apply matches_class in He as (c & -> & Hc).
  apply matches_opt_sign in Hsg. apply matches_plus_class in Hds as [Hds Hne].
  exists c, sg, ds. by repeat split.
Qed.

Lemma matches_star_exponent prev w rest :
  matches (Star re_exponent) prev w rest ->
  exists es, w = concat es /\ Forall exponent_text es.
Proof.
  remember (Star re_exponent) as r eqn:Hr. intros H.
  induction H as [| | | | | | | | |r1 prev w1 w2 rest Hne H1 _ H2 IH2| | | |];
    try discriminate; inversion Hr; subst.
  - exists []. split; [done|constructor].
  - destruct (IH2 eq_refl) as (es & -> & Hes).
    apply matches_exponent in H1.
    exists (w1 :: es). split; [done|by constructor].
Qed.

Lemma matches_number prev num rest :
  matches re_number prev num rest -> number_text num.
Proof.
  unfold re_number. intros H.
  inversion H as [| | |? ? ? m w1 ? Hm He| | | | | | | | | |]; subst. clear H.
  apply matches_mantissa in Hm.
  apply matches_star_exponent in He as (es & -> & Hes).
  by exists m, es.
Qed.

(** The pattern matches every text of a number. *)
Lemma plus_class_matches p prev w rest :
  all_of p w -> w <> [] -> matches (Plus (Class p)) prev w rest.
Proof.
  intros H Hne. destruct w as [|c w]; [done|]. inversion H; subst.
  change (c :: w) with ([c] ++ w).
  apply m_plus; [by constructor|by apply star_class_matches].
Qed.

Lemma opt_class_matches p prev w rest :
  (w = [] \/ exists c, w = [c] /\ p c = true) ->
  matches (Opt (Class p)) prev w rest.
Proof.
  intros [->|(c & -> & Hc)]; [apply m_opt_none|].
  apply m_opt_some. by constructor.
Qed.

Lemma mantissa_matches prev m rest :
  mantissa_text m -> matches re_mantissa prev m rest.
Proof.
  intros (sg & ds1 & dt & ds2 & -> & Hsg & H1 & Hdt & H2 & [Hne|Hne]);
    unfold re_mantissa; [apply m_alt_l|apply m_alt_r].
  - apply m_cat; [by apply opt_class_matches|].
    apply m_cat; [by apply plus_class_matches|].
    apply m_cat; [by apply opt_class_matches|by apply star_class_matches].
  - apply m_cat; [by apply opt_class_matches|].
    apply m_cat; [by apply star_class_matches|].
    apply m_cat; [by apply opt_class_matches|by apply plus_class_matches].
Qed.

Lemma exponent_matches prev e rest :
  exponent_text e -> matches re_exponent prev e rest.
Proof.
  intros (c & sg & ds & -> & Hc & Hsg & Hds & Hne). unfold re_exponent.
  change (c :: sg ++ ds) with ([c] ++ sg ++ ds).
  apply m_cat; [by constructor|].
  apply m_cat; [by apply opt_class_matches|by apply plus_class_matches].
Qed.

Lemma star_exponent_matches prev es rest :
  Forall exponent_text es -> matches (Star re_exponent) prev (concat es) rest.
Proof.
  intros Hes. revert prev. induction Hes as [|e es He _ IH]; intros prev; simpl.
  - constructor.
  - apply m_star_cons; [|by apply exponent_matches|apply IH].
    destruct He as (c & sg & ds & -> & _). done.
Qed.

Lemma number_matches prev num rest :
  number_text num -> matches re_number prev num rest.
Proof.
  intros (m & es & -> & Hm & Hes). unfold re_number.
  apply m_cat; [by apply mantissa_matches|by apply star_exponent_matches].
Qed.

(** ** A match of the whole pattern *)

Lemma match_here_sound name prev s s1 p2 s2 :
  match_here name prev s = Some (s1, p2, s2) ->
  exists pre num,
    s = pre ++ num ++ s2 /\ s1 = num ++ s2
    /\ p2 = last_char (last_char prev pre) num
    /\ matches (re_head name) prev pre (num ++ s2)
    /\ matches re_number (last_char prev pre) num s2
    /\ tail_ok p2 s2.
Proof.
  unfold match_here. intros H.
  apply bt_sound in H as (pre & rest1 & -> & Hh & H).
  apply bt_sound in H as (w & rest2 & -> & Hnt & H).
  inversion H; subst s1 p2 s2. clear H.
  inversion Hnt as [| | |? ? ? num wt ? Hn Ht| | | | | | | | | |]; subst.
  apply matches_tail in Ht as [-> Ht]. rewrite app_nil_r in *.
  simpl in Hn.
  exists pre, num. by repeat split.
Qed.

Lemma match_here_complete name prev pre num s2 :
  matches (re_head name) prev pre (num ++ s2) ->
  matches re_number (last_char prev pre) num s2 ->
  tail_ok (last_char (last_char prev pre) num) s2 ->
  match_here name prev (pre ++ num ++ s2) <> None.
Proof.
  intros Hh Hn Ht. unfold match_here.
  apply bt_complete; [done|].
  replace (num ++ s2) with ((num ++ []) ++ s2) by (by rewrite app_nil_r).
  apply bt_complete; [|done].
  constructor.
  - simpl. exact Hn.
  - by apply tail_matches.
Qed.

(** The matcher finds a match wherever an occurrence starts. *)
Lemma match_here_occurrence name prev s :
  occurrence name prev s -> match_here name prev s <> None.
Proof.
  intros (pre & num & rest & -> & Hh & Hn & Ht).
  apply match_here_complete; [by apply head_matches|by apply number_matches|done].
Qed.

Lemma match_here_shorter name prev s s1 p2 s2 :
  match_here name prev s = Some (s1, p2, s2) ->
  length s2 < length s /\ length s1 <= length s
  /\ exists pre, s = pre ++ s1 /\ take (length s - length s1) s = pre.
Proof.
  intros H. apply match_here_sound in H
    as (pre & num & -> & -> & _ & _ & Hn & _).
  apply matches_number, number_text_nonempty in Hn.
  rewrite !length_app. repeat split; [destruct num; [done|simpl; lia]|lia|].
  exists pre. split; [done|].
  replace (length pre + (length num + length s2) - (length num + length s2))
    with (length pre) by lia.
  by rewrite take_app_length.
Qed.

Lemma match_here_nil name prev : match_here name prev [] = None.
Proof.
  destruct (match_here name prev []) as [[[s1 p2] s2]|] eqn:H; [|done].
  apply match_here_shorter in H as [H _]. simpl in H. lia.
Qed.

End Matcher.

(** * The substitution of one line *)

Section Substitution.
Import Re.
Context (name repl : list ascii).
Implicit Types (prev : option ascii) (s rest : list ascii).

Lemma sub_from_fuel (fuel1 fuel2 : nat) prev s :
  length s < fuel1 -> length s < fuel2 ->
  sub_from fuel1 name repl prev s = sub_from fuel2 name repl prev s.
Proof.
  revert fuel2 prev s. induction fuel1 as [|fuel1 IH]; intros fuel2 prev s H1 H2;
    [lia|].
  destruct fuel2 as [|fuel2]; [lia|]. simpl.
  destruct (match_here name prev s) as [[[s1 p2] s2]|] eqn:Hm.
  - apply match_here_shorter in Hm as (Hlt & _).
    rewrite (proj2 (Nat.ltb_lt _ _) Hlt). f_equal. f_equal. apply IH; lia.
  - destruct s as [|c s]; [done|]. f_equal. simpl in *. apply IH; lia.
Qed.

Lemma sub_at_nil prev : sub_at name repl prev [] = [].
Proof. unfold sub_at. simpl. by rewrite match_here_nil. Qed.

Lemma sub_at_copy prev c s :
  match_here name prev (c :: s) = None ->
  sub_at name repl prev (c :: s) = c :: sub_at name repl (Some c) s.
Proof.
  intros Hm. unfold sub_at. simpl sub_from at 1. by rewrite Hm.
Qed.

Lemma sub_at_match prev pre num s2 p2 :
  match_here name prev (pre ++ num ++ s2) = Some (num ++ s2, p2, s2) ->
  sub_at name repl prev (pre ++ num ++ s2) = pre ++ repl ++ sub_at name repl p2 s2.
Proof.
  intros Hm. unfold sub_at. simpl sub_from at 1. rewrite Hm.
  destruct (match_here_shorter _ _ _ _ _ _ Hm) as (Hlt & _ & pre' & Hpre & Htake).
  apply app_inv_tail in Hpre. subst pre'.
  rewrite Htake, (proj2 (Nat.ltb_lt _ _) Hlt). f_equal. f_equal.
  apply sub_from_fuel; lia.
Qed.

(** A scan step, in one statement. *)
Lemma sub_at_cases prev s :
  (s = [] /\ sub_at name repl prev s = [])
  \/ (exists c s', s = c :: s' /\ match_here name prev s = None
                   /\ sub_at name repl prev s = c :: sub_at name repl (Some c) s')
  \/ (exists pre num s2,
        s = pre ++ num ++ s2
        /\ match_here name prev s
           = Some (num ++ s2, last_char (last_char prev pre) num, s2)
        /\ matches (re_head name) prev pre (num ++ s2)
        /\ matches re_number (last_char prev pre) num s2
        /\ tail_ok (last_char (last_char prev pre) num) s2
        /\ sub_at name repl prev s
           = pre ++ repl
             ++ sub_at name repl (last_char (last_char prev pre) num) s2).
Proof.
  destruct (match_here name prev s) as [[[s1 p2] s2]|] eqn:Hm.
  - right. right.
    destruct (match_here_sound _ _ _ _ _ _ Hm)
      as (pre & num & -> & -> & -> & Hh & Hn & Ht).
    exists pre, num, s2. split; [done|]. split; [done|]. split; [done|].
    split; [done|]. split; [done|]. by apply sub_at_match.
  - destruct s as [|c s]; [left; split; [done|apply sub_at_nil]|].
    right. left. exists c, s. split; [done|]. split; [done|]. by apply sub_at_copy.
Qed.

(** The scan changes the numbers of occurrences of [name = number], and
    nothing else. *)
Lemma sub_at_rewrites prev s : rewrites name repl prev s (sub_at name repl prev s).
Proof.
  remember (length s) as n eqn:Hn. revert prev s Hn.
  induction n as [n IH] using lt_wf_ind. intros prev s ->.
  destruct (sub_at_cases prev s)
    as [[-> ->]|[(c & s' & -> & _ & ->)
                |(pre & num & s2 & -> & _ & Hh & Hnum & Ht & ->)]].
  - constructor.
  - constructor. eapply IH; [|reflexivity]. simpl. lia.
  - apply matches_head in Hh. pose proof (matches_number _ _ _ Hnum) as Hnt.
    constructor; try done.
    eapply IH; [|reflexivity]. rewrite !length_app.
    apply number_text_nonempty in Hnt. destruct num; [done|simpl; lia].
Qed.

(** The scan replaces the number of an occurrence wherever one starts:
    it copies a character only where none does. *)
Lemma sub_at_replaces prev s : replaces name repl prev s (sub_at name repl prev s).
Proof.
  remember (length s) as n eqn:Hn. revert prev s Hn.
  induction n as [n IH] using lt_wf_ind. intros prev s ->.
  destruct (sub_at_cases prev s)
    as [[-> ->]|[(c & s' & -> & Hm & ->)
                |(pre & num & s2 & -> & _ & Hh & Hnum & Ht & ->)]].
  - constructor.
  - apply rp_copy.
    + intros Hocc. by apply match_here_occurrence in Hocc.
    + eapply IH; [|reflexivity]. simpl. lia.
  - apply matches_head in Hh. pose proof (matches_number _ _ _ Hnum) as Hnt.
    apply rp_number; try done.
    eapply IH; [|reflexivity]. rewrite !length_app.
    apply number_text_nonempty in Hnt. destruct num; [done|simpl; lia].
Qed.

(** What [replaces] says, [rewrites] says too. *)
Lemma replaces_rewrites prev s s' :
  replaces name repl prev s s' -> rewrites name repl prev s s'.
Proof.
  induction 1 as [|prev c s s' _ _ IH|prev pre num s s' Hh Hn Ht _ IH].
  - constructor.
  - by constructor.
  - by constructor.
Qed.

Lemma delimited_from_fuel (fuel1 fuel2 : nat) prev s :
  length s < fuel1 -> length s < fuel2 ->
  delimited_from fuel1 name prev s = delimited_from fuel2 name prev s.
Proof.
  revert fuel2 prev s. induction fuel1 as [|fuel1 IH]; intros fuel2 prev s H1 H2;
    [lia|].
  destruct fuel2 as [|fuel2]; [lia|]. simpl.
  destruct (match_here name prev s) as [[[s1 p2] s2]|] eqn:Hm.
  - apply match_here_shorter in Hm as (Hlt & _).
    rewrite (proj2 (Nat.ltb_lt _ _) Hlt). f_equal. apply IH; lia.
  - destruct s as [|c s]; [done|]. simpl in *. apply IH; lia.
Qed.

Lemma delimited_at_copy prev c s :
  match_here name prev (c :: s) = None ->
  delimited_at name prev (c :: s) = delimited_at name (Some c) s.
Proof.
  intros Hm. unfold delimited_at. simpl delimited_from at 1. by rewrite Hm.
Qed.

Lemma delimited_at_match prev s s1 p2 s2 :
  match_here name prev s = Some (s1, p2, s2) ->
  delimited_at name prev s = delimiter s2 && delimited_at name p2 s2.
Proof.
  intros Hm. unfold delimited_at. simpl delimited_from at 1. rewrite Hm.
  destruct (match_here_shorter _ _ _ _ _ _ Hm) as (Hlt & _).
  rewrite (proj2 (Nat.ltb_lt _ _) Hlt). f_equal.
  apply delimited_from_fuel; lia.
Qed.

End Substitution.

(** * The first path the matcher tries *)

Section Greedy.
Import Re.
Context {A : Type}.
Implicit Types (prev : option ascii) (s t ws : list ascii) (k : cont (A:=A)).

Lemma bt_class_nohead (p : ascii -> bool) prev t k :
  nohead p t -> bt (Class p) prev t k = None.
Proof. destruct t as [|c t]; simpl; [done|]. by intros ->. Qed.

Lemma bt_class_cons (p : ascii -> bool) prev c t k :
  p c = true -> bt (Class p) prev (c :: t) k = k (Some c) t.
Proof. simpl. by intros ->. Qed.

Lemma bt_lits name prev t k :
  bt (lits name) prev (name ++ t) k = k (last_char prev name) t.
Proof.
  revert prev. induction name as [|c name IH]; intros prev; simpl; [done|].
  rewrite Ascii.eqb_refl, IH. by rewrite last_char_cons.
Qed.

Lemma star_loop_S (body : option ascii -> list ascii -> cont (A:=A) -> option A)
    fuel prev s k :
  star_loop body (S fuel) prev s k
  = match body prev s
            (fun prev' s' =>
               if (length s' <? length s)%nat
               then star_loop body fuel prev' s' k
               else None) with
    | Some x => Some x
    | None => k prev s
    end.
Proof. reflexivity. Qed.

(** A greedy repetition of a class reads all the characters of the class
    first; if what follows succeeds there, that is the result. *)
Lemma star_class_greedy (p : ascii -> bool) ws t fuel prev k x :
  all_of p ws -> nohead p t -> length ws <= fuel ->
  k (last_char prev ws) t = Some x ->
  star_loop (bt (Class p)) fuel prev (ws ++ t) k = Some x.
Proof.
  revert fuel prev. induction ws as [|c ws IH]; intros fuel prev Hws Ht Hfuel Hk.
  - change ([] ++ t) with t. change (last_char prev []) with prev in Hk.
    destruct fuel as [|fuel]; [done|].
    by rewrite star_loop_S, bt_class_nohead.
  - inversion Hws as [|? ? Hc Hws']; subst.
    destruct fuel as [|fuel]; [simpl in Hfuel; lia|].
    change ((c :: ws) ++ t) with (c :: ws ++ t).
    rewrite star_loop_S, bt_class_cons by done.
    rewrite (proj2 (Nat.ltb_lt (length (ws ++ t)) (length (c :: ws ++ t))))
      by (simpl; lia).
    rewrite (IH fuel (Some c)); [done|done|done|simpl in Hfuel; lia|].
    by rewrite last_char_cons in Hk.
Qed.

Lemma bt_star_class (p : ascii -> bool) ws t prev k x :
  all_of p ws -> nohead p t ->
  k (last_char prev ws) t = Some x ->
  bt (Star (Class p)) prev (ws ++ t) k = Some x.
Proof.
  intros Hws Ht Hk. simpl. apply star_class_greedy; try done.
  rewrite length_app. lia.
Qed.

Lemma bt_plus_class (p : ascii -> bool) ws t prev k x :
  all_of p ws -> ws <> [] -> nohead p t ->
  k (last_char prev ws) t = Some x ->
  bt (Plus (Class p)) prev (ws ++ t) k = Some x.
Proof.
  intros Hws Hne Ht Hk. destruct ws as [|c ws]; [done|].
  inversion Hws as [|? ? Hc Hws']; subst.
  change (bt (Plus (Class p)) prev ((c :: ws) ++ t) k)
    with (bt (Class p) prev (c :: ws ++ t)
             (fun prev' s' => star_loop (bt (Class p)) (length s') prev' s' k)).
  rewrite bt_class_cons by done.
  apply star_class_greedy; try done.
  - rewrite length_app. lia.
  - by rewrite last_char_cons in Hk.
Qed.

(** An optional character of a class: taken when it is there. *)
Lemma bt_opt_class (p : ascii -> bool) og t prev k x :
  (og = [] /\ nohead p t) \/ (exists c, og = [c] /\ p c = true) ->
  k (last_char prev og) t = Some x ->
  bt (Opt (Class p)) prev (og ++ t) k = Some x.
Proof.
  intros [[-> Ht]|(c & -> & Hc)] Hk.
  - change (bt (Opt (Class p)) prev ([] ++ t) k)
      with (match bt (Class p) prev t k with Some y => Some y | None => k prev t end).
    by rewrite bt_class_nohead.
  - change (bt (Opt (Class p)) prev ([c] ++ t) k)
      with (match bt (Class p) prev (c :: t) k with
            | Some y => Some y
            | None => k prev (c :: t)
            end).
    rewrite bt_class_cons by done.
    change (last_char prev [c]) with (Some c) in Hk. by rewrite Hk.
Qed.

Lemma last_char_digits prev ds :
  all_of is_digit ds -> ds <> [] ->
  exists d, last_char prev ds = Some d /\ is_digit d = true.
Proof.
  intros Hds Hne. unfold last_char.
  destruct (last ds) as [d|] eqn:Hl; [|by apply last_None in Hl].
  exists d. split; [done|].
  apply last_Some in Hl as [ds' ->]. apply Forall_app in Hds as [_ Hd].
  by inversion Hd.
Qed.

Lemma nohead_app_l (p : ascii -> bool) c ds t :
  p c = false -> nohead p ((c :: ds) ++ t).
Proof. done. Qed.

Lemma digit_not_sign c : is_digit c = true -> is_sign c = false.
Proof. destruct c as [[] [] [] [] [] [] [] []]; vm_compute; congruence. Qed.

Lemma digit_not_space c : is_digit c = true -> is_space c = false.
Proof. destruct c as [[] [] [] [] [] [] [] []]; vm_compute; congruence. Qed.

Lemma sign_not_space c : is_sign c = true -> is_space c = false.
Proof. destruct c as [[] [] [] [] [] [] [] []]; vm_compute; congruence. Qed.

Lemma sign_not_digit c : is_sign c = true -> is_digit c = false.
Proof. destruct c as [[] [] [] [] [] [] [] []]; vm_compute; congruence. Qed.

Lemma dot_not_digit c : is_dot c = true -> is_digit c = false.
Proof. destruct c as [[] [] [] [] [] [] [] []]; vm_compute; congruence. Qed.

Lemma e_not_digit c : is_e c = true -> is_digit c = false.
Proof. destruct c as [[] [] [] [] [] [] [] []]; vm_compute; congruence. Qed.

Lemma e_not_dot c : is_e c = true -> is_dot c = false.
Proof. destruct c as [[] [] [] [] [] [] [] []]; vm_compute; congruence. Qed.

Lemma e_word c : is_e c = true -> is_word c = true.
Proof. destruct c as [[] [] [] [] [] [] [] []]; vm_compute; congruence. Qed.

Lemma nonword_not_digit c : is_word c = false -> is_digit c = false.
Proof. destruct c as [[] [] [] [] [] [] [] []]; vm_compute; congruence. Qed.

Lemma nonword_not_e c : is_word c = false -> is_e c = false.
Proof. destruct c as [[] [] [] [] [] [] [] []]; vm_compute; congruence. Qed.

Lemma equals_not_space : is_space "="%char = false.
Proof. reflexivity. Qed.

(** What a delimiter does not start with. *)
Lemma delimiter_nohead t :
  delimiter t = true ->
  nohead is_digit t /\ nohead is_dot t /\ nohead is_e t /\ nohead is_word t.
Proof.
  destruct t as [|c t]; simpl; [done|].
  intros H. apply andb_true_iff in H as [Hw Hd].
  apply negb_true_iff in Hw, Hd.
  repeat split; [by apply nonword_not_digit|done|by apply nonword_not_e|done].
Qed.

(** One exponent, or none, then a delimiter. *)
Lemma star_exponent_nohead fuel prev t k x :
  nohead is_e t -> k prev t = Some x ->
  star_loop (bt re_exponent) fuel prev t k = Some x.
Proof.
  intros Ht Hk. destruct fuel as [|fuel]; [done|].
  rewrite star_loop_S. unfold re_exponent.
  change (bt (Cat (Class is_e) ?r) prev t ?kk)
    with (bt (Class is_e) prev t (fun prev' s' => bt r prev' s' kk)).
  by rewrite bt_class_nohead.
Qed.

Lemma star_exponent_greedy ex t prev k x :
  (ex = [] \/ exponent_text ex) -> delimiter t = true ->
  k (last_char prev ex) t = Some x ->
  bt (Star re_exponent) prev (ex ++ t) k = Some x.
Proof.
  intros Hex Ht Hk. destruct (delimiter_nohead _ Ht) as (Hnd & _ & Hne & _).
  destruct Hex as [->|(c & sg & ds & -> & Hc & Hsg & Hds & Hnds)].
  - change (bt (Star re_exponent) prev ([] ++ t) k)
      with (star_loop (bt re_exponent) (length t) prev t k).
    by apply star_exponent_nohead.
  - change (bt (Star re_exponent) prev ((c :: sg ++ ds) ++ t) k)
      with (star_loop (bt re_exponent) (S (length ((sg ++ ds) ++ t))) prev
                      (c :: (sg ++ ds) ++ t) k).
    rewrite star_loop_S. unfold re_exponent at 1.
    change (bt (Cat (Class is_e) ?r) prev ?s ?kk)
      with (bt (Class is_e) prev s (fun prev' s' => bt r prev' s' kk)).
    rewrite bt_class_cons by done.
    assert (Hin : forall k',
               k' (last_char (Some c) (sg ++ ds)) t = Some x ->
               bt (Cat (Opt (Class is_sign)) (Plus (Class is_digit))) (Some c)
                  (sg ++ ds ++ t) k' = Some x).
    { intros k' Hk'.
      change (bt (Cat ?r1 ?r2) (Some c) ?s k')
        with (bt r1 (Some c) s (fun prev' s' => bt r2 prev' s' k')).
      apply bt_opt_class.
      - destruct Hsg as [->|Hsg]; [left|by right]. split; [done|].
        destruct ds as [|d ds]; [done|]. inversion Hds; subst.
        simpl. by apply digit_not_sign.
      - apply bt_plus_class; try done. by rewrite <- last_char_app. }
    rewrite <- app_assoc. rewrite Hin; [done|].
    rewrite (proj2 (Nat.ltb_lt _ _)) by (simpl; rewrite !length_app; lia).
    apply star_exponent_nohead; [done|].
    by rewrite last_char_cons in Hk.
Qed.

Lemma bt_cat r1 r2 prev s k :
  bt (Cat r1 r2) prev s k = bt r1 prev s (fun prev' s' => bt r2 prev' s' k).
Proof. reflexivity. Qed.

Lemma bt_alt_l r1 r2 prev s k x :
  bt r1 prev s k = Some x -> bt (Alt r1 r2) prev s k = Some x.
Proof.
  intros H.
  change (bt (Alt r1 r2) prev s k)
    with (match bt r1 prev s k with
          | Some y => Some y
          | None => bt r2 prev s k
          end).
  by rewrite H.
Qed.

Lemma bt_tail prev s k x :
  tail_ok prev s -> k prev s = Some x -> bt re_tail prev s k = Some x.
Proof.
  intros Ht Hk. unfold re_tail. simpl.
  destruct (at_end s) eqn:He; [by rewrite Hk|].
  destruct Ht as [Ht|Ht]; [congruence|]. by rewrite Ht.
Qed.

Lemma bt_start prev s k x :
  prev = None \/ at_boundary prev s = true ->
  k prev s = Some x ->
  bt (Alt BeginText WordBoundary) prev s k = Some x.
Proof.
  intros Hs Hk. simpl. destruct prev as [c|].
  - destruct Hs as [Hs|Hs]; [discriminate|]. by rewrite Hs.
  - by rewrite Hk.
Qed.

Lemma plain_number_last prev v :
  plain_number v -> exists d, last_char prev v = Some d /\ is_digit d = true.
Proof.
  intros (sg & ds1 & frac & ex & -> & Hsg & Hd1 & Hn1 & Hfrac & Hex).
  rewrite !last_char_app.
  destruct Hex as [->|(c & sg2 & ds3 & -> & _ & _ & Hd3 & Hn3)].
  - rewrite last_char_nil.
    destruct Hfrac as [->|(c & ds2 & -> & _ & Hd2 & Hn2)].
    + rewrite last_char_nil. by apply last_char_digits.
    + rewrite last_char_cons. by apply last_char_digits.
  - rewrite last_char_cons, last_char_app. by apply last_char_digits.
Qed.

Lemma plain_number_head v :
  plain_number v -> nohead is_space v /\ v <> [].
Proof.
  intros (sg & ds1 & frac & ex & -> & Hsg & Hd1 & Hn1 & _).
  destruct ds1 as [|d ds1]; [done|]. inversion Hd1; subst.
  destruct Hsg as [->|(c & -> & Hc)]; simpl.
  - split; [by apply digit_not_space|done].
  - split; [by apply sign_not_space|done].
Qed.

(** A plain number followed by a delimiter is read whole by the first
    path. *)
Lemma bt_number_plain v t prev k x :
  plain_number v -> delimiter t = true ->
  k (last_char prev v) t = Some x ->
  bt re_number prev (v ++ t) k = Some x.
Proof.
  intros (sg & ds1 & frac & ex & -> & Hsg & Hd1 & Hn1 & Hfrac & Hex) Ht Hk.
  destruct (delimiter_nohead _ Ht) as (Htd & Htdot & Hte & _).
  assert (Hex_digit : nohead is_digit (ex ++ t)).
  { destruct Hex as [->|(c & sg2 & ds3 & -> & Hc & _)]; [done|].
    simpl. by apply e_not_digit. }
  assert (Hex_dot : nohead is_dot (ex ++ t)).
  { destruct Hex as [->|(c & sg2 & ds3 & -> & Hc & _)]; [done|].
    simpl. by apply e_not_dot. }
  unfold re_number. rewrite bt_cat. unfold re_mantissa. apply bt_alt_l.
  rewrite !bt_cat. rewrite <- !app_assoc.
  rewrite !last_char_app in Hk.
  apply (bt_opt_class is_sign sg (ds1 ++ frac ++ ex ++ t) prev).
  { destruct Hsg as [->|Hsg]; [left|by right]. split; [done|].
    destruct ds1 as [|d ds1]; [done|]. inversion Hd1; subst.
    simpl. by apply digit_not_sign. }
  rewrite bt_cat.
  apply (bt_plus_class is_digit ds1 (frac ++ ex ++ t)); [done|done| |].
  { destruct Hfrac as [->|(c & ds2 & -> & Hc & _)]; [done|].
    simpl. by apply dot_not_digit. }
  rewrite bt_cat.
  destruct Hfrac as [->|(c & ds2 & -> & Hc & Hd2 & Hn2)].
  - apply (bt_opt_class is_dot [] (ex ++ t)); [by left|].
    apply (bt_star_class is_digit [] (ex ++ t)); [constructor|done|].
    by apply star_exponent_greedy.
  - apply (bt_opt_class is_dot [c] (ds2 ++ ex ++ t)); [right; eauto|].
    apply (bt_star_class is_digit ds2 (ex ++ t)); [done|done|].
    apply star_exponent_greedy; [done|done|].
    by rewrite last_char_cons in Hk.
Qed.

End Greedy.

Section Rematch.
Import Re.
Implicit Types (prev : option ascii) (s t : list ascii).

(** After the substitution, the replaced occurrence is matched again as
    it is: the same head, and the new number whole. *)
Lemma match_here_replaced name prev pre v t :
  head_text name prev pre -> plain_number v -> delimiter t = true ->
  match_here name prev (pre ++ v ++ t)
  = Some (v ++ t, last_char (last_char prev pre) v, t).
Proof.
  intros (ws1 & ws2 & -> & Hs1 & Hs2 & Hstart) Hv Ht.
  destruct (plain_number_head _ Hv) as [Hvh Hvn].
  destruct (plain_number_last (last_char prev (name ++ ws1 ++ "="%char :: ws2)) _ Hv)
    as (d & Hd & Hdd).
  destruct (delimiter_nohead _ Ht) as (_ & _ & _ & Htw).
  unfold match_here.
  set (k1 := fun p1 s1 =>
               bt (Cat re_number re_tail) p1 s1
                  (fun p2 s2 => Some (s1, p2, s2))).
  assert (Hk1 : k1 (last_char prev (name ++ ws1 ++ "="%char :: ws2)) (v ++ t)
                = Some (v ++ t,
                        last_char (last_char prev (name ++ ws1 ++ "="%char :: ws2)) v,
                        t)).
  { unfold k1. rewrite bt_cat. apply bt_number_plain; [done|done|].
    apply bt_tail; [|done]. right. rewrite Hd.
    unfold at_boundary. simpl. rewrite (digit_word _ Hdd).
    destruct t as [|c t]; [done|]. simpl in *. by rewrite Htw. }
  assert (Hrest : bt (Cat (lits name)
                       (Cat (Star (Class is_space))
                            (Cat (Lit "=") (Star (Class is_space)))))
                     prev ((name ++ ws1 ++ "="%char :: ws2) ++ v ++ t) k1
                  = Some (v ++ t,
                          last_char (last_char prev (name ++ ws1 ++ "="%char :: ws2)) v,
                          t)).
  { rewrite <- !app_assoc. rewrite bt_cat, bt_lits, bt_cat.
    apply bt_star_class; [done|done|].
    rewrite bt_cat. simpl bt at 1.
    change (ws2 ++ v ++ t) with (ws2 ++ (v ++ t)).
    apply bt_star_class; [done| |].
    - destruct v; [done|]. exact Hvh.
    - rewrite <- Hk1. f_equal. rewrite !last_char_app. simpl.
      by rewrite last_char_cons. }
  unfold re_head. rewrite bt_cat.
  apply bt_start; [|exact Hrest].
  destruct Hstart as [Hstart|Hstart]; [by left|right].
  rewrite at_boundary_app by (destruct name, ws1; done). exact Hstart.
Qed.

End Rematch.

(** * A second substitution of the same value *)

Section SecondPass.
Import Re.
Context (name repl : list ascii).
Context (name_nonempty : name <> []) (name_word : all_of is_word name).
Implicit Types (prev : option ascii) (s t u : list ascii).

(** No occurrence starts at a character that is not a word character. *)
Lemma match_here_nonword prev s :
  nohead is_word s -> match_here name prev s = None.
Proof.
  intros Hs.
  destruct (match_here name prev s) as [[[s1 p2] s2]|] eqn:Hm; [exfalso|done].
  apply match_here_sound in Hm as (pre & num & -> & _ & _ & Hh & _).
  apply matches_head in Hh as (ws1 & ws2 & -> & _).
  destruct name as [|n0 name']; [done|].
  inversion name_word; subst. simpl in Hs. congruence.
Qed.

Lemma sub_at_nonword prev c s :
  is_word c = false ->
  sub_at name repl prev (c :: s) = c :: sub_at name repl (Some c) s.
Proof. intros Hc. apply sub_at_copy. by apply match_here_nonword. Qed.

Lemma sub_at_delimiter prev s :
  delimiter s = true -> delimiter (sub_at name repl prev s) = true.
Proof.
  destruct s as [|c s]; [by rewrite sub_at_nil|].
  intros H. pose proof H as H'. simpl in H'.
  apply andb_true_iff in H' as [Hw _]. apply negb_true_iff in Hw.
  by rewrite sub_at_nonword.
Qed.

(** Up to the first number it replaces, the scan copies the line. *)
Lemma first_change prev s :
  sub_at name repl prev s = s
  \/ exists u pre1 num1 t t' ws1 ws2,
      s = u ++ pre1 ++ num1 ++ t
      /\ sub_at name repl prev s = u ++ pre1 ++ repl ++ t'
      /\ pre1 = name ++ ws1 ++ "="%char :: ws2
      /\ all_of is_space ws1 /\ all_of is_space ws2
      /\ num1 <> []
      /\ (u = [] -> match_here name prev s <> None).
Proof.
  remember (length s) as n eqn:Hn. revert prev s Hn.
  induction n as [n IH] using lt_wf_ind. intros prev s ->.
  destruct (sub_at_cases name repl prev s)
    as [[-> ->]|[(c & s' & -> & Hm & ->)
                |(pre & num & s2 & -> & Hm & Hh & Hnum & Ht & ->)]].
  - by left.
  - destruct (IH (length s') ltac:(simpl; lia) (Some c) s' eq_refl)
      as [->|(u & pre1 & num1 & t & t' & ws1 & ws2 & -> & -> & Hrest)];
      [by left|right].
    exists (c :: u), pre1, num1, t, t', ws1, ws2.
    destruct Hrest as (-> & H1 & H2 & H3 & _). by repeat split.
  - right. apply matches_head in Hh as (ws1 & ws2 & -> & H1 & H2 & _).
    apply matches_number, number_text_nonempty in Hnum.
    exists [], (name ++ ws1 ++ "="%char :: ws2), num, s2,
      (sub_at name repl (last_char (last_char prev (name ++ ws1 ++ "="%char :: ws2)) num) s2),
      ws1, ws2.
    repeat split; try done. intros _. by rewrite Hm.
Qed.

(** The characters of a head followed by a number, by position. *)
Lemma head_number_char wsa wsb num (i : nat) (c : ascii) :
  all_of is_space wsa -> all_of is_space wsb -> all_of is_numchar num ->
  (name ++ wsa ++ "="%char :: wsb ++ num) !! i = Some c ->
  (i < length name /\ is_word c = true)
  \/ (length name <= i < length name + length wsa /\ is_space c = true)
  \/ (i = length name + length wsa /\ c = "="%char)
  \/ (length name + length wsa < i /\ (is_space c = true \/ is_numchar c = true)).
Proof.
  intros Ha Hb Hn H.
  apply lookup_app_Some in H as [H|[H1 H]].
  { left. split; [by eapply lookup_lt_Some|].
    eapply (Forall_lookup_1 _ _ _ _ name_word H). }
  apply lookup_app_Some in H as [H|[H2 H]].
  { right. left. apply lookup_lt_Some in H as Hlt. split; [lia|].
    eapply (Forall_lookup_1 _ _ _ _ Ha H). }
  destruct (i - length name - length wsa) as [|j] eqn:Hj; simpl in H.
  { right. right. left. inversion H; subst. split; [lia|done]. }
  right. right. right. split; [lia|].
  apply lookup_app_Some in H as [H|[H3 H]].
  - left. eapply (Forall_lookup_1 _ _ _ _ Hb H).
  - right. eapply (Forall_lookup_1 _ _ _ _ Hn H).
Qed.

Lemma last_of_name : exists ni cl, name = ni ++ [cl] /\ is_word cl = true.
Proof.
  destruct (last name) as [cl|] eqn:Hl; [|by apply last_None in Hl].
  apply last_Some in Hl as [ni Hni]. exists ni, cl. split; [done|].
  pose proof name_word as Hw. rewrite Hni in Hw.
  apply Forall_app in Hw as [_ Hw]. by inversion Hw.
Qed.

(** The scan creates no occurrence where the line had none. *)
Lemma no_new_match prev s :
  repl <> [] ->
  match_here name prev s = None ->
  match_here name prev (sub_at name repl prev s) = None.
Proof.
  intros Hrepl Hs.
  destruct (first_change prev s)
    as [->|(u & pre1 & num1 & t & t' & ws1 & ws2 & Es & Eo & -> & Hs1 & Hs2 & Hn1 & Hu)];
    [done|].
  destruct (match_here name prev (sub_at name repl prev s))
    as [[[s1 p2] r2]|] eqn:Ho; [exfalso|done].
  assert (Hune : u <> []) by (intros ->; by apply Hu).
  apply match_here_sound in Ho as (pre' & num' & Eo' & _ & -> & Hh & Hn & Ht).
  pose proof (matches_head _ _ _ _ Hh) as Hht.
  pose proof Hht as (wsa & wsb & -> & Hsa & Hsb & _).
  pose proof (matches_number _ _ _ Hn) as Hnt.
  pose proof (number_text_numchar _ Hnt) as Hnc.
  pose proof (number_text_nonempty _ Hnt) as Hnn.
  rewrite Eo in Eo'.
  assert (E : (u ++ name ++ ws1 ++ "="%char :: ws2) ++ repl ++ t'
              = ((name ++ wsa ++ "="%char :: wsb) ++ num') ++ r2).
  { norm_app. norm_app_in Eo'. exact Eo'. }
  assert (Hends : u ++ name ++ ws1 ++ "="%char :: ws2
                  <> (name ++ wsa ++ "="%char :: wsb) ++ num').
  { (* the last character of a number does not end a head *)
    intros E1. apply (f_equal last) in E1. rewrite !last_app in E1.
    destruct (last num') as [c|] eqn:Hl; [|by apply last_None in Hl].
    apply last_Some in Hl as [ni ->].
    apply Forall_app in Hnc as [_ Hc]. inversion Hc as [|? ? Hc' _]; subst.
    rewrite last_cons in E1.
    destruct (last ws2) as [c'|] eqn:Hl2.
    - inversion E1; subst c'. apply last_Some in Hl2 as [wi ->].
      apply Forall_app in Hs2 as [_ Hc2]. inversion Hc2 as [|? ? Hc2' _]; subst.
      apply numchar_not_space in Hc'. congruence.
    - inversion E1; subst c. by apply numchar_not_equals in Hc'. }
  apply app_eq_app in E as [l [[E1 E2]|[E1 E2]]].
  - (* the match ends before the replaced number: the same text is an
       occurrence in the line *)
    destruct l as [|l0 l]; [rewrite app_nil_r in E1; by apply Hends|].
    assert (Hc : match_here name prev
                   ((name ++ wsa ++ "="%char :: wsb) ++ num'
                    ++ (l0 :: l) ++ num1 ++ t) <> None).
    { apply match_here_complete.
      - by apply head_matches.
      - by apply (matches_context_free _ _ _ _ Hn).
      - destruct Ht as [Ht|Ht].
        + subst r2. destruct repl; [done|]. simpl in Ht.
          destruct l; simpl in Ht; discriminate.
        + right. subst r2. exact Ht. }
    apply Hc. rewrite <- Hs. f_equal. rewrite Es.
    transitivity ((u ++ name ++ ws1 ++ "="%char :: ws2) ++ num1 ++ t);
      [|by norm_app].
    rewrite E1. by norm_app.
  - (* the match reaches the replaced number: the [=] of the two heads
       is the same, and the name of the replaced occurrence lies in the
       blanks before it *)
    destruct l as [|l0 l]; [rewrite app_nil_r in E1; by apply Hends|].
    assert (ET : name ++ wsa ++ "="%char :: wsb ++ num'
                 = u ++ name ++ ws1 ++ "="%char :: ws2 ++ l0 :: l).
    { norm_app_in E1. rewrite E1. by norm_app. }
    assert (Heq : (name ++ wsa ++ "="%char :: wsb ++ num')
                    !! (length u + length name + length ws1) = Some "="%char).
    { rewrite ET.
      replace (u ++ name ++ ws1 ++ "="%char :: ws2 ++ l0 :: l)
        with ((u ++ name ++ ws1) ++ "="%char :: (ws2 ++ l0 :: l))
        by (by norm_app).
      apply list_lookup_middle. rewrite !length_app. lia. }
    destruct (head_number_char _ _ _ _ _ Hsa Hsb Hnc Heq)
      as [[_ Hc]|[[_ Hc]|[[Hpos _]|[_ [Hc|Hc]]]]];
      try (by apply word_not_equals in Hc);
      try (by apply space_not_equals in Hc);
      try (by apply numchar_not_equals in Hc).
    destruct last_of_name as (ni & cl & Hni & Hcl).
    assert (Hlen : length name = S (length ni)).
    { rewrite Hni, length_app. simpl. lia. }
    assert (Hlast : (name ++ wsa ++ "="%char :: wsb ++ num')
                      !! (length u + length ni) = Some cl).
    { rewrite ET. rewrite Hni at 1.
      replace (u ++ (ni ++ [cl]) ++ ws1 ++ "="%char :: ws2 ++ l0 :: l)
        with ((u ++ ni) ++ cl :: (ws1 ++ "="%char :: ws2 ++ l0 :: l))
        by (by norm_app).
      apply list_lookup_middle. rewrite !length_app. lia. }
    assert (Hu1 : 1 <= length u) by (destruct u; [done|simpl; lia]).
    destruct (head_number_char _ _ _ _ _ Hsa Hsb Hnc Hlast)
      as [[Hi _]|[[_ Hc]|[[Hi _]|[Hi _]]]]; try lia.
    apply space_not_word in Hc. congruence.
Qed.

Context (repl_plain : plain_number repl).

Lemma head_not_nohead prev pre rest :
  head_text name prev pre -> ~ nohead is_word (pre ++ rest).
Proof.
  intros (ws1 & ws2 & -> & _) H.
  destruct name as [|n0 name']; [done|].
  inversion name_word; subst. simpl in H. congruence.
Qed.

(** Scanning the result again changes nothing, when every replaced
    number is followed by a delimiter. *)
Lemma second_pass s :
  forall prev prev',
    delimited_at name prev s = true ->
    prev' = prev \/ nohead is_word s ->
    sub_at name repl prev' (sub_at name repl prev s) = sub_at name repl prev s.
Proof.
  remember (length s) as n eqn:Hn. revert s Hn.
  induction n as [n IH] using lt_wf_ind. intros s -> prev prev' Hd Hp.
  destruct (plain_number_head _ repl_plain) as [_ Hrepl].
  destruct (sub_at_cases name repl prev s)
    as [[-> ->]|[(c & s' & -> & Hm & ->)
                |(pre & num & s2 & -> & Hm & Hh & Hnum & Ht & ->)]].
  - apply sub_at_nil.
  - rewrite (delimited_at_copy _ _ _ _ Hm) in Hd.
    assert (Hm' : match_here name prev' (c :: sub_at name repl (Some c) s') = None).
    { destruct Hp as [->|Hp].
      - rewrite <- (sub_at_copy name repl prev c s' Hm).
        by apply no_new_match.
      - by apply match_here_nonword. }
    rewrite (sub_at_copy _ _ _ _ _ Hm'). f_equal.
    apply (IH (length s')); [simpl; lia|done|done|by left].
  - apply matches_head in Hh.
    destruct Hp as [->|Hp]; [|by apply (head_not_nohead prev) in Hp].
    rewrite (delimited_at_match _ _ _ _ _ _ Hm) in Hd.
    apply andb_true_iff in Hd as [Hdel Hd].
    pose proof (sub_at_delimiter
                  (last_char (last_char prev pre) num) s2 Hdel) as Hdel'.
    rewrite (sub_at_match name repl prev pre repl _ _
               (match_here_replaced name prev pre repl _ Hh repl_plain Hdel')).
    f_equal. f_equal.
    apply matches_number, number_text_nonempty in Hnum.
    apply (IH (length s2)); [|done|done|].
    + rewrite !length_app. destruct num; [done|simpl; lia].
    + right. by apply delimiter_nohead in Hdel as (_ & _ & _ & ?).
Qed.

(** The substitution of a line, applied to its own result. *)
Lemma sub_twice line :
  delimited name line = true ->
  sub name repl (sub name repl line) = sub name repl line.
Proof. intros Hd. apply (second_pass line None None); [done|by left]. Qed.

End SecondPass.

(** * The substitution of a file *)

Section Lines.
Import Re.
Implicit Types (s l body : list ascii) (ls : list (list ascii)).

Lemma concat_lines s : concat (lines s) = s.
Proof.
  induction s as [|c s IH]; simpl; [done|].
  destruct (Ascii.eqb c newline); simpl; [by rewrite IH|].
  destruct (lines s) as [|l ls]; simpl in *; by rewrite <- IH.
Qed.

Lemma full_line_cons c l : c <> newline -> full_line l -> full_line (c :: l).
Proof.
  intros Hc (body & -> & Hb). exists (c :: body). split; [done|by constructor].
Qed.

Lemma part_line_cons c l : c <> newline -> no_newline l -> part_line (c :: l).
Proof. intros Hc Hl. split; [done|by constructor]. Qed.

Lemma lines_split s : split_lines (lines s).
Proof.
  induction s as [|c s IH]; simpl; [constructor|].
  destruct (Ascii.eqb_spec c newline) as [->|Hc].
  - apply sl_cons; [|done]. exists []. split; [done|constructor].
  - destruct (lines s) as [|l ls].
    + apply sl_last. apply part_line_cons; [done|constructor].
    + inversion IH as [|? [_ Hl]|? ? Hl Hls]; subst.
      * apply sl_last. by apply part_line_cons.
      * apply sl_cons; [by apply full_line_cons|done].
Qed.

Lemma lines_part l : part_line l -> lines l = [l].
Proof.
  intros [Hne Hl]. induction l as [|c l IH]; [done|].
  inversion Hl as [|? ? Hc Hl']; subst. simpl.
  destruct (Ascii.eqb_spec c newline) as [->|_]; [done|].
  destruct l as [|c' l]; [done|]. by rewrite IH.
Qed.

Lemma lines_full body rest :
  no_newline body ->
  lines (body ++ newline :: rest) = (body ++ [newline]) :: lines rest.
Proof.
  intros Hb. induction body as [|c body IH]; simpl.
  - reflexivity.
  - inversion Hb as [|? ? Hc Hb']; subst.
    destruct (Ascii.eqb_spec c newline) as [->|_]; [done|]. by rewrite IH.
Qed.

Lemma lines_of_split ls : split_lines ls -> lines (concat ls) = ls.
Proof.
  induction 1 as [|l Hl|l ls (body & -> & Hb) _ IH]; simpl.
  - done.
  - rewrite app_nil_r. by apply lines_part.
  - rewrite <- app_assoc. simpl. rewrite lines_full by done. by rewrite IH.
Qed.

(** A substitution keeps the shape of a line, when the text put for the
    numbers has no newline. *)
Lemma numchar_not_newline c : is_numchar c = true -> c <> newline.
Proof. destruct c as [[] [] [] [] [] [] [] []]; vm_compute; congruence. Qed.

Lemma rewrites_nil name repl prev s' : rewrites name repl prev [] s' -> s' = [].
Proof.
  intros H. remember [] as s eqn:Es.
  destruct H as [| |prev pre num s s' Hh Hn Ht Hr]; [done|discriminate|].
  exfalso. apply number_text_nonempty in Hn.
  destruct num; [done|]. destruct pre; discriminate.
Qed.

Lemma rewrites_no_newline name repl prev s s' :
  no_newline repl -> rewrites name repl prev s s' ->
  no_newline s -> no_newline s'.
Proof.
  intros Hrepl. induction 1 as [|prev c s s' _ IH|prev pre num s s' _ _ _ _ IH];
    intros Hs.
  - constructor.
  - inversion Hs; subst. constructor; [done|by apply IH].
  - apply Forall_app in Hs as [Hpre Hs]. apply Forall_app in Hs as [_ Hs].
    apply Forall_app. split; [done|]. apply Forall_app. split; [done|by apply IH].
Qed.

Lemma rewrites_full_line name repl prev s s' :
  no_newline repl -> rewrites name repl prev s s' ->
  full_line s -> full_line s'.
Proof.
  intros Hrepl.
  induction 1 as [|prev c s s' Hr IH|prev pre num s s' Hh Hn _ Hr IH];
    intros (body & E & Hb).
  - by destruct body.
  - destruct body as [|c0 body]; simpl in E; inversion E; subst.
    + apply rewrites_nil in Hr. subst s'. exists []. split; [done|constructor].
    + inversion Hb; subst. apply full_line_cons; [done|].
      apply IH. by exists body.
  - pose proof (number_text_numchar _ Hn) as Hnc.
    pose proof (number_text_nonempty _ Hn) as Hnn.
    destruct (last s) as [cl|] eqn:Hl.
    + apply last_Some in Hl as [s0 ->].
      rewrite !app_assoc in E. apply app_inj_tail in E as [E ->].
      rewrite <- app_assoc in E. subst body.
      apply Forall_app in Hb as [Hpre Hb]. apply Forall_app in Hb as [_ Hs0].
      destruct IH as (body' & -> & Hb'); [by exists s0|].
      exists (pre ++ repl ++ body'). split; [by norm_app|].
      apply Forall_app. split; [done|]. by apply Forall_app.
    + apply last_None in Hl. subst s. rewrite app_nil_r in E.
      apply (f_equal last) in E. rewrite !last_app in E. simpl in E.
      destruct (last num) as [c|] eqn:Hc; [|by apply last_None in Hc].
      apply last_Some in Hc as [n0 ->].
      apply Forall_app in Hnc as [_ Hc]. inversion Hc as [|? ? Hc' _]; subst.
      inversion E; subst c. by apply numchar_not_newline in Hc'.
Qed.

Lemma rewrites_part_line name repl prev s s' :
  no_newline repl -> rewrites name repl prev s s' ->
  part_line s -> part_line s'.
Proof.
  intros Hrepl Hr [Hne Hs].
  split; [|exact (rewrites_no_newline _ _ _ _ _ Hrepl Hr Hs)].
  destruct Hr as [| |prev pre num s s' (ws1 & ws2 & -> & _) _ _ _]; try done.
  by destruct name, ws1.
Qed.

Lemma rewrites_split name repl ls ls' :
  no_newline repl -> split_lines ls ->
  Forall2 (rewrites name repl None) ls ls' -> split_lines ls'.
Proof.
  intros Hrepl Hs. revert ls'.
  induction Hs as [|l Hl|l ls Hl _ IH]; intros ls' H2.
  - inversion H2. constructor.
  - inversion H2 as [|? l' ? ? Hr H2']; subst. inversion H2'; subst.
    apply sl_last. by eapply rewrites_part_line.
  - inversion H2 as [|? l' ? ? Hr H2']; subst.
    apply sl_cons; [by eapply rewrites_full_line|by apply IH].
Qed.

End Lines.

Section FileClaims.
Import Parameters Re ParameterFile.

Lemma uint_digits (d : Decimal.uint) :
  all_of is_digit (list_ascii_of_string (NilEmpty.string_of_uint d)).
Proof. induction d; simpl; constructor; done. Qed.

Lemma nilzero_uint_plain (d : Decimal.uint) :
  all_of is_digit (list_ascii_of_string (NilZero.string_of_uint d))
  /\ list_ascii_of_string (NilZero.string_of_uint d) <> [].
Proof.
  destruct d; simpl; (split; [|done]);
    try (constructor; [done|apply uint_digits]).
  constructor; [done|constructor].
Qed.

(** The text of an integer is a plain number. *)
Lemma str_int_plain (z : Z) : plain_number (str (VInt z)).
Proof.
  unfold str, NilZero.string_of_int.
  destruct (Z.to_int z) as [d|d]; destruct (nilzero_uint_plain d) as [Hd Hn].
  - exists [], (list_ascii_of_string (NilZero.string_of_uint d)), [], [].
    rewrite !app_nil_r. repeat split; try done; by left.
  - exists ["-"%char], (list_ascii_of_string (NilZero.string_of_uint d)), [], [].
    rewrite !app_nil_r. simpl. repeat split; try done; try by left.
    right. by exists "-"%char.
Qed.

Lemma plain_number_no_newline v : plain_number v -> no_newline v.
Proof.
  intros (sg & ds1 & frac & ex & -> & Hsg & Hd1 & _ & Hfrac & Hex).
  assert (Hall : all_of is_numchar (sg ++ ds1 ++ frac ++ ex)).
  { rewrite !all_of_app. repeat split.
    - by apply sign_text_numchar.
    - eapply all_of_impl; [apply digit_numchar|done].
    - destruct Hfrac as [->|(c & ds2 & -> & Hc & Hd2 & _)]; [constructor|].
      constructor; [by apply dot_numchar|].
      eapply all_of_impl; [apply digit_numchar|done].
    - destruct Hex as [->|Hex]; [constructor|by apply exponent_text_numchar]. }
  eapply Forall_impl; [exact Hall|]. intros c. apply numchar_not_newline.
Qed.

Lemma set_parameter_file_rewrites (name : string) (content : list ascii)
    (v : value) :
  Forall2 (rewrites (list_ascii_of_string name) (str v) None)
          (lines content)
          (map (sub (list_ascii_of_string name) (str v)) (lines content)).
Proof.
  apply Forall2_fmap_r, Forall_Forall2_diag, Forall_forall.
  intros l _. apply sub_at_rewrites.
Qed.

(** C7 as stated fails: on the file [a = 1.2.3] the first application
    with the value 5 leaves [a = 5.3], and the second one [a = 5]. *)
Lemma set_parameter_file_twice_counterexample :
  set_parameter_file "a" (list_ascii_of_string "a = 1.2.3") (VInt 5)
  = list_ascii_of_string "a = 5.3"
  /\ set_parameter_file "a" (list_ascii_of_string "a = 5.3") (VInt 5)
     = list_ascii_of_string "a = 5"
  /\ set_parameter_file "a"
       (set_parameter_file "a" (list_ascii_of_string "a = 1.2.3") (VInt 5))
       (VInt 5)
     <> set_parameter_file "a" (list_ascii_of_string "a = 1.2.3") (VInt 5).
Proof.
  split; [vm_compute; reflexivity|]. split; [vm_compute; reflexivity|].
  vm_compute. discriminate.
Qed.

Lemma set_parameter_file_replaces (name : string) (content : list ascii)
    (v : value) :
  Forall2 (replaces (list_ascii_of_string name) (str v) None)
          (lines content)
          (map (sub (list_ascii_of_string name) (str v)) (lines content)).
Proof.
  apply Forall2_fmap_r, Forall_Forall2_diag, Forall_forall.
  intros l _. apply sub_at_replaces.
Qed.

(** C7, amended.  The name is made of word characters, so that the
    pattern of line 113 reads it as literal text.  For every file and
    value, an application reads each line from the left; wherever an
    occurrence of [name = number] starts, at the beginning of the line
    or at a word boundary and ending at the end of the line or at a word
    boundary, it replaces the number of an occurrence that starts there
    by the text of the value and goes on after it; it copies a character
    only where no occurrence starts.  A second application with the
    same value leaves the file as the first one left it when, moreover,
    the name is not empty, the value is printed as a plain number, and
    every number the first application replaces is followed by the end
    of its line or by a character that is neither a word character nor
    a dot. *)
Theorem set_parameter_file_replaces_numbers (name : string)
    (content : list ascii) (v : value) :
  all_of is_word (list_ascii_of_string name) ->
  (exists ls',
      Forall2 (replaces (list_ascii_of_string name) (str v) None)
              (lines content) ls'
      /\ set_parameter_file name content v = concat ls'
      /\ concat (lines content) = content)
  /\ (list_ascii_of_string name <> [] ->
      plain_number (str v) ->
      Forall (fun l => delimited (list_ascii_of_string name) l = true)
             (lines content) ->
      set_parameter_file name (set_parameter_file name content v) v
      = set_parameter_file name content v).
Proof.
  intros Hword. split.
  - exists (map (sub (list_ascii_of_string name) (str v)) (lines content)).
    split; [apply set_parameter_file_replaces|].
    split; [done|apply concat_lines].
  - intros Hne Hplain Hdel. unfold set_parameter_file.
    rewrite lines_of_split.
    + f_equal. rewrite map_map. apply map_ext_in. intros l Hl.
      apply sub_twice; try done.
      rewrite Forall_forall in Hdel. apply Hdel. by apply list_elem_of_In.
    + eapply rewrites_split;
        [by apply plain_number_no_newline|apply lines_split
        |apply set_parameter_file_rewrites].
Qed.

Lemma set_parameter_file_replaces_numbers_witness :
  let content := list_ascii_of_string "a = 1.5
b = 2 # a = x
  a=3e5;" in
  all_of is_word (list_ascii_of_string "a")
  /\ list_ascii_of_string "a" <> []
  /\ plain_number (str (VInt 5))
  /\ Forall (fun l => delimited (list_ascii_of_string "a") l = true)
            (lines content)
  /\ (exists ls',
        Forall2 (replaces (list_ascii_of_string "a") (str (VInt 5)) None)
                (lines content) ls'
        /\ set_parameter_file "a" content (VInt 5) = concat ls'
        /\ concat (lines content) = content)
  /\ set_parameter_file "a" content (VInt 5)
     = list_ascii_of_string "a = 5
b = 2 # a = x
  a=5;"
  /\ set_parameter_file "a" (set_parameter_file "a" content (VInt 5)) (VInt 5)
     = set_parameter_file "a" content (VInt 5).
Proof.
  intros content.
  assert (H1 : list_ascii_of_string "a" <> []) by discriminate.
  assert (H2 : all_of is_word (list_ascii_of_string "a"))
    by (repeat constructor).
  assert (H4 : Forall (fun l => delimited (list_ascii_of_string "a") l = true)
                      (lines content)).
  { apply Forall_forall. intros l Hl. apply list_elem_of_In in Hl.
    revert l Hl. apply forallb_forall. vm_compute. reflexivity. }
  split; [exact H2|]. split; [exact H1|]. split; [apply str_int_plain|].
  split; [exact H4|].
  destruct (set_parameter_file_replaces_numbers "a" content (VInt 5) H2)
    as [Hfirst Htwice].
  split; [exact Hfirst|]. split; [vm_compute; reflexivity|].
  apply Htwice; [exact H1|apply str_int_plain|exact H4].
Defined.

End FileClaims.

(** * More about [storeResults], [isAdaptiveError] and
      [performInterpolation] *)

Section StoreMore.
Import Runmodel RunmodelMore.
Context {num : Type}.
Implicit Types (d : Data num) (f g : string) (solves : list (solved num)).

Lemma bind_inv {A B} (m : M num A) (k : A -> M num B) d r d' :
  bind m k d = (r, d') ->
  (exists e, m d = (Raise e, d') /\ r = Raise e)
  \/ exists a d1, m d = (Ok a, d1) /\ k a d1 = (r, d').
Proof.
  unfold bind. destruct (m d) as [[a|e] d1]; intros H.
  - right. eauto.
  - left. exists e. by inversion H.
Qed.

Lemma values_of_reported f solves (vals : list (pyval num)) :
  values_of f solves vals -> forall s, s ∈ solves -> is_Some (s !! f).
Proof.
  unfold values_of.
  induction 1 as [|s v solves' vals' (tup & Hs & _) _ IH]; intros s' Hs'.
  - inversion Hs'.
  - apply elem_of_cons in Hs' as [->|Hs']; [eauto|by apply IH].
Qed.

Lemma rank_class_cases (v : pyval num) :
  rank_class v = 0 \/ rank_class v = 1 \/ rank_class v = 2.
Proof.
  destruct v as [|sh data]; simpl; [by left|].
  destruct sh as [|a [|b sh]]; simpl; auto.
Qed.

Lemma loop_frame (body : string -> M num unit) (fs : list string) lst d
    (r : result (option string)) d' f :
  (forall keep g, ~ keep g -> respects (num:=num) keep (body g)) ->
  for_var fs body lst d = (r, d') -> f ∉ fs ->
  U d' !! f = U d !! f /\ t d' !! f = t d !! f.
Proof.
  intros Hb H Hf.
  destruct (respects_loop body fs lst Hb _ _ _ H) as [_ Hk]. by apply Hk.
Qed.

Lemma raw_entry_of_stable (first : solved num) solves d1 d2 f :
  U d2 !! f = U d1 !! f -> t d2 !! f = t d1 !! f ->
  raw_entry_of first solves d1 f -> raw_entry_of first solves d2 f.
Proof.
  intros HU Ht (tup & vals & ? & ? & ? & ?). exists tup, vals.
  rewrite HU, Ht. done.
Qed.

Lemma store_first_basis_raw (first : solved num) solves f d1 d2 :
  index0 solves = Ok first ->
  (exists tup, first !! f = Some tup /\ rank_class (f_U tup) <> 0) ->
  store_first_basis f solves d1 = (Ok tt, d2) ->
  raw_entry_of first solves d2 f.
Proof.
  intros Hf (tup & Htup & Hr) H.
  apply store_first_basis_ok in H as (first' & tup' & vals & Hf' & Htup' & Hv & HU & Ht).
  assert (first' = first) as -> by congruence.
  assert (tup' = tup) as -> by congruence.
  exists tup, vals. repeat split; try done.
  rewrite Ht. apply Nat.eqb_neq in Hr. by rewrite Hr.
Qed.

(** For every feature of the first node that is not interpolated, a
    returning [storeResults] has stored the values of the nodes, one per
    node and in node order, and as time basis the one of the first node,
    or [None] for a 0-D feature. *)
Theorem raw_features_in_node_order (adaptive : bool) solves d d' :
  storeResults adaptive solves d = (Ok tt, d') ->
  exists first,
    index0 solves = Ok first
    /\ forall f tup0,
        first !! f = Some tup0 ->
        ~ (adaptive = true /\ f = directComparison
           /\ rank_class (f_U tup0) = 1) ->
        exists c,
          U d' !! f = Some c
          /\ values_of f solves (items_of c)
          /\ length (items_of c) = length solves
          /\ t d' !! f
             = Some (if Nat.eqb (rank_class (f_U tup0)) 0
                     then PyNone else f_t tup0).
Proof.
  intros H.
  apply storeResults_ok in H
    as (first & d0 & d2 & d1 & d00 & v2 & v1 & v0
        & Hf & HsF & _ & L2 & L1 & L0 & Hc).
  apply setFeatures_ok in HsF as (F0 & F1 & F2 & _ & _).
  rewrite F2 in L2. rewrite F1 in L1. rewrite F0 in L0.
  exists first. split; [done|]. intros f tup0 Htup0 Hnot.
  assert (HQ : raw_entry_of first solves d00 f).
  { destruct (rank_class_cases (f_U tup0)) as [R|[R|R]].
    - assert (Hin : f ∈ features_of_class 0 first)
        by (apply elem_of_features_of_class; eauto).
      eapply (loop_establishes (raw_entry_of first solves));
        [| | |exact L0|exact Hin].
      + intros k g. apply respects_body_0d.
      + intros da db g. apply raw_entry_of_stable.
      + intros g da db Hg Hb. apply body_0d_ok in Hb as (vals & Hv & HU & Ht).
        apply elem_of_features_of_class in Hg as (tup & Hg & Rg).
        exists tup, vals. rewrite Rg. done.
    - assert (Hin : f ∈ features_of_class 1 first)
        by (apply elem_of_features_of_class; eauto).
      assert (H1 : (adaptive = true /\ f = directComparison)
                   \/ raw_entry_of first solves d1 f).
      { eapply (loop_establishes
                  (fun d g => (adaptive = true /\ g = directComparison)
                              \/ raw_entry_of first solves d g));
          [| | |exact L1|exact Hin].
        - intros k g. apply respects_body_1d.
        - intros da db g HU Ht [?|HQ]; [by left|right].
          by eapply raw_entry_of_stable.
        - intros g da db Hg Hb. unfold body_1d in Hb.
          destruct (adaptive && String.eqb g directComparison) eqn:E.
          + left. apply andb_true_iff in E as [-> E].
            by apply String.eqb_eq in E.
          + right. eapply store_first_basis_raw; [exact Hf| |exact Hb].
            apply elem_of_features_of_class in Hg as (tup & Hg & Rg).
            exists tup. split; [done|lia]. }
      destruct H1 as [[-> ->]|H1]; [exfalso; by apply Hnot|].
      eapply raw_entry_of_stable; [| |exact H1];
        eapply (loop_frame _ _ _ _ _ _ f
                  (fun k g => respects_body_0d k solves g) L0);
        intros Hin0;
        pose proof (features_of_class_disjoint _ _ _ _ Hin Hin0); done.
    - assert (Hin : f ∈ features_of_class 2 first)
        by (apply elem_of_features_of_class; eauto).
      assert (H2 : raw_entry_of first solves d2 f).
      { eapply (loop_establishes (raw_entry_of first solves));
          [| | |exact L2|exact Hin].
        - intros k g. apply respects_body_2d.
        - intros da db g. apply raw_entry_of_stable.
        - intros g da db Hg Hb. unfold body_2d in Hb.
          destruct (adaptive && String.eqb g directComparison); [discriminate|].
          eapply store_first_basis_raw; [exact Hf| |exact Hb].
          apply elem_of_features_of_class in Hg as (tup & Hg & Rg).
          exists tup. split; [done|lia]. }
      assert (H1 : raw_entry_of first solves d1 f).
      { eapply raw_entry_of_stable; [| |exact H2];
          eapply (loop_frame _ _ _ _ _ _ f
                    (fun k g => respects_body_1d k adaptive solves g) L1);
          intros Hin1;
          pose proof (features_of_class_disjoint _ _ _ _ Hin Hin1); done. }
      eapply raw_entry_of_stable; [| |exact H1];
        eapply (loop_frame _ _ _ _ _ _ f
                  (fun k g => respects_body_0d k solves g) L0);
        intros Hin0;
        pose proof (features_of_class_disjoint _ _ _ _ Hin Hin0); done. }
  destruct HQ as (tup & vals & Htup & Hv & HU & Ht).
  assert (tup = tup0) as -> by congruence.
  destruct (convert_last_items _ _ _ f Hc) as [HU' Ht'].
  rewrite HU in HU'. simpl in HU'.
  destruct (U d' !! f) as [c|] eqn:Hc'; [|discriminate].
  simpl in HU'. injection HU' as HU'.
  exists c. rewrite HU'. split; [done|]. split; [done|].
  split; [symmetry; by eapply Forall2_length|].
  by rewrite Ht'.
Qed.

(** [storeResults] returns only when every node reports every feature
    that the first node reports. *)
Theorem returns_only_on_complete_results (adaptive : bool) solves d d' :
  storeResults adaptive solves d = (Ok tt, d') ->
  exists first,
    index0 solves = Ok first
    /\ forall f s, is_Some (first !! f) -> s ∈ solves -> is_Some (s !! f).
Proof.
  intros H.
  apply storeResults_ok in H
    as (first & d0 & d2 & d1 & d00 & v2 & v1 & v0
        & Hf & HsF & _ & L2 & L1 & L0 & _).
  apply setFeatures_ok in HsF as (F0 & F1 & F2 & _ & _).
  rewrite F2 in L2. rewrite F1 in L1. rewrite F0 in L0.
  exists first. split; [done|]. intros f s [tup0 Htup0] Hs.
  set (Q := fun (_ : Data num) (g : string) =>
              forall s, s ∈ solves -> is_Some (s !! g)).
  assert (Hstable : forall da db g,
             U db !! g = U da !! g -> t db !! g = t da !! g -> Q da g -> Q db g)
    by (intros; done).
  assert (Hbasis : forall g da db,
             store_first_basis g solves da = (Ok tt, db) -> Q db g).
  { intros g da db Hb.
    apply store_first_basis_ok in Hb as (_ & _ & vals & _ & _ & Hv & _).
    intros s' Hs'. by eapply values_of_reported. }
  assert (HQ : exists dx, Q dx f); [|destruct HQ as [dx HQ]; by apply HQ].
  destruct (rank_class_cases (f_U tup0)) as [R|[R|R]].
  - exists d00.
    eapply (loop_establishes Q); [|exact Hstable| |exact L0|].
    + intros k g. apply respects_body_0d.
    + intros g da db _ Hb. apply body_0d_ok in Hb as (vals & Hv & _).
      intros s' Hs'. by eapply values_of_reported.
    + apply elem_of_features_of_class; eauto.
  - exists d1.
    eapply (loop_establishes Q); [|exact Hstable| |exact L1|].
    + intros k g. apply respects_body_1d.
    + intros g da db _ Hb. unfold body_1d in Hb.
      destruct (adaptive && String.eqb g directComparison); [|by eapply Hbasis].
      apply bind_ok in Hb as ([ts inters] & dx & E1 & _).
      unfold lift in E1. injection E1 as E1 _.
      apply gather_adaptive_ok in E1 as (_ & _ & Hall).
      intros s' Hs'. apply list_elem_of_lookup in Hs' as [j Hj].
      destruct (Hall _ _ Hj) as (tup & _ & Htup & _). eauto.
    + apply elem_of_features_of_class; eauto.
  - exists d2.
    eapply (loop_establishes Q); [|exact Hstable| |exact L2|].
    + intros k g. apply respects_body_2d.
    + intros g da db _ Hb. unfold body_2d in Hb.
      destruct (adaptive && String.eqb g directComparison); [discriminate|].
      by eapply Hbasis.
    + apply elem_of_features_of_class; eauto.
Qed.

(** ** What [storeResults] never touches *)

Lemma last_elem_of {X} (l : list X) (x : X) : last l = Some x -> x ∈ l.
Proof.
  intros H. apply last_Some in H as [l' ->]. apply elem_of_app. right. left.
Qed.

Lemma convert_last_frame (keep : string -> Prop) (v : option string) d
    (r : result unit) d' :
  (forall fl, v = Some fl -> ~ keep fl) ->
  convert_last v d = (r, d') -> frame keep d d'.
Proof.
  intros Hv H. destruct v as [fl|]; simpl in H.
  - eapply (respects_bind keep (lookup_U fl) (fun c => set_U fl (np_array c)));
      [apply respects_lookup_U| |exact H].
    intros c. apply respects_set_U. by apply Hv.
  - inversion H; subst. apply frame_refl.
Qed.

(** Whether it returns or raises, [storeResults] leaves the list of
    uncertain parameters as it was, and the entries of [U] and [t] under
    every name that is not a feature of the first node; on an empty list
    of results it raises [IndexError] and changes nothing. *)
Theorem storeResults_touches_reported_features_only (adaptive : bool) solves d
    (r : result unit) d' :
  storeResults adaptive solves d = (r, d') ->
  uncertain_parameters d' = uncertain_parameters d
  /\ (solves = [] -> r = Raise IndexError /\ d' = d)
  /\ forall first g,
      index0 solves = Ok first -> first !! g = None ->
      U d' !! g = U d !! g /\ t d' !! g = t d !! g.
Proof.
  intros H. destruct solves as [|first solves'].
  { inversion H; subst. split; [done|]. split; [done|]. intros ? ? Hf. inversion Hf. }
  set (solves := first :: solves') in *.
  set (keep := fun g : string => first !! g = None).
  assert (Hnot : forall n g, g ∈ features_of_class n first -> ~ keep g).
  { intros n g Hg Hk. apply elem_of_features_of_class in Hg as (tup & Hg & _).
    unfold keep in Hk. congruence. }
  set (d0 := mkData (uncertain_parameters d) (features_of_class 0 first)
                    (features_of_class 1 first) (features_of_class 2 first)
                    (U d) (t d)).
  assert (Hframe : frame keep d0 d').
  { unfold storeResults in H.
    rewrite (bind_run (lift (index0 solves)) _ d first d) in H by done.
    rewrite (bind_run (setFeatures first) _ d tt d0) in H by done.
    apply bind_inv in H as [(e & H & _)|([] & dx & E & H)].
    { apply isAdaptiveError_reads_only in H. subst d'. apply frame_refl. }
    apply isAdaptiveError_reads_only in E. subst dx.
    unfold store_loops in H.
    assert (Hloop : forall (body : string -> M num unit) n lst da rr db,
               (forall k g, ~ k g -> respects (num:=num) k (body g)) ->
               for_var (features_of_class n first) body lst da = (rr, db) ->
               frame keep da db).
    { intros body n lst da rr db Hb Hl.
      eapply frame_weaken; [|exact (respects_loop body _ lst Hb _ _ _ Hl)].
      intros g Hk Hg. by eapply Hnot. }
    apply bind_inv in H as [(e & H & _)|(v0 & d00 & H & Hc)].
    - rewrite (bind_run get_data _ d0 d0 d0) in H by done. simpl in H.
      apply bind_inv in H as [(e2 & H & _)|(v2 & d2 & L2 & H)].
      { eapply Hloop; [|exact H]. intros k g. apply respects_body_2d. }
      eapply frame_trans;
        [eapply Hloop; [|exact L2]; intros k g; apply respects_body_2d|].
      apply bind_inv in H as [(e1 & H & _)|(v1 & d1 & L1 & H)].
      { eapply Hloop; [|exact H]. intros k g. apply respects_body_1d. }
      eapply frame_trans;
        [eapply Hloop; [|exact L1]; intros k g; apply respects_body_1d|].
      eapply Hloop; [|exact H]. intros k g. apply respects_body_0d.
    - rewrite (bind_run get_data _ d0 d0 d0) in H by done. simpl in H.
      apply bind_ok in H as (v2 & d2 & L2 & H).
      apply bind_ok in H as (v1 & d1 & L1 & L0).
      pose proof (for_var_last _ _ _ _ _ _ L2) as Hv2.
      pose proof (for_var_last _ _ _ _ _ _ L1) as Hv1.
      pose proof (for_var_last _ _ _ _ _ _ L0) as Hv0.
      eapply frame_trans;
        [eapply Hloop; [|exact L2]; intros k g; apply respects_body_2d|].
      eapply frame_trans;
        [eapply Hloop; [|exact L1]; intros k g; apply respects_body_1d|].
      eapply frame_trans;
        [eapply Hloop; [|exact L0]; intros k g; apply respects_body_0d|].
      eapply convert_last_frame; [|exact Hc].
      intros fl ->.
      destruct (last (features_of_class 0 first)) as [x0|] eqn:E0.
      { injection Hv0 as <-. eapply Hnot, last_elem_of, E0. }
      subst v1.
      destruct (last (features_of_class 1 first)) as [x1|] eqn:E1.
      { injection Hv0 as <-. eapply Hnot, last_elem_of, E1. }
      subst v2.
      destruct (last (features_of_class 2 first)) as [x2|] eqn:E2; [|done].
      injection Hv0 as <-. eapply Hnot, last_elem_of, E2. }
  destruct Hframe as [(Hu & _) Hk].
  split; [exact Hu|]. split; [done|].
  intros first' g Hf Hg. injection Hf as <-. by apply Hk.
Qed.

(** ** The shape check on a store without earlier results *)

(** On a store whose [U] is empty, as at the start of a run, the check of
    a model that is not adaptive fails with [KeyError] as soon as the
    first node reports a 1-D or a 2-D feature, and nothing is stored. *)
Theorem non_adaptive_check_fails_on_cleared_store solves (first : solved num) d :
  index0 solves = Ok first ->
  features_of_class 1 first ++ features_of_class 2 first <> [] ->
  U d = ∅ ->
  exists d',
    storeResults false solves d = (Raise KeyError, d')
    /\ U d' = ∅ /\ t d' = t d.
Proof.
  intros Hf Hne HU.
  set (d0 := mkData (uncertain_parameters d) (features_of_class 0 first)
                    (features_of_class 1 first) (features_of_class 2 first)
                    (U d) (t d)).
  exists d0. split; [|by split].
  unfold storeResults.
  rewrite (bind_run (lift (index0 solves)) _ d first d)
    by (unfold lift; by rewrite Hf).
  rewrite (bind_run (setFeatures first) _ d tt d0) by done.
  apply bind_raise_run. unfold isAdaptiveError. simpl.
  rewrite (bind_run get_data _ d0 d0 d0) by done. simpl.
  destruct (features_of_class 1 first ++ features_of_class 2 first)
    as [|f fs]; [done|]. simpl.
  apply bind_raise_run. apply bind_raise_run.
  unfold lookup_U. simpl. by rewrite HU, lookup_empty.
Qed.

(** ** [isAdaptiveError] on a store that holds the collections *)

Lemma check_shapes_arrays (sh0 : list nat) (data0 : list num)
    (rest : list (pyval num)) :
  Forall (fun u => exists sh data, u = PyArr sh data) rest ->
  (check_shapes (PyArr sh0 data0) rest = Ok tt
   /\ forall v, v ∈ rest -> shape_of v = Ok sh0)
  \/ (check_shapes (PyArr sh0 data0) rest = Raise ValueError
      /\ exists u v, u ∈ PyArr sh0 data0 :: rest /\ v ∈ PyArr sh0 data0 :: rest
                     /\ shape_of u <> shape_of v).
Proof.
  intros Hall. revert sh0 data0.
  induction Hall as [|u rest (sh & data & ->) _ IH]; intros sh0 data0.
  - left. split; [done|]. intros v Hv. inversion Hv.
  - simpl. unfold eqb_shape. destruct (decide (sh0 = sh)) as [->|Hne].
    + rewrite bool_decide_eq_true_2 by done.
      destruct (IH sh data) as [[Hok Hsame]|[Hfail (a & b & Ha & Hb & Hab)]].
      * left. split; [done|]. intros v Hv.
        apply elem_of_cons in Hv as [->|Hv]; [done|by apply Hsame].
      * right. split; [done|]. exists a, b. repeat split; try done; by right.
    + rewrite bool_decide_eq_false_2 by done. right. split; [done|].
      exists (PyArr sh0 data0), (PyArr sh data).
      split; [left|]. split; [right; left|]. simpl. congruence.
Qed.

(** On a store in which every 1-D and 2-D feature has a non-empty
    collection of arrays, the check of a model that is not adaptive
    returns when the arrays of each feature have one shape, and raises
    [ValueError] when two arrays of some feature differ in shape; it never
    changes the store. *)
Theorem isAdaptiveError_compares_stored_shapes d :
  (forall f, f ∈ features_1d d ++ features_2d d ->
     exists c sh0 data0 rest,
       U d !! f = Some c /\ items_of c = PyArr sh0 data0 :: rest
       /\ Forall (fun u => exists sh data, u = PyArr sh data) rest) ->
  (isAdaptiveError false d = (Ok tt, d)
   /\ forall f c u v,
       f ∈ features_1d d ++ features_2d d -> U d !! f = Some c ->
       u ∈ items_of c -> v ∈ items_of c -> shape_of u = shape_of v)
  \/ (isAdaptiveError false d = (Raise ValueError, d)
      /\ exists f c u v,
          f ∈ features_1d d ++ features_2d d /\ U d !! f = Some c
          /\ u ∈ items_of c /\ v ∈ items_of c /\ shape_of u <> shape_of v).
Proof.
  unfold isAdaptiveError. simpl.
  rewrite (bind_run get_data _ d d d) by done.
  generalize (features_1d d ++ features_2d d). intros fs.
  induction fs as [|f fs IH]; intros Hall.
  - left. split; [done|]. intros f c u v Hf. inversion Hf.
  - destruct (Hall f) as (c & sh0 & data0 & rest & Hc & Hitems & Harr); [left|].
    simpl.
    assert (Hstep : forall (rr : result unit),
               lift rr d = (rr, d)) by done.
    assert (Hbody : bind (lookup_U f)
                      (fun c => match items_of c with
                                | [] => raise IndexError
                                | u_prev :: rest => lift (check_shapes u_prev rest)
                                end) d
                    = (check_shapes (PyArr sh0 data0) rest, d)).
    { rewrite (bind_run (lookup_U f) _ d c d)
        by (unfold lookup_U; by rewrite Hc).
      by rewrite Hitems. }
    destruct (check_shapes_arrays sh0 data0 rest Harr)
      as [[Hok Hsame]|[Hfail (a & b & Ha & Hb & Hab)]].
    + rewrite Hok in Hbody. rewrite (bind_run _ _ _ _ _ Hbody).
      destruct IH as [[Hrest Huni]|[Hrest (g & cg & a & b & Hg & Hcg & Ha & Hb & Hab)]].
      { intros g Hg. apply Hall. by right. }
      * left. split; [done|]. intros g cg u v Hg Hcg Hu Hv.
        apply elem_of_cons in Hg as [->|Hg]; [|by eapply Huni].
        assert (cg = c) as -> by congruence. rewrite Hitems in Hu, Hv.
        assert (Hsh : forall w, w ∈ PyArr sh0 data0 :: rest -> shape_of w = Ok sh0).
        { intros w Hw. apply elem_of_cons in Hw as [->|Hw]; [done|by apply Hsame]. }
        by rewrite (Hsh u Hu), (Hsh v Hv).
      * right. split; [done|]. exists g, cg, a, b. repeat split; try done. by right.
    + rewrite Hfail in Hbody. rewrite (bind_raise_run _ _ _ _ _ Hbody).
      right. split; [done|]. exists f, c, a, b. rewrite Hitems.
      repeat split; try done. left.
Qed.

(** ** The outcomes of [performInterpolation] *)

Lemma rmapM_pylen_raises (ts : list (pyval num)) e :
  rmapM pylen ts = Raise e ->
  e = TypeError /\ exists tb, tb ∈ ts /\ pylen tb = Raise TypeError.
Proof.
  induction ts as [|tb ts IH]; simpl; [discriminate|].
  destruct (pylen tb) as [n|e'] eqn:Hn; simpl.
  - destruct (rmapM pylen ts) as [ns|e'']; simpl; [discriminate|].
    intros H. injection H as <-. destruct (IH eq_refl) as (-> & tb' & Hin & Htb).
    split; [done|]. exists tb'. split; [by right|done].
  - intros H. injection H as <-.
    assert (e' = TypeError) as ->.
    { destruct tb as [|[|? ?] ?]; simpl in Hn; congruence. }
    split; [done|]. exists tb. split; [left|done].
Qed.

(** [performInterpolation] has three outcomes, and the time bases decide
    which: it raises [ValueError] when there is none; it raises
    [TypeError] when there are some and one of them has no length; and
    when there are some and every one has a length, it returns one of
    them, the first of those of the greatest length, and one series per
    interpolant, the interpolant evaluated on that basis, however many
    bases and interpolants there are. *)
Theorem performInterpolation_outcomes (ts : list (pyval num))
    (interpolation : list (pyval num -> pyval num)) :
  (ts = [] /\ performInterpolation ts interpolation = Raise ValueError)
  \/ (ts <> []
      /\ (exists tb, tb ∈ ts /\ pylen tb = Raise TypeError)
      /\ performInterpolation ts interpolation = Raise TypeError)
  \/ (ts <> []
      /\ (forall tb, tb ∈ ts -> exists n, pylen tb = Ok n)
      /\ exists tb (i n : nat),
          tb ∈ ts
          /\ ts !! i = Some tb /\ pylen tb = Ok n
          /\ (forall j tj, ts !! j = Some tj ->
                exists m, pylen tj = Ok m /\ m <= n /\ (j < i -> m < n))
          /\ performInterpolation ts interpolation
             = Ok (tb, NdArray (map (fun inter => inter tb) interpolation))).
Proof.
  destruct ts as [|t0 ts]; [by left|]. right.
  destruct (rmapM pylen (t0 :: ts)) as [lengths|e] eqn:Hl.
  - right. split; [done|].
    assert (Hlen : forall tb, tb ∈ t0 :: ts -> exists n, pylen tb = Ok n).
    { intros tb Htb. apply rmapM_ok in Hl.
      apply list_elem_of_lookup in Htb as [j Hj].
      destruct (Forall2_lookup_l _ _ _ _ _ Hl Hj) as (n & _ & Hn). eauto. }
    split; [exact Hlen|].
    destruct (performInterpolation_succeeds (t0 :: ts) interpolation)
      as [[tb c] Hp]; [done|exact Hlen|].
    pose proof (performInterpolation_ok _ _ _ _ Hp) as (i & n & Hi & Hn & Hmax & ->).
    exists tb, i, n. split; [by eapply list_elem_of_lookup_2|done].
  - left. split; [done|]. apply rmapM_pylen_raises in Hl as (-> & Htb).
    split; [done|]. unfold performInterpolation.
    destruct (rmapM pylen (t0 :: ts)) as [lengths|e] eqn:Hl'; simpl.
    + exfalso. destruct Htb as (tb & Hin & Hr). apply rmapM_ok in Hl'.
      apply list_elem_of_lookup in Hin as [j Hj].
      destruct (Forall2_lookup_l _ _ _ _ _ Hl' Hj) as (n & _ & Hn). congruence.
    + apply rmapM_pylen_raises in Hl' as (-> & _). done.
Qed.

End StoreMore.

Section StoreMoreExamples.
Import Runmodel RunExamples StoreExamples2.

Lemma raw_features_in_node_order_witness :
  let d' := snd (storeResults true solves_adaptive empty_data) in
  storeResults true solves_adaptive empty_data = (Ok tt, d')
  /\ exists first,
      index0 solves_adaptive = Ok first
      /\ forall f tup0,
          first !! f = Some tup0 ->
          ~ (true = true /\ f = directComparison
             /\ rank_class (f_U tup0) = 1) ->
          exists c,
            U d' !! f = Some c
            /\ values_of f solves_adaptive (items_of c)
            /\ length (items_of c) = length solves_adaptive
            /\ t d' !! f
               = Some (if Nat.eqb (rank_class (f_U tup0)) 0
                       then PyNone else f_t tup0).
Proof.
  split; [vm_compute; reflexivity|].
  apply (raw_features_in_node_order true solves_adaptive empty_data).
  vm_compute; reflexivity.
Defined.

Lemma returns_only_on_complete_results_witness :
  storeResults true solves_adaptive empty_data
  = (Ok tt, snd (storeResults true solves_adaptive empty_data))
  /\ exists first,
      index0 solves_adaptive = Ok first
      /\ forall f s,
          is_Some (first !! f) -> s ∈ solves_adaptive -> is_Some (s !! f).
Proof.
  split; [vm_compute; reflexivity|].
  apply (returns_only_on_complete_results true solves_adaptive empty_data
           (snd (storeResults true solves_adaptive empty_data))).
  vm_compute; reflexivity.
Defined.

Lemma storeResults_touches_reported_features_only_witness :
  let out := storeResults true solves_image stale_data in
  out = (fst out, snd out)
  /\ uncertain_parameters (snd out) = uncertain_parameters stale_data
  /\ (solves_image = [] -> fst out = Raise IndexError /\ snd out = stale_data)
  /\ forall first g,
      index0 solves_image = Ok first -> first !! g = None ->
      U (snd out) !! g = U stale_data !! g /\ t (snd out) !! g = t stale_data !! g.
Proof.
  split; [apply surjective_pairing|].
  apply (storeResults_touches_reported_features_only true solves_image stale_data).
  apply surjective_pairing.
Defined.

Lemma non_adaptive_check_fails_on_cleared_store_witness :
  index0 solves_ragged = Ok node_two
  /\ features_of_class 1 node_two ++ features_of_class 2 node_two <> []
  /\ U empty_data = ∅
  /\ exists d',
      storeResults false solves_ragged empty_data = (Raise KeyError, d')
      /\ U d' = ∅ /\ t d' = t empty_data.
Proof.
  split; [reflexivity|]. split; [vm_compute; discriminate|].
  split; [reflexivity|].
  apply (non_adaptive_check_fails_on_cleared_store solves_ragged node_two empty_data).
  - reflexivity.
  - vm_compute; discriminate.
  - reflexivity.
Defined.

Lemma ragged_data_filled (f : string) :
  f ∈ features_1d ragged_data ++ features_2d ragged_data ->
  exists c sh0 data0 rest,
    U ragged_data !! f = Some c /\ items_of c = PyArr sh0 data0 :: rest
    /\ Forall (fun u => exists sh data, u = PyArr sh data) rest.
Proof.
  intros Hf. simpl in Hf. apply list_elem_of_singleton in Hf. subst f.
  exists (PyList [vec [5; 6]; vec [5; 6; 7]]%Z), [2], [5; 6]%Z, [vec [5; 6; 7]%Z].
  split; [reflexivity|]. split; [reflexivity|].
  constructor; [|constructor]. by eexists _, _.
Qed.

Lemma isAdaptiveError_compares_stored_shapes_witness :
  (forall f, f ∈ features_1d ragged_data ++ features_2d ragged_data ->
     exists c sh0 data0 rest,
       U ragged_data !! f = Some c /\ items_of c = PyArr sh0 data0 :: rest
       /\ Forall (fun u => exists sh data, u = PyArr sh data) rest)
  /\ ((isAdaptiveError false ragged_data = (Ok tt, ragged_data)
       /\ forall f c u v,
           f ∈ features_1d ragged_data ++ features_2d ragged_data ->
           U ragged_data !! f = Some c ->
           u ∈ items_of c -> v ∈ items_of c -> shape_of u = shape_of v)
      \/ (isAdaptiveError false ragged_data = (Raise ValueError, ragged_data)
          /\ exists f c u v,
              f ∈ features_1d ragged_data ++ features_2d ragged_data
              /\ U ragged_data !! f = Some c
              /\ u ∈ items_of c /\ v ∈ items_of c /\ shape_of u <> shape_of v)).
Proof.
  split; [exact ragged_data_filled|].
  apply (isAdaptiveError_compares_stored_shapes ragged_data).
  exact ragged_data_filled.
Defined.

End StoreMoreExamples.

(** * More about [evaluateNodes] and [run] *)

Section PoolMore.
Import Runmodel.
Context {num : Type} (worker : task num -> result (solved num)).
Implicit Types (self : RunModel num) (nodes : list (list num)) (buf : slots num).


(** The loop stops at the first result that is an exception. *)
Lemma gather_fails buf (k i : nat) (solves : list (solved num)) e :
  (forall j, j < i -> exists r, buf !! j = Some (Some (Ok r))) ->
  buf !! i = Some (Some (Raise e)) ->
  gather buf k solves = (map Collect (seq k i), Some (Raise e)).
Proof.
  revert buf k solves. induction i as [|i IH]; intros buf k solves Hbefore Hi.
  - destruct buf as [|o buf]; [done|]. simpl in Hi. injection Hi as ->. done.
  - destruct buf as [|o buf]; [done|].
    destruct (Hbefore 0) as [r Hr]; [lia|]. simpl in Hr. injection Hr as ->.
    simpl. rewrite (IH buf (S k) (solves ++ [r])); [done| |done].
    intros j Hj. apply (Hbefore (S j)). lia.
Qed.

Lemma pool_run_lookup (tasks : list (task num)) (completion : list nat)
    (j : nat) tk :
  j ∈ completion -> tasks !! j = Some tk ->
  pool_run worker tasks completion !! j = Some (Some (worker tk)).
Proof.
  intros Hin Htk. unfold pool_run.
  rewrite fold_complete_lookup by apply length_replicate.
  rewrite decide_True by done. by rewrite Htk.
Qed.

(** When the evaluation of a node raises and the nodes before it return,
    the loop raises that exception as soon as the results up to that
    node are there, whatever the workers did with the later nodes: the
    results before it have been collected, and the pool is not closed
    and the display not stopped. *)
Theorem failing_node_ends_the_batch self (completion : list nat) nodes
    (i : nat) tk e :
  evaluateNodeFunctionList self (transpose nodes) !! i = Some tk ->
  worker tk = Raise e ->
  (forall j tkj, j < i ->
     evaluateNodeFunctionList self (transpose nodes) !! j = Some tkj ->
     exists r, worker tkj = Ok r) ->
  (forall j, j <= i -> j ∈ completion) ->
  evaluateNodes worker self completion nodes
  = ((if supress_model_graphics self then [XvfbStart] else [])
     ++ [PoolOpen (CPUs self)]
     ++ map Submit (seq 0 (length (transpose nodes)))
     ++ map Collect (seq 0 i),
     Some (Raise e))
  /\ (PoolClose ∉ fst (evaluateNodes worker self completion nodes))
  /\ (XvfbStop ∉ fst (evaluateNodes worker self completion nodes)).
Proof.
  intros Htk He Hbefore Hdone.
  assert (Hlen : length (evaluateNodeFunctionList self (transpose nodes))
                 = length (transpose nodes)).
  { unfold evaluateNodeFunctionList. by rewrite length_map. }
  assert (Hev : evaluateNodes worker self completion nodes
                = ((if supress_model_graphics self then [XvfbStart] else [])
                   ++ [PoolOpen (CPUs self)]
                   ++ map Submit (seq 0 (length (transpose nodes)))
                   ++ map Collect (seq 0 i),
                   Some (Raise e))).
  { unfold evaluateNodes.
    rewrite (gather_fails _ 0 i [] e).
    - by rewrite Hlen.
    - intros j Hj.
      assert (Hsome : is_Some (evaluateNodeFunctionList self (transpose nodes) !! j)).
      { apply lookup_lt_is_Some. apply lookup_lt_Some in Htk. lia. }
      destruct Hsome as [tkj Htkj].
      destruct (Hbefore j tkj Hj Htkj) as [r Hr]. exists r.
      rewrite (pool_run_lookup _ _ _ tkj); [by rewrite Hr| |done].
      apply Hdone. lia.
    - rewrite (pool_run_lookup _ _ _ tk); [by rewrite He| |done].
      by apply Hdone. }
  split; [exact Hev|]. rewrite Hev. cbn [fst].
  split; intros Hin; rewrite !elem_of_app in Hin;
    destruct Hin as [Hin|[Hin|[Hin|Hin]]];
    try (destruct (supress_model_graphics self);
         [apply list_elem_of_singleton in Hin|inversion Hin]; discriminate);
    try (apply list_elem_of_singleton in Hin; discriminate);
    try (apply list_elem_of_fmap in Hin as (? & ? & _); discriminate).
Qed.



End PoolMore.

Section PoolMoreExamples.
Import Runmodel RunExamples StoreExamples2.

Lemma failing_node_ends_the_batch_witness :
  evaluateNodeFunctionList (scheduler 4) (transpose grid_failing) !! 1
  = Some (mkTask ["model"] true true [13%Z] [] ["features"] [])
  /\ evaluateNodes worker_rate (scheduler 4) [1; 0] grid_failing
     = ([XvfbStart; PoolOpen 4; Submit 0; Submit 1; Submit 2; Collect 0],
        Some (Raise ValueError))
  /\ (PoolClose ∉ fst (evaluateNodes worker_rate (scheduler 4) [1; 0] grid_failing))
  /\ (XvfbStop ∉ fst (evaluateNodes worker_rate (scheduler 4) [1; 0] grid_failing)).
Proof.
  split; [reflexivity|].
  apply (failing_node_ends_the_batch worker_rate (scheduler 4) [1; 0]
           grid_failing 1 (mkTask ["model"] true true [13%Z] [] ["features"] [])
           ValueError).
  - reflexivity.
  - reflexivity.
  - intros j tkj Hj Htkj. assert (j = 0) as -> by lia.
    injection Htkj as <-. by eexists.
  - intros j Hj. assert (j = 0 \/ j = 1) as [-> | ->] by lia.
    + right. left.
    + left.
Defined.


End PoolMoreExamples.

(** * More about [Parameters.__init__] *)

Section InitMore.
Import Parameters ParametersExamples ParametersMore.
Context {dist : Type}.
Implicit Types (ps : odict dist) (p : ParameterObj dist) (nm k : string).

Lemma od_keys_set k p ps :
  od_keys (od_set k p ps)
  = if bool_decide (k ∈ od_keys ps) then od_keys ps else od_keys ps ++ [k].
Proof.
  induction ps as [|[k' v] ps IH]; simpl; [done|].
  destruct (String.eqb_spec k k') as [->|Hne]; simpl.
  - rewrite bool_decide_eq_true_2 by left. done.
  - rewrite IH. destruct (bool_decide (k ∈ od_keys ps)) eqn:E.
    + apply bool_decide_eq_true_1 in E.
      rewrite bool_decide_eq_true_2 by (by right). done.
    + apply bool_decide_eq_false_1 in E.
      rewrite bool_decide_eq_false_2; [done|].
      intros Hin. apply elem_of_cons in Hin as [?|?]; done.
Qed.

Lemma od_get_set_eq k p ps : od_get k (od_set k p ps) = Some p.
Proof.
  induction ps as [|[k' v] ps IH]; simpl.
  - by rewrite String.eqb_refl.
  - destruct (String.eqb_spec k k') as [->|Hne]; simpl.
    + by rewrite String.eqb_refl.
    + by rewrite (proj2 (String.eqb_neq _ _) Hne).
Qed.

Lemma od_get_set_ne k k' p ps :
  k' <> k -> od_get k' (od_set k p ps) = od_get k' ps.
Proof.
  intros Hne. induction ps as [|[k0 v] ps IH]; simpl.
  - by rewrite (proj2 (String.eqb_neq _ _) Hne).
  - destruct (String.eqb_spec k k0) as [->|Hne0]; simpl.
    + by rewrite (proj2 (String.eqb_neq _ _) Hne).
    + by rewrite IH.
Qed.

Lemma od_set_named k p ps :
  name p = k ->
  Forall (fun kp => name (snd kp) = fst kp) ps ->
  Forall (fun kp => name (snd kp) = fst kp) (od_set k p ps).
Proof.
  intros Hk. induction 1 as [|[k' v] ps Hv Hps IH]; simpl.
  - by constructor.
  - destruct (String.eqb_spec k k') as [->|Hne].
    + constructor; [exact Hk|exact Hps].
    + constructor; [exact Hv|exact IH].
Qed.

Lemma od_set_NoDup k p ps : NoDup (od_keys ps) -> NoDup (od_keys (od_set k p ps)).
Proof.
  intros Hnd. rewrite od_keys_set.
  destruct (bool_decide (k ∈ od_keys ps)) eqn:E; [done|].
  apply bool_decide_eq_false_1 in E.
  apply NoDup_app. split; [done|]. split; [|apply NoDup_singleton].
  intros x Hx Hx'. apply list_elem_of_singleton in Hx'. by subst.
Qed.

Lemma od_set_length k p ps : length (od_set k p ps) <= S (length ps).
Proof.
  induction ps as [|[k' v] ps IH]; simpl; [lia|].
  destruct (String.eqb k k'); simpl; lia.
Qed.

(** What one turn of the loop keeps: every key once, and each the name
    of its object. *)
Lemma init_step_invariant ps (i : entry dist) ps' :
  init_step ps i = Ok ps' ->
  NoDup (od_keys ps) ->
  Forall (fun kp => name (snd kp) = fst kp) ps ->
  NoDup (od_keys ps')
  /\ Forall (fun kp => name (snd kp) = fst kp) ps'
  /\ length ps' <= S (length ps).
Proof.
  intros H Hnd Hnm.
  assert (Hset : forall k p, name p = k -> ps' = od_set k p ps ->
             NoDup (od_keys ps')
             /\ Forall (fun kp => name (snd kp) = fst kp) ps'
             /\ length ps' <= S (length ps)).
  { intros k p Hk ->. split; [by apply od_set_NoDup|].
    split; [by apply od_set_named|apply od_set_length]. }
  destruct i as [p| |nm|nm v|nm v da|nm v da]; unfold init_step in H;
    try discriminate.
  - injection H as <-. by eapply Hset.
  - destruct (Parameter_init (dist:=dist) nm v DistNone) as [p|e] eqn:Hp;
      [|discriminate].
    unfold rbind in H. injection H as <-.
    eapply Hset; [|done]. by eapply Parameter_init_name.
  - destruct (Parameter_init nm v da) as [p|e] eqn:Hp; [|discriminate].
    unfold rbind in H. injection H as <-.
    eapply Hset; [|done]. by eapply Parameter_init_name.
Qed.

Lemma init_loop_invariant (parameterlist : list (entry dist)) ps ps' :
  init_loop ps parameterlist = Ok ps' ->
  NoDup (od_keys ps) ->
  Forall (fun kp => name (snd kp) = fst kp) ps ->
  NoDup (od_keys ps')
  /\ Forall (fun kp => name (snd kp) = fst kp) ps'
  /\ length ps' <= length ps + length parameterlist.
Proof.
  revert ps. induction parameterlist as [|i rest IH]; intros ps H Hnd Hnm;
    simpl in H.
  - injection H as <-. simpl. split; [done|]. split; [done|lia].
  - destruct (init_step ps i) as [ps1|e] eqn:Hs; [|discriminate]. simpl in H.
    destruct (init_step_invariant _ _ _ Hs Hnd Hnm) as (Hnd1 & Hnm1 & Hl1).
    destruct (IH _ H Hnd1 Hnm1) as (Hnd' & Hnm' & Hl').
    split; [done|]. split; [done|]. simpl. lia.
Qed.

(** A collection that [Parameters.__init__] has built holds every name
    once, each as the key of a [Parameter] object of that name, and has
    at most as many parameters as the list had entries; the multivariate
    distribution is kept as given. *)
Theorem init_keys_are_names (parameterlist : list (entry dist))
    (d : option dist) (self : Parameters dist) :
  Parameters_init parameterlist d = Ok self ->
  NoDup (od_keys (parameters self))
  /\ Forall (fun kp => name (snd kp) = fst kp) (parameters self)
  /\ (forall nm p, getitem self (OpStr nm) = Ok p -> name p = nm)
  /\ len self <= length parameterlist
  /\ mdistribution self = d.
Proof.
  unfold Parameters_init. intros H.
  destruct (init_loop [] parameterlist) as [ps|e] eqn:Hl; [|discriminate].
  simpl in H. injection H as <-. simpl.
  destruct (init_loop_invariant _ _ _ Hl) as (Hnd & Hnm & Hlen);
    [constructor|constructor|].
  split; [done|]. split; [done|]. split; [|split; [unfold len; simpl in *; lia|done]].
  intros nm p. unfold getitem. simpl.
  destruct (od_get nm ps) as [p'|] eqn:Hg; [|discriminate].
  intros H. injection H as ->.
  clear -Hg Hnm. induction Hnm as [|[k v] ps Hv _ IH]; simpl in Hg; [done|].
  destruct (String.eqb_spec nm k) as [->|Hne].
  - injection Hg as ->. done.
  - by apply IH.
Qed.

(** ** A name given more than once *)

Lemma first_seen_equiv (seen1 seen2 names : list string) :
  (forall n, n ∈ seen1 <-> n ∈ seen2) ->
  first_seen seen1 names = first_seen seen2 names.
Proof.
  revert seen1 seen2. induction names as [|n names IH]; intros s1 s2 Hs; simpl.
  - done.
  - destruct (bool_decide (n ∈ s1)) eqn:E1.
    + apply bool_decide_eq_true_1 in E1.
      rewrite bool_decide_eq_true_2 by (by apply Hs). by apply IH.
    + apply bool_decide_eq_false_1 in E1.
      rewrite bool_decide_eq_false_2 by (by rewrite <- Hs). f_equal.
      apply IH. intros m. rewrite !elem_of_cons. by rewrite Hs.
Qed.

Lemma init_loop_objects (objs : list (ParameterObj dist)) ps :
  exists ps',
    init_loop ps (map EParam objs) = Ok ps'
    /\ od_keys ps' = od_keys ps ++ first_seen (od_keys ps) (map name objs)
    /\ forall nm,
        od_get nm ps'
        = match last (List.filter (fun p => String.eqb (name p) nm) objs) with
          | Some p => Some p
          | None => od_get nm ps
          end.
Proof.
  revert ps. induction objs as [|p objs IH]; intros ps; simpl.
  - exists ps. split; [done|]. split; [by rewrite app_nil_r|done].
  - destruct (IH (od_set (name p) p ps)) as (ps' & Hl & Hk & Hg).
    exists ps'. split; [done|]. split.
    + rewrite Hk, od_keys_set.
      destruct (bool_decide (name p ∈ od_keys ps)) eqn:E; [done|].
      rewrite <- app_assoc. simpl. f_equal. f_equal.
      apply first_seen_equiv. intros n.
      rewrite elem_of_app, !elem_of_cons, elem_of_nil. tauto.
    + intros nm. rewrite Hg.
      destruct (String.eqb_spec (name p) nm) as [<-|Hne].
      * rewrite last_cons.
        destruct (last (List.filter (fun p0 => String.eqb (name p0) (name p)) objs));
          [done|apply od_get_set_eq].
      * destruct (last (List.filter (fun p0 => String.eqb (name p0) nm) objs));
          [done|]. apply od_get_set_ne. congruence.
Qed.

Lemma elem_of_first_seen (seen names : list string) (x : string) :
  x ∈ first_seen seen names <-> x ∈ names /\ x ∉ seen.
Proof.
  revert seen. induction names as [|n names IH]; intros seen; simpl.
  - split; [intros H; inversion H|intros [H _]; inversion H].
  - destruct (bool_decide (n ∈ seen)) eqn:E.
    + apply bool_decide_eq_true_1 in E. rewrite IH, elem_of_cons.
      split; [tauto|]. intros [[->|?] ?]; [done|tauto].
    + apply bool_decide_eq_false_1 in E. rewrite !elem_of_cons, IH, elem_of_cons.
      split.
      * intros [->|[? ?]]; [tauto|]. split; [tauto|]. tauto.
      * intros [[->|?] ?]; [tauto|].
        destruct (decide (x = n)) as [->|?]; [tauto|]. right. tauto.
Qed.

Lemma NoDup_first_seen (seen names : list string) :
  NoDup (first_seen seen names).
Proof.
  revert seen. induction names as [|n names IH]; intros seen; simpl.
  - constructor.
  - destruct (bool_decide (n ∈ seen)); [apply IH|].
    constructor; [|apply IH].
    rewrite elem_of_first_seen, elem_of_cons. tauto.
Qed.

Lemma first_seen_length (names : list string) :
  length (first_seen [] names) = length (remove_dups names).
Proof.
  apply Permutation_length, NoDup_Permutation.
  - apply NoDup_first_seen.
  - apply NoDup_remove_dups.
  - intros x. rewrite elem_of_first_seen, elem_of_remove_dups.
    split; [tauto|]. intros H. split; [done|]. intros H'. inversion H'.
Qed.

(** When a name is given more than once, the collection has it once, at
    the place where it was first given, with the object that was given
    last; its length is the number of different names. *)
Theorem init_keeps_the_last_object (objs : list (ParameterObj dist))
    (d : option dist) :
  exists self,
    Parameters_init (map EParam objs) d = Ok self
    /\ od_keys (parameters self) = first_seen [] (map name objs)
    /\ len self = length (remove_dups (map name objs))
    /\ forall nm,
        getitem self (OpStr nm)
        = match last (List.filter (fun p => String.eqb (name p) nm) objs) with
          | Some p => Ok p
          | None => Raise KeyError
          end.
Proof.
  destruct (init_loop_objects objs []) as (ps & Hl & Hk & Hg).
  exists (mkParameters ps d). unfold Parameters_init. rewrite Hl. simpl.
  split; [done|]. split; [exact Hk|]. split.
  - unfold len. simpl. rewrite <- first_seen_length.
    simpl in Hk. rewrite <- Hk. unfold od_keys. by rewrite length_map.
  - intros nm. unfold getitem. simpl. rewrite Hg.
    by destruct (last (List.filter (fun p => String.eqb (name p) nm) objs)).
Qed.

End InitMore.

Section InitMoreExamples.
Import Parameters ParametersExamples.

Lemma init_keys_are_names_witness :
  Parameters_init (map raw_entry triples_ab) None = Ok parameters_ab
  /\ NoDup (od_keys (parameters parameters_ab))
  /\ Forall (fun kp => name (snd kp) = fst kp) (parameters parameters_ab)
  /\ (forall nm p, getitem parameters_ab (OpStr nm) = Ok p -> name p = nm)
  /\ len parameters_ab <= length (map raw_entry triples_ab)
  /\ mdistribution parameters_ab = None.
Proof.
  split; [reflexivity|].
  apply (init_keys_are_names (map raw_entry triples_ab) None parameters_ab).
  reflexivity.
Defined.

End InitMoreExamples.

(** * The methods that change a collection *)

Section RefsFacts.
Import Objects.
Implicit Types (self d : refs) (k nm other : string) (l : loc).

Lemma ref_get_keys k d : is_Some (ref_get k d) <-> k ∈ keys d.
Proof.
  induction d as [|[k' l'] d IH]; simpl.
  - split; [intros [? ?]; done | intros H; inversion H].
  - destruct (String.eqb_spec k k') as [->|Hne].
    + split; [intros _; left | eauto].
    + rewrite IH. split; [intros ?; by right | intros H; inversion H; subst; done].
Qed.

Lemma ref_get_None k d : ref_get k d = None <-> k ∉ keys d.
Proof.
  rewrite <- ref_get_keys. destruct (ref_get k d) as [l|]; split.
  - discriminate.
  - intros H. exfalso. apply H. eauto.
  - intros _ [? ?]. discriminate.
  - done.
Qed.

Lemma ref_get_elem k l d : ref_get k d = Some l -> (k, l) ∈ d.
Proof.
  induction d as [|[k' l'] d IH]; simpl; [done|].
  destruct (String.eqb_spec k k') as [->|Hne].
  - intros H. injection H as ->. left.
  - intros H. right. by apply IH.
Qed.

Lemma elem_ref_get k l d : well_formed d -> (k, l) ∈ d -> ref_get k d = Some l.
Proof.
  unfold well_formed, keys.
  induction d as [|[k' l'] d IH]; simpl; intros Hnd Hin; [inversion Hin|].
  apply NoDup_cons in Hnd as [Hk' Hnd].
  apply elem_of_cons in Hin as [Heq|Hin].
  - injection Heq as -> ->. by rewrite String.eqb_refl.
  - destruct (String.eqb_spec k k') as [->|Hne]; [|by apply IH].
    exfalso. apply Hk'. apply list_elem_of_fmap. by exists (k', l).
Qed.

Lemma ref_get_locs k l d : ref_get k d = Some l -> l ∈ locs d.
Proof.
  intros H. apply ref_get_elem in H. unfold locs.
  apply list_elem_of_fmap. by exists (k, l).
Qed.

Lemma ref_get_set_eq k l d : ref_get k (ref_set k l d) = Some l.
Proof.
  induction d as [|[k' l'] d IH]; simpl.
  - by rewrite String.eqb_refl.
  - destruct (String.eqb_spec k k') as [->|Hne]; simpl.
    + by rewrite String.eqb_refl.
    + by rewrite (proj2 (String.eqb_neq _ _) Hne).
Qed.

Lemma ref_get_set_ne k k' l d :
  k' <> k -> ref_get k' (ref_set k l d) = ref_get k' d.
Proof.
  intros Hne. induction d as [|[k0 l0] d IH]; simpl.
  - by rewrite (proj2 (String.eqb_neq _ _) Hne).
  - destruct (String.eqb_spec k k0) as [->|Hne0]; simpl.
    + by rewrite (proj2 (String.eqb_neq _ _) Hne).
    + by rewrite IH.
Qed.

Lemma keys_ref_set k l d :
  keys (ref_set k l d)
  = if bool_decide (k ∈ keys d) then keys d else keys d ++ [k].
Proof.
  induction d as [|[k' l'] d IH]; simpl; [done|].
  destruct (String.eqb_spec k k') as [->|Hne]; simpl.
  - rewrite bool_decide_eq_true_2 by left. done.
  - unfold keys in *. simpl. rewrite IH.
    destruct (bool_decide (k ∈ map fst d)) eqn:E.
    + apply bool_decide_eq_true_1 in E.
      rewrite bool_decide_eq_true_2 by (by right). done.
    + apply bool_decide_eq_false_1 in E.
      rewrite bool_decide_eq_false_2; [done|].
      intros Hin. apply elem_of_cons in Hin as [?|?]; done.
Qed.

Lemma ref_set_well_formed k l d : well_formed d -> well_formed (ref_set k l d).
Proof.
  unfold well_formed. intros Hnd. rewrite keys_ref_set.
  destruct (bool_decide (k ∈ keys d)) eqn:E; [done|].
  apply bool_decide_eq_false_1 in E.
  apply NoDup_app. split; [done|]. split; [|apply NoDup_singleton].
  intros x Hx Hx'. apply list_elem_of_singleton in Hx'. by subst.
Qed.

Lemma ref_get_del_ne k k' d :
  k' <> k -> ref_get k' (ref_del k d) = ref_get k' d.
Proof.
  intros Hne. induction d as [|[k0 l0] d IH]; simpl; [done|].
  destruct (String.eqb_spec k k0) as [->|Hne0]; simpl.
  - by rewrite (proj2 (String.eqb_neq _ _) Hne).
  - by rewrite IH.
Qed.

Lemma keys_ref_del_sub k d x : x ∈ keys (ref_del k d) -> x ∈ keys d.
Proof.
  induction d as [|[k0 l0] d IH]; simpl; [done|].
  destruct (String.eqb k k0); simpl.
  - intros H. by right.
  - unfold keys in *. simpl. rewrite !elem_of_cons. tauto.
Qed.

Lemma ref_del_well_formed k d : well_formed d -> well_formed (ref_del k d).
Proof.
  unfold well_formed, keys.
  induction d as [|[k0 l0] d IH]; simpl; intros Hnd; [done|].
  apply NoDup_cons in Hnd as [Hk Hnd].
  destruct (String.eqb k k0); simpl; [done|].
  apply NoDup_cons. split; [|by apply IH].
  intros Hin. apply Hk. by apply (keys_ref_del_sub k).
Qed.

Lemma ref_get_del_eq k d : well_formed d -> ref_get k (ref_del k d) = None.
Proof.
  unfold well_formed, keys.
  induction d as [|[k0 l0] d IH]; simpl; intros Hnd; [done|].
  apply NoDup_cons in Hnd as [Hk Hnd].
  destruct (String.eqb_spec k k0) as [->|Hne]; simpl.
  - by apply ref_get_None.
  - rewrite (proj2 (String.eqb_neq _ _) Hne). by apply IH.
Qed.

Lemma length_ref_del k d :
  k ∈ keys d -> S (length (ref_del k d)) = length d.
Proof.
  induction d as [|[k0 l0] d IH]; simpl; intros Hin; [inversion Hin|].
  destruct (String.eqb_spec k k0) as [->|Hne]; simpl; [done|].
  f_equal. apply IH. unfold keys in Hin. simpl in Hin.
  apply elem_of_cons in Hin as [?|?]; done.
Qed.

Lemma ref_del_set_fresh k l d : k ∉ keys d -> ref_del k (ref_set k l d) = d.
Proof.
  induction d as [|[k0 l0] d IH]; simpl; intros Hk.
  - by rewrite String.eqb_refl.
  - unfold keys in Hk. simpl in Hk. rewrite not_elem_of_cons in Hk.
    destruct Hk as [Hne Hk].
    rewrite (proj2 (String.eqb_neq _ _) Hne). simpl.
    rewrite (proj2 (String.eqb_neq _ _) Hne). f_equal. by apply IH.
Qed.

(** After [parameters[name] = parameter], [parameters[name]] is that
    object and every other name gives what it gave before; a name that
    was there keeps its place and a new one goes last, so every name is
    still there once; deleting a name that was new gives the collection
    back.  Anything that is not a [Parameter] is refused with
    [ValueError]. *)
Theorem setitem_then_getitem self nm l :
  exists self',
    setitem self nm (Some l) = Ok self'
    /\ getitem self' nm = Ok l
    /\ (forall other, other <> nm -> getitem self' other = getitem self other)
    /\ keys self'
       = (if bool_decide (nm ∈ keys self) then keys self else keys self ++ [nm])
    /\ (well_formed self -> well_formed self')
    /\ (nm ∉ keys self -> delitem self' nm = Ok self)
    /\ setitem self nm None = Raise ValueError.
Proof.
  exists (ref_set nm l self). split; [done|].
  split; [unfold getitem; by rewrite ref_get_set_eq|].
  split; [intros other Hne; unfold getitem; by rewrite ref_get_set_ne|].
  split; [apply keys_ref_set|].
  split; [apply ref_set_well_formed|]. split; [|done].
  intros Hk. unfold delitem. rewrite ref_get_set_eq. f_equal.
  by apply ref_del_set_fresh.
Qed.

(** [del parameters[name]] raises [KeyError] for a name that is not
    there; otherwise the name is gone, every other name gives what it
    gave before, and the collection is shorter by one. *)
Theorem delitem_removes_the_name self nm :
  well_formed self ->
  ((nm ∉ keys self) /\ delitem self nm = Raise KeyError)
  \/ exists self',
      delitem self nm = Ok self'
      /\ nm ∈ keys self
      /\ getitem self' nm = Raise KeyError
      /\ (forall other, other <> nm -> getitem self' other = getitem self other)
      /\ S (len self') = len self
      /\ well_formed self'.
Proof.
  intros Hwf. unfold delitem.
  destruct (ref_get nm self) as [l|] eqn:Hg.
  - right. exists (ref_del nm self). split; [done|].
    assert (Hin : nm ∈ keys self) by (apply ref_get_keys; eauto).
    split; [done|].
    split; [unfold getitem; by rewrite ref_get_del_eq|].
    split; [intros other Hne; unfold getitem; by rewrite ref_get_del_ne|].
    split; [by apply length_ref_del|by apply ref_del_well_formed].
  - left. split; [by apply ref_get_None|done].
Qed.

End RefsFacts.

Section ObjectsFacts.
Import Parameters Objects.
Context {dist : Type}.
Implicit Types (self : refs) (h : heap dist) (o : object dist)
  (a : assigned dist) (k nm : string) (l : loc).

Lemma update_eq h l o : update h l o l = o.
Proof. unfold update. by rewrite Nat.eqb_refl. Qed.

Lemma update_ne h l l' o : l' <> l -> update h l o l' = h l'.
Proof. intros Hne. unfold update. by rewrite (proj2 (Nat.eqb_neq _ _) Hne). Qed.

(** The setter keeps the name and the value. *)
Lemma distribution_setter_keeps o a :
  name (snd (distribution_setter o a)) = name o
  /\ pvalue (snd (distribution_setter o a)) = pvalue o.
Proof.
  destruct a as [|d|f|]; simpl; try done.
  by destruct (f (pvalue o)) as [[|d|]|e].
Qed.

(** Assigning the same thing again does what it did the first time. *)
Lemma distribution_setter_again o a :
  distribution_setter (snd (distribution_setter o a)) a
  = distribution_setter o a.
Proof.
  destruct a as [|d|f|]; simpl; try done.
  destruct (f (pvalue o)) as [[|d|]|e] eqn:E; simpl; by rewrite E.
Qed.

Lemma set_distribution_at self h nm a l :
  ref_get nm self = Some l ->
  set_distribution self h nm a
  = (fst (distribution_setter (h l) a),
     update h l (snd (distribution_setter (h l) a))).
Proof.
  intros Hg. unfold set_distribution. rewrite Hg.
  by destruct (distribution_setter (h l) a).
Qed.

(** [get_from_uncertain] on the objects of the collection. *)
Lemma get_from_uncertain_values self h (attr : attribute) :
  get_from_uncertain self h attr
  = map (fun o => getattr o attr) (List.filter is_uncertain (values self h)).
Proof. unfold get_from_uncertain. by rewrite get_from_uncertain_fold. Qed.

(** A successful [set_distribution] changes the distribution of the
    object under the name, and of that object only: its name and value
    stay, every name that refers to the same object shows the new
    distribution and every other object is as it was.  The distribution
    is the one given, or the one that the callable makes of the value. *)
Theorem set_distribution_sets_one_object self h nm a l :
  ref_get nm self = Some l ->
  fst (distribution_setter (h l) a) = Ok tt ->
  exists h' o',
    set_distribution self h nm a = (Ok tt, h')
    /\ (forall other l',
          ref_get other self = Some l' ->
          h' l' = if Nat.eqb l' l then o' else h l')
    /\ name o' = name (h l) /\ pvalue o' = pvalue (h l)
    /\ (a = AsNone -> distribution o' = None)
    /\ (forall d, a = AsDist d -> distribution o' = Some (IsDist d))
    /\ (forall f, a = AsCall f ->
          exists d, f (pvalue (h l)) = Ok (RetDist d)
                    /\ distribution o' = Some (IsDist d))
    /\ a <> AsOther.
Proof.
  intros Hg Hok.
  exists (update h l (snd (distribution_setter (h l) a))),
         (snd (distribution_setter (h l) a)).
  split; [rewrite (set_distribution_at _ _ _ _ _ Hg); by rewrite Hok|].
  split; [intros other l' _; reflexivity|].
  destruct (distribution_setter_keeps (h l) a) as [Hn Hv].
  split; [done|]. split; [done|].
  destruct a as [|d|f|]; simpl in *.
  - repeat split; try done; intros; discriminate.
  - split; [discriminate|]. split; [intros d' Hd; by injection Hd as ->|].
    split; [|done]. intros f Hf. discriminate.
  - destruct (f (pvalue (h l))) as [[|d|]|e] eqn:E; simpl in *; try discriminate.
    split; [discriminate|]. split; [intros d' Hd; discriminate|].
    split; [|done].
    intros f' Hf. injection Hf as <-. exists d. by rewrite E.
  - discriminate.
Qed.

(** When the callable returns something that is not a [cp.Dist],
    [set_distribution] raises [TypeError], and yet the object has
    changed: the distribution it had is gone, and what the callable
    returned is in its place, so that a returned object other than
    [None] makes the parameter count as uncertain. *)
Theorem failed_assignment_replaces_the_distribution self h nm f l
    (ret : returned dist) :
  ref_get nm self = Some l ->
  f (pvalue (h l)) = Ok ret ->
  (forall d, ret <> RetDist d) ->
  exists h',
    set_distribution self h nm (AsCall f) = (Raise TypeError, h')
    /\ h' l = set_held (h l)
                (match ret with RetNone => None | _ => Some NotDist end)
    /\ (forall l', l' <> l -> h' l' = h l')
    /\ (ret = RetOther ->
        GotDistribution (Some NotDist)
        ∈ get_from_uncertain self h' AttrDistribution).
Proof.
  intros Hg Hf Hret.
  exists (update h l (snd (distribution_setter (h l) (AsCall f)))).
  rewrite (set_distribution_at _ _ _ _ _ Hg). simpl. rewrite Hf.
  destruct ret as [|d|]; [| by destruct (Hret d) |]; simpl.
  - split; [done|]. split; [apply update_eq|].
    split; [intros l' Hne; by apply update_ne|discriminate].
  - split; [done|]. split; [apply update_eq|].
    split; [intros l' Hne; by apply update_ne|]. intros _.
    rewrite get_from_uncertain_values.
    apply list_elem_of_fmap.
    exists (set_held (h l) (Some NotDist)). split; [done|].
    apply list_elem_of_In, filter_In. split; [|done].
    apply list_elem_of_In, list_elem_of_fmap.
    exists (nm, l). simpl. rewrite update_eq. split; [done|].
    by apply ref_get_elem.
Qed.

(** ** [set_all_distributions] *)

Lemma set_all_loop_app self (n1 n2 : list string) h a :
  set_all_loop self (n1 ++ n2) h a
  = match set_all_loop self n1 h a with
    | (Ok _, h1) => set_all_loop self n2 h1 a
    | (Raise e, h1) => (Raise e, h1)
    end.
Proof.
  revert h. induction n1 as [|k n1 IH]; intros h; simpl; [done|].
  destruct (set_distribution self h k a) as [[[]|e] h1]; [apply IH|done].
Qed.

Lemma visited_or_not self (names : list string) l :
  (exists k, k ∈ names /\ ref_get k self = Some l)
  \/ ~ (exists k, k ∈ names /\ ref_get k self = Some l).
Proof.
  induction names as [|k names IH].
  - right. intros (k & Hk & _). inversion Hk.
  - destruct (decide (ref_get k self = Some l)) as [H|H].
    + left. exists k. split; [left|done].
    + destruct IH as [(k' & ? & ?)|Hn].
      * left. exists k'. split; [by right|done].
      * right. intros (k' & Hk' & Hl').
        apply elem_of_cons in Hk' as [->|?]; [done|]. apply Hn. eauto.
Qed.

(** The loop, while the assignments succeed: the objects under the names
    it has visited hold the new distribution, the others are as they
    were. *)
Lemma set_all_loop_ok self (names : list string) h0 h a :
  (forall k, k ∈ names -> k ∈ keys self) ->
  (forall k l, k ∈ names -> ref_get k self = Some l ->
     fst (distribution_setter (h0 l) a) = Ok tt) ->
  (forall l, h l = h0 l \/ h l = snd (distribution_setter (h0 l) a)) ->
  exists h',
    set_all_loop self names h a = (Ok tt, h')
    /\ (forall l, (exists k, k ∈ names /\ ref_get k self = Some l) ->
          h' l = snd (distribution_setter (h0 l) a))
    /\ (forall l, ~ (exists k, k ∈ names /\ ref_get k self = Some l) ->
          h' l = h l).
Proof.
  revert h. induction names as [|k names IH]; intros h Hkeys Hok Hinv.
  - exists h. split; [done|]. split; [|done].
    intros l (k & Hk & _). inversion Hk.
  - assert (Hk : is_Some (ref_get k self)).
    { apply ref_get_keys, Hkeys. left. }
    destruct Hk as [l Hl]. simpl.
    rewrite (set_distribution_at _ _ _ _ _ Hl).
    assert (Hsame : distribution_setter (h l) a = distribution_setter (h0 l) a).
    { destruct (Hinv l) as [->| ->]; [done|apply distribution_setter_again]. }
    rewrite Hsame. rewrite (Hok k l) by (done || left). 
    set (h1 := update h l (snd (distribution_setter (h0 l) a))).
    destruct (IH h1) as (h' & Hrun & Hin & Hout).
    { intros k' Hk'. apply Hkeys. by right. }
    { intros k' l' Hk'. apply Hok. by right. }
    { intros l'. unfold h1. destruct (decide (l' = l)) as [->|Hne].
      - right. apply update_eq.
      - rewrite update_ne by done. apply Hinv. }
    exists h'. split; [done|]. split.
    + intros l' (k' & Hk' & Hl').
      apply elem_of_cons in Hk' as [->|Hk'].
      * assert (l' = l) as -> by congruence.
        destruct (visited_or_not self names l) as [Hv|Hnv].
        -- by apply Hin.
        -- rewrite (Hout _ Hnv). unfold h1. apply update_eq.
      * apply Hin. eauto.
    + intros l' Hnot. rewrite Hout.
      * unfold h1. apply update_ne. intros ->. apply Hnot.
        exists k. split; [left|done].
      * intros (k' & Hk' & Hl'). apply Hnot. exists k'. split; [by right|done].
Qed.

Lemma reached_by_key self l :
  well_formed self -> l ∈ locs self ->
  exists k, k ∈ keys self /\ ref_get k self = Some l.
Proof.
  intros Hwf Hl. unfold locs in Hl.
  apply list_elem_of_fmap in Hl as ([k l'] & -> & Hin).
  exists k. split; [|by apply elem_ref_get].
  apply list_elem_of_fmap. by exists (k, l').
Qed.

Lemma filter_all {X} (p : X -> bool) (xs : list X) :
  Forall (fun x => p x = true) xs -> List.filter p xs = xs.
Proof.
  induction 1 as [|x xs Hx _ IH]; simpl; [done|]. by rewrite Hx, IH.
Qed.

Lemma filter_none {X} (p : X -> bool) (xs : list X) :
  Forall (fun x => p x = false) xs -> List.filter p xs = [].
Proof.
  induction 1 as [|x xs Hx _ IH]; simpl; [done|]. by rewrite Hx, IH.
Qed.

(** When the assignment succeeds on every object of the collection,
    [set_all_distributions] returns, every object of the collection holds
    the new distribution and no other object has changed; after a
    [cp.Dist] every parameter is uncertain, after [None] none is. *)
Theorem set_all_distributions_sets_every_object self h a :
  well_formed self ->
  (forall l, l ∈ locs self -> fst (distribution_setter (h l) a) = Ok tt) ->
  exists h',
    set_all_distributions self h a = (Ok tt, h')
    /\ (forall l, l ∈ locs self -> h' l = snd (distribution_setter (h l) a))
    /\ (forall l, l ∉ locs self -> h' l = h l)
    /\ (forall d, a = AsDist d ->
          forall attr,
            get_from_uncertain self h' attr
            = map (fun o => getattr o attr) (values self h'))
    /\ (a = AsNone -> forall attr, get_from_uncertain self h' attr = []).
Proof.
  intros Hwf Hok.
  destruct (set_all_loop_ok self (keys self) h h a) as (h' & Hrun & Hin & Hout).
  { done. }
  { intros k l _ Hl. apply Hok. by eapply ref_get_locs. }
  { intros l. by left. }
  assert (Hlocs : forall l, l ∈ locs self ->
                            h' l = snd (distribution_setter (h l) a)).
  { intros l Hl. apply Hin. by apply reached_by_key. }
  exists h'. split; [exact Hrun|]. split; [exact Hlocs|]. split.
  { intros l Hl. apply Hout. intros (k & _ & Hk). apply Hl.
    by eapply ref_get_locs. }
  assert (Hvals : forall (P : object dist -> Prop),
             (forall l, l ∈ locs self -> P (snd (distribution_setter (h l) a))) ->
             Forall P (values self h')).
  { intros P HP. unfold values. apply Forall_fmap, Forall_forall.
    intros [k l] Hkl. simpl.
    assert (Hl : l ∈ locs self).
    { unfold locs. apply list_elem_of_fmap. by exists (k, l). }
    rewrite (Hlocs l Hl). by apply HP. }
  split.
  - intros d -> attr. rewrite get_from_uncertain_values. f_equal.
    apply filter_all. apply Hvals. intros l _. reflexivity.
  - intros -> attr. rewrite get_from_uncertain_values.
    rewrite filter_none; [done|]. apply Hvals. intros l _. reflexivity.
Qed.

Lemma ref_get_app_l k (d1 d2 : refs) :
  k ∈ keys d1 -> ref_get k (d1 ++ d2) = ref_get k d1.
Proof.
  induction d1 as [|[k' l'] d1 IH]; simpl; intros Hk; [inversion Hk|].
  destruct (String.eqb_spec k k') as [->|Hne]; [done|].
  apply IH. unfold keys in Hk. simpl in Hk.
  apply elem_of_cons in Hk as [?|?]; done.
Qed.

(** [set_all_distributions] stops at the first parameter on which the
    assignment raises, and undoes nothing: the objects before it hold
    the new distribution, the object at which it stopped is as the
    failed assignment left it, and the objects after it are as they
    were. *)
Theorem set_all_distributions_stops_at_the_first_failure self h a
    (pre post : refs) k l e :
  well_formed self ->
  self = pre ++ (k, l) :: post ->
  (forall l', l' ∈ locs pre -> fst (distribution_setter (h l') a) = Ok tt) ->
  fst (distribution_setter (h l) a) = Raise e ->
  exists h',
    set_all_distributions self h a = (Raise e, h')
    /\ (forall l', l' ∈ locs pre -> h' l' = snd (distribution_setter (h l') a))
    /\ h' l = snd (distribution_setter (h l) a)
    /\ (forall l', l' ∉ locs pre -> l' <> l -> h' l' = h l').
Proof.
  intros Hwf Hself Hok Hfail.
  assert (Hkeys : keys self = keys pre ++ k :: keys post).
  { rewrite Hself. unfold keys. by rewrite map_app. }
  assert (Hpre : forall k' l',
             k' ∈ keys pre -> ref_get k' self = Some l' -> l' ∈ locs pre).
  { intros k' l' Hk' Hg. rewrite Hself, ref_get_app_l in Hg by done.
    by eapply ref_get_locs. }
  assert (Hreach : forall l', l' ∈ locs pre ->
             exists k', k' ∈ keys pre /\ ref_get k' self = Some l').
  { intros l' Hl'. unfold locs in Hl'.
    apply list_elem_of_fmap in Hl' as ([k' l''] & -> & Hin). exists k'. split.
    - apply list_elem_of_fmap. by exists (k', l'').
    - apply elem_ref_get; [done|]. rewrite Hself. apply elem_of_app. by left. }
  destruct (set_all_loop_ok self (keys pre) h h a) as (h1 & Hrun & Hin & Hout).
  { intros k' Hk'. rewrite Hkeys. apply elem_of_app. by left. }
  { intros k' l' Hk' Hg. apply Hok. by eapply Hpre. }
  { intros l'. by left. }
  assert (Hl : ref_get k self = Some l).
  { apply elem_ref_get; [done|]. rewrite Hself. apply elem_of_app. right. left. }
  assert (Hnot : l ∉ locs pre).
  { intros Hin'. rewrite (Hok l Hin') in Hfail. discriminate. }
  assert (Hh1 : h1 l = h l).
  { apply Hout. intros (k' & Hk' & Hg). apply Hnot. by eapply Hpre. }
  exists (update h1 l (snd (distribution_setter (h l) a))).
  split.
  { unfold set_all_distributions. rewrite Hkeys, set_all_loop_app, Hrun. simpl.
    rewrite (set_distribution_at _ _ _ _ _ Hl), Hh1, Hfail. done. }
  split.
  { intros l' Hl'. rewrite update_ne by (intros ->; done).
    apply Hin. by apply Hreach. }
  split; [apply update_eq|].
  intros l' Hl' Hne. rewrite update_ne by done.
  apply Hout. intros (k' & Hk' & Hg). apply Hl'. by eapply Hpre.
Qed.

(** ** [get] *)

Lemma rmapM_getitem self (names : list string) :
  (exists ls,
      Forall2 (fun n l => ref_get n self = Some l) names ls
      /\ rmapM (getitem self) names = Ok ls)
  \/ (Exists (fun n => n ∉ keys self) names
      /\ rmapM (getitem self) names = Raise KeyError).
Proof.
  induction names as [|n names IH].
  - left. exists []. by split.
  - cbn [rmapM]. unfold getitem at 1 3.
    destruct (ref_get n self) as [l|] eqn:Hn; cbn [rbind].
    + destruct IH as [(ls & Hls & Hr)|[Hex Hr]]; rewrite Hr; cbn [rbind].
      * left. exists (l :: ls). split; [by constructor|done].
      * right. split; [by apply Exists_cons_tl|done].
    + right. split; [|done]. apply Exists_cons_hd. by apply ref_get_None.
Qed.

Lemma get_looks_every_name_up_aux self h (names : list string) :
  (exists ls,
      Forall2 (fun n l => ref_get n self = Some l) names ls
      /\ get self h AttrName (NamesList names)
         = Ok (map (fun l => getattr (h l) AttrName) ls))
  \/ (Exists (fun n => n ∉ keys self) names
      /\ get self h AttrName (NamesList names) = Raise KeyError).
Proof.
  unfold get.
  destruct (rmapM_getitem self names) as [(ls & Hls & ->)|[Hex ->]]; simpl.
  - left. by exists ls.
  - by right.
Qed.

(** [get] with a list of names looks every name up, in the order of the
    list: when all are there it returns one attribute per name, a name
    given twice counting twice; when one is missing it raises
    [KeyError].  A single name given as a string is the list of that
    name. *)
Theorem get_looks_every_name_up self h (attr : attribute)
    (names : list string) :
  ((exists ls,
       Forall2 (fun n l => ref_get n self = Some l) names ls
       /\ get self h attr (NamesList names)
          = Ok (map (fun l => getattr (h l) attr) ls))
   \/ (Exists (fun n => n ∉ keys self) names
       /\ get self h attr (NamesList names) = Raise KeyError))
  /\ (forall s, get self h attr (NamesStr s) = get self h attr (NamesList [s])).
Proof.
  split; [|done]. unfold get.
  destruct (rmapM_getitem self names) as [(ls & Hls & ->)|[Hex ->]]; simpl.
  - left. by exists ls.
  - by right.
Qed.

Lemma rmapM_getitem_keys self (part : refs) :
  well_formed self -> (forall kl, kl ∈ part -> kl ∈ self) ->
  rmapM (getitem self) (keys part) = Ok (locs part).
Proof.
  intros Hwf. unfold keys, locs.
  induction part as [|[k l] part IH]; intros Hsub; [done|].
  cbn [map fst snd rmapM]. unfold getitem at 1.
  rewrite (elem_ref_get k l self Hwf) by (apply Hsub; left).
  cbn [rbind]. rewrite IH; [done|].
  intros kl Hkl. apply Hsub. by right.
Qed.

Lemma map_filter_sublist {X Y} (fn : X -> Y) (p : X -> bool) (xs : list X) :
  sublist (map fn (List.filter p xs)) (map fn xs).
Proof.
  induction xs as [|x xs IH]; simpl; [constructor|].
  destruct (p x); simpl; by constructor.
Qed.

(** [get] without names never raises and returns the attribute of
    every parameter, in the order of the collection; what
    [get_from_uncertain] returns is a part of it, in the same order.
    In a collection whose keys are the names of their objects, as
    [__init__] builds it, asking for the names gives the keys, and
    asking for the names of a list of parameters gives that list. *)
Theorem get_returns_every_parameter self h (attr : attribute) :
  well_formed self ->
  get self h attr NamesNone
  = Ok (map (fun o => getattr o attr) (values self h))
  /\ sublist (get_from_uncertain self h attr)
             (map (fun o => getattr o attr) (values self h))
  /\ (named_by_key self h ->
      get self h AttrName NamesNone = Ok (map GotName (keys self))
      /\ forall names r,
          get self h AttrName (NamesList names) = Ok r ->
          r = map GotName names).
Proof.
  intros Hwf.
  assert (Hall : forall at', get self h at' NamesNone
                 = Ok (map (fun o => getattr o at') (values self h))).
  { intros at'. unfold get.
    rewrite (rmapM_getitem_keys self self Hwf) by done. simpl.
    unfold values, locs. by rewrite !map_map. }
  split; [apply Hall|]. split.
  { rewrite get_from_uncertain_values. apply map_filter_sublist. }
  intros Hnamed. split.
  - rewrite Hall. f_equal. unfold values, keys. rewrite !map_map.
    apply map_ext_in. intros kl Hkl. simpl.
    unfold named_by_key in Hnamed. rewrite Forall_forall in Hnamed.
    f_equal. apply Hnamed. by apply list_elem_of_In.
  - intros names r Hr.
    destruct (get_looks_every_name_up_aux self h names) as [(ls & Hls & Hget)|[_ Hget]];
      rewrite Hget in Hr; [|discriminate].
    injection Hr as <-. clear Hget.
    induction Hls as [|n l names ls Hn _ IH]; simpl; [done|].
    f_equal; [|exact IH]. f_equal.
    apply ref_get_elem in Hn.
    unfold named_by_key in Hnamed. rewrite Forall_forall in Hnamed.
    by apply (Hnamed (n, l)).
Qed.

End ObjectsFacts.

(** ** [__str__] *)

Section StrFacts.
Import Parameters Objects.
Context {dist : Type}.
Implicit Types (self : refs) (h : heap dist) (k nm : string).

Lemma name_le_trans : Transitive name_le.
Proof.
  intros a b c. unfold name_le, String.leb. intros H1 H2.
  destruct (String.compare a b) eqn:E1; [| |discriminate].
  { apply String.compare_eq_iff in E1. by subst b. }
  destruct (String.compare b c) eqn:E2; [| |discriminate].
  { apply String.compare_eq_iff in E2. subst c. by rewrite E1. }
  apply OrderedTypeEx.String_as_OT.cmp_lt in E1, E2.
  pose proof (OrderedTypeEx.String_as_OT.lt_trans _ _ _ E1 E2) as H.
  apply OrderedTypeEx.String_as_OT.cmp_lt in H.
  unfold OrderedTypeEx.String_as_OT.cmp in H. by rewrite H.
Qed.

Lemma name_le_total : Total name_le.
Proof.
  intros a b. unfold name_le, String.leb.
  rewrite (String.compare_antisym b a).
  destruct (String.compare a b); simpl; auto.
Qed.

Lemma name_le_antisym : AntiSymm eq name_le.
Proof.
  intros a b. unfold name_le, String.leb.
  rewrite (String.compare_antisym b a).
  destruct (String.compare a b) eqn:E; simpl; try discriminate.
  intros _ _. by apply String.compare_eq_iff.
Qed.

Lemma sorted_StronglySorted (names : list string) :
  StronglySorted name_le (sorted names).
Proof.
  apply (@StronglySorted_merge_sort _ name_le _ name_le_trans name_le_total).
Qed.

Lemma sorted_Permutation (names : list string) : sorted names ≡ₚ names.
Proof. apply merge_sort_Permutation. Qed.

(** Sorting does not depend on the order of what is sorted. *)
Lemma sorted_perm (l1 l2 : list string) : l1 ≡ₚ l2 -> sorted l1 = sorted l2.
Proof.
  intros Hp.
  apply (@StronglySorted_unique _ name_le name_le_antisym);
    try apply sorted_StronglySorted.
  by rewrite !sorted_Permutation.
Qed.

Lemma well_formed_perm (d1 d2 : refs) :
  d1 ≡ₚ d2 -> well_formed d1 -> well_formed d2.
Proof.
  unfold well_formed, keys. intros Hp Hwf.
  eapply NoDup_Permutation_proper; [|exact Hwf].
  symmetry. by apply fmap_Permutation.
Qed.

Lemma ref_get_perm (d1 d2 : refs) k :
  well_formed d1 -> d1 ≡ₚ d2 -> ref_get k d1 = ref_get k d2.
Proof.
  intros Hwf Hp. pose proof (well_formed_perm _ _ Hp Hwf) as Hwf2.
  destruct (ref_get k d1) as [l|] eqn:H1.
  - apply ref_get_elem in H1. rewrite Hp in H1.
    symmetry. by apply elem_ref_get.
  - symmetry. apply ref_get_None. apply ref_get_None in H1.
    intros Hin. apply H1. unfold keys in *.
    by rewrite (fmap_Permutation fst _ _ Hp).
Qed.

Lemma str_loop_ok self h (names : list string) (acc : list ascii) :
  (forall k, k ∈ names -> k ∈ keys self) ->
  str_loop self h names acc
  = Ok (acc ++ concat (map (fun k => line_of self h k ++ [Re.newline]) names)).
Proof.
  revert acc. induction names as [|k names IH]; intros acc Hk; simpl.
  - by rewrite app_nil_r.
  - assert (Hs : is_Some (ref_get k self)) by (apply ref_get_keys, Hk; left).
    destruct Hs as [l Hl]. unfold getitem, line_of. rewrite Hl. simpl.
    rewrite IH by (intros k' Hk'; apply Hk; by right).
    by rewrite <- !app_assoc.
Qed.

Lemma Parameters_str_ok self h :
  Parameters_str self h
  = Ok (strip (concat (map (fun k => line_of self h k ++ [Re.newline])
                           (sorted (keys self))))).
Proof.
  unfold Parameters_str. rewrite str_loop_ok; [done|].
  intros k Hk. by rewrite sorted_Permutation in Hk.
Qed.

(** [str(parameters)] never raises, and does not depend on the order in
    which the parameters were put into the collection: it is made of one
    line per name, in the order of the names as [sorted] gives it, with
    the blanks at both ends taken away. *)
Theorem Parameters_str_ignores_the_order (self1 self2 : refs) h :
  well_formed self1 -> self1 ≡ₚ self2 ->
  Parameters_str self1 h = Parameters_str self2 h
  /\ Parameters_str self1 h
     = Ok (strip (concat (map (fun k => line_of self1 h k ++ [Re.newline])
                              (sorted (keys self1)))))
  /\ StronglySorted name_le (sorted (keys self1))
  /\ sorted (keys self1) ≡ₚ keys self1.
Proof.
  intros Hwf Hp.
  split; [|split; [apply Parameters_str_ok|
                   split; [apply sorted_StronglySorted|apply sorted_Permutation]]].
  rewrite !Parameters_str_ok. f_equal. f_equal. f_equal.
  assert (Hk : sorted (keys self1) = sorted (keys self2)).
  { apply sorted_perm. unfold keys. by apply fmap_Permutation. }
  rewrite <- Hk. apply map_ext. intros k. f_equal.
  unfold line_of. by rewrite (ref_get_perm self1 self2 k Hwf Hp).
Qed.

(** *** The text without [strip] *)

Lemma lstrip_nohead (s : list ascii) : Re.nohead Re.is_space s -> lstrip s = s.
Proof. destruct s as [|c s]; simpl; [done|]. by intros ->. Qed.

Lemma nohead_app (p : ascii -> bool) (s1 s2 : list ascii) :
  s1 <> [] -> Re.nohead p s1 -> Re.nohead p (s1 ++ s2).
Proof. by destruct s1. Qed.

Lemma concat_join_lines (ls : list (list ascii)) :
  ls <> [] ->
  concat (map (fun l => l ++ [Re.newline]) ls) = join_lines ls ++ [Re.newline].
Proof.
  induction ls as [|l ls IH]; [done|]. intros _.
  destruct ls as [|l2 ls].
  - simpl. by rewrite app_nil_r.
  - change (join_lines (l :: l2 :: ls))
      with (l ++ Re.newline :: join_lines (l2 :: ls)).
    cbn [map concat]. cbn [map concat] in IH. rewrite IH by done.
    rewrite <- !app_assoc. done.
Qed.

Lemma join_lines_clean (ls : list (list ascii)) :
  ls <> [] -> Forall clean_line ls -> clean_line (join_lines ls).
Proof.
  induction ls as [|l ls IH]; [done|]. intros _ Hall.
  apply Forall_cons in Hall as [(Hne & Hh & Ht) Hall].
  destruct ls as [|l2 ls]; [by repeat split|].
  change (join_lines (l :: l2 :: ls))
    with (l ++ Re.newline :: join_lines (l2 :: ls)).
  destruct (IH ltac:(done) Hall) as (Hne' & _ & Ht').
  split; [by destruct l|]. split; [by apply nohead_app|].
  rewrite rev_app_distr. simpl. rewrite <- app_assoc.
  apply nohead_app; [|done].
  intros Hr. apply (f_equal (@rev ascii)) in Hr. rewrite rev_involutive in Hr.
  done.
Qed.

Lemma strip_join_lines (ls : list (list ascii)) :
  Forall clean_line ls ->
  strip (concat (map (fun l => l ++ [Re.newline]) ls)) = join_lines ls.
Proof.
  intros Hall. destruct ls as [|l ls]; [done|].
  rewrite concat_join_lines by done.
  destruct (join_lines_clean (l :: ls) ltac:(done) Hall) as (Hne & Hh & Ht).
  unfold strip. rewrite lstrip_nohead by (by apply nohead_app).
  unfold rstrip. rewrite rev_app_distr. simpl.
  rewrite lstrip_nohead by done. apply rev_involutive.
Qed.

(** When no line has a blank at either end, as when no name begins with
    one and every value is printed as a number or as [None], the text
    is the lines of the parameters, in the sorted order of the names,
    joined by newlines, with no newline after the last. *)
Theorem Parameters_str_joins_the_sorted_lines self h :
  (forall k, k ∈ keys self -> clean_line (line_of self h k)) ->
  Parameters_str self h
  = Ok (join_lines (map (line_of self h) (sorted (keys self)))).
Proof.
  intros Hclean. rewrite Parameters_str_ok. f_equal.
  rewrite <- (map_map (line_of self h) (fun l => l ++ [Re.newline])).
  apply strip_join_lines. apply Forall_fmap, Forall_forall.
  intros k Hk. apply Hclean. by rewrite sorted_Permutation in Hk.
Qed.

End StrFacts.

Section ObjectsExamplesFacts.
Import Parameters Objects ObjectsExamples.

Lemma refs_ab_well_formed : well_formed refs_ab.
Proof. apply (bool_decide_unpack _). vm_compute. exact I. Qed.

Lemma delitem_removes_the_name_witness :
  well_formed refs_ab
  /\ (((("a" : string) ∉ keys refs_ab) /\ delitem refs_ab "a" = Raise KeyError)
      \/ exists self',
          delitem refs_ab "a" = Ok self'
          /\ ("a" : string) ∈ keys refs_ab
          /\ getitem self' "a" = Raise KeyError
          /\ (forall other, other <> "a" ->
                getitem self' other = getitem refs_ab other)
          /\ S (len self') = len refs_ab
          /\ well_formed self').
Proof.
  split; [exact refs_ab_well_formed|].
  apply (delitem_removes_the_name refs_ab "a"). exact refs_ab_well_formed.
Defined.

Lemma set_distribution_sets_one_object_witness :
  ref_get "b" refs_ab = Some 1
  /\ fst (distribution_setter (heap_ab 1) (AsDist (Normal 0 1))) = Ok tt
  /\ exists h' o',
      set_distribution refs_ab heap_ab "b" (AsDist (Normal 0 1)) = (Ok tt, h')
      /\ (forall other l',
            ref_get other refs_ab = Some l' ->
            h' l' = if Nat.eqb l' 1 then o' else heap_ab l')
      /\ name o' = name (heap_ab 1) /\ pvalue o' = pvalue (heap_ab 1)
      /\ (AsDist (Normal 0 1) = AsNone -> distribution o' = None)
      /\ (forall d, AsDist (Normal 0 1) = AsDist d ->
            distribution o' = Some (IsDist d))
      /\ (forall f, AsDist (Normal 0 1) = AsCall f ->
            exists d, f (pvalue (heap_ab 1)) = Ok (RetDist d)
                      /\ distribution o' = Some (IsDist d))
      /\ AsDist (Normal 0 1) <> AsOther.
Proof.
  split; [reflexivity|]. split; [reflexivity|].
  apply (set_distribution_sets_one_object refs_ab heap_ab "b"
           (AsDist (Normal 0 1)) 1); reflexivity.
Defined.

Lemma failed_assignment_replaces_the_distribution_witness :
  ref_get "b" refs_ab = Some 1
  /\ around (pvalue (heap_ab 1)) = Ok RetOther
  /\ (forall d, RetOther <> RetDist (dist:=cp_dist) d)
  /\ exists h',
      set_distribution refs_ab heap_ab "b" (AsCall around)
      = (Raise TypeError, h')
      /\ h' 1 = set_held (heap_ab 1) (Some NotDist)
      /\ (forall l', l' <> 1 -> h' l' = heap_ab l')
      /\ (RetOther = RetOther (dist:=cp_dist) ->
          GotDistribution (Some NotDist)
          ∈ get_from_uncertain refs_ab h' AttrDistribution).
Proof.
  split; [reflexivity|]. split; [reflexivity|]. split; [discriminate|].
  apply (failed_assignment_replaces_the_distribution refs_ab heap_ab "b"
           around 1 RetOther); [reflexivity|reflexivity|discriminate].
Defined.

Lemma refs_ab_locs (l : loc) : l ∈ locs refs_ab -> l = 0 \/ l = 1.
Proof.
  unfold locs. simpl. rewrite !elem_of_cons, elem_of_nil. tauto.
Qed.

Lemma set_all_distributions_sets_every_object_witness :
  well_formed refs_ab
  /\ (forall l, l ∈ locs refs_ab ->
        fst (distribution_setter (heap_ab l) (AsDist (Normal 0 1))) = Ok tt)
  /\ exists h',
      set_all_distributions refs_ab heap_ab (AsDist (Normal 0 1)) = (Ok tt, h')
      /\ (forall l, l ∈ locs refs_ab ->
            h' l = snd (distribution_setter (heap_ab l) (AsDist (Normal 0 1))))
      /\ (forall l, l ∉ locs refs_ab -> h' l = heap_ab l)
      /\ (forall d, AsDist (Normal 0 1) = AsDist d ->
            forall attr,
              get_from_uncertain refs_ab h' attr
              = map (fun o => getattr o attr) (values refs_ab h'))
      /\ (AsDist (Normal 0 1) = AsNone ->
          forall attr, get_from_uncertain refs_ab h' attr = []).
Proof.
  split; [exact refs_ab_well_formed|]. split; [intros l _; reflexivity|].
  apply (set_all_distributions_sets_every_object refs_ab heap_ab
           (AsDist (Normal 0 1))).
  - exact refs_ab_well_formed.
  - intros l _. reflexivity.
Defined.

Lemma set_all_distributions_stops_at_the_first_failure_witness :
  well_formed refs_ab
  /\ refs_ab = [("a", 0)] ++ ("b", 1) :: []
  /\ (forall l', l' ∈ locs [("a", 0)] ->
        fst (distribution_setter (heap_ab l') (AsCall around)) = Ok tt)
  /\ fst (distribution_setter (heap_ab 1) (AsCall around)) = Raise TypeError
  /\ exists h',
      set_all_distributions refs_ab heap_ab (AsCall around)
      = (Raise TypeError, h')
      /\ (forall l', l' ∈ locs [("a", 0)] ->
            h' l' = snd (distribution_setter (heap_ab l') (AsCall around)))
      /\ h' 1 = snd (distribution_setter (heap_ab 1) (AsCall around))
      /\ (forall l', l' ∉ locs [("a", 0)] -> l' <> 1 -> h' l' = heap_ab l').
Proof.
  assert (H0 : forall l', l' ∈ locs [("a", 0)] ->
             fst (distribution_setter (heap_ab l') (AsCall around)) = Ok tt).
  { intros l' Hl'. unfold locs in Hl'. simpl in Hl'.
    apply list_elem_of_singleton in Hl'. by subst l'. }
  split; [exact refs_ab_well_formed|]. split; [reflexivity|].
  split; [exact H0|]. split; [reflexivity|].
  apply (set_all_distributions_stops_at_the_first_failure refs_ab heap_ab
           (AsCall around) [("a", 0)] [] "b" 1 TypeError).
  - exact refs_ab_well_formed.
  - reflexivity.
  - exact H0.
  - reflexivity.
Defined.

Lemma refs_ab_named : named_by_key refs_ab heap_ab.
Proof. repeat constructor. Qed.

Lemma get_returns_every_parameter_witness :
  well_formed refs_ab
  /\ get refs_ab heap_ab AttrValue NamesNone
     = Ok (map (fun o => getattr o AttrValue) (values refs_ab heap_ab))
  /\ sublist (get_from_uncertain refs_ab heap_ab AttrValue)
             (map (fun o => getattr o AttrValue) (values refs_ab heap_ab))
  /\ (named_by_key refs_ab heap_ab ->
      get refs_ab heap_ab AttrName NamesNone = Ok (map GotName (keys refs_ab))
      /\ forall names r,
          get refs_ab heap_ab AttrName (NamesList names) = Ok r ->
          r = map GotName names).
Proof.
  split; [exact refs_ab_well_formed|].
  apply (get_returns_every_parameter refs_ab heap_ab AttrValue).
  exact refs_ab_well_formed.
Defined.

Lemma refs_ab_ba : refs_ab ≡ₚ refs_ba.
Proof. apply perm_swap. Qed.

Lemma Parameters_str_ignores_the_order_witness :
  well_formed refs_ab
  /\ refs_ab ≡ₚ refs_ba
  /\ Parameters_str refs_ab heap_ab = Parameters_str refs_ba heap_ab
  /\ Parameters_str refs_ab heap_ab
     = Ok (strip (concat (map (fun k => line_of refs_ab heap_ab k ++ [Re.newline])
                              (sorted (keys refs_ab)))))
  /\ StronglySorted name_le (sorted (keys refs_ab))
  /\ sorted (keys refs_ab) ≡ₚ keys refs_ab.
Proof.
  split; [exact refs_ab_well_formed|]. split; [exact refs_ab_ba|].
  apply (Parameters_str_ignores_the_order refs_ab refs_ba heap_ab).
  - exact refs_ab_well_formed.
  - exact refs_ab_ba.
Defined.

Lemma refs_ab_clean (k : string) :
  k ∈ keys refs_ab -> clean_line (line_of refs_ab heap_ab k).
Proof.
  unfold keys. simpl. rewrite !elem_of_cons, elem_of_nil.
  intros [->|[->|[]]]; vm_compute; (split; [discriminate|split; reflexivity]).
Qed.

Lemma Parameters_str_joins_the_sorted_lines_witness :
  (forall k, k ∈ keys refs_ab -> clean_line (line_of refs_ab heap_ab k))
  /\ Parameters_str refs_ab heap_ab
     = Ok (join_lines (map (line_of refs_ab heap_ab) (sorted (keys refs_ab)))).
Proof.
  split; [exact refs_ab_clean|].
  apply (Parameters_str_joins_the_sorted_lines refs_ab heap_ab).
  exact refs_ab_clean.
Defined.

End ObjectsExamplesFacts.

(** * More about the parameter file *)

(** ** A substitution after another one *)

Section LaterPass.
Import Re.
Context (name repl1 repl2 : list ascii).
Context (name_nonempty : name <> []) (name_word : all_of is_word name).
Context (repl1_plain : plain_number repl1).
Implicit Types (prev : option ascii) (s : list ascii).

(** Scanning the result of a substitution with another value gives what
    that value gives on the line itself, when every number the first
    scan replaces is followed by a delimiter. *)
Lemma later_pass s :
  forall prev prev',
    delimited_at name prev s = true ->
    prev' = prev \/ nohead is_word s ->
    sub_at name repl2 prev' (sub_at name repl1 prev s) = sub_at name repl2 prev s.
Proof.
  remember (length s) as n eqn:Hn. revert s Hn.
  induction n as [n IH] using lt_wf_ind. intros s -> prev prev' Hd Hp.
  destruct (plain_number_head _ repl1_plain) as [_ Hrepl].
  destruct (sub_at_cases name repl1 prev s)
    as [[-> ->]|[(c & s' & -> & Hm & ->)
                |(pre & num & s2 & -> & Hm & Hh & Hnum & Ht & ->)]].
  - by rewrite !sub_at_nil.
  - rewrite (delimited_at_copy _ _ _ _ Hm) in Hd.
    assert (Hm' : match_here name prev' (c :: sub_at name repl1 (Some c) s') = None).
    { destruct Hp as [->|Hp].
      - rewrite <- (sub_at_copy name repl1 prev c s' Hm).
        by apply no_new_match.
      - by apply match_here_nonword. }
    rewrite (sub_at_copy _ _ _ _ _ Hm'), (sub_at_copy _ repl2 _ _ _ Hm). f_equal.
    apply (IH (length s')); [simpl; lia|done|done|by left].
  - apply matches_head in Hh.
    destruct Hp as [->|Hp];
      [|by apply (head_not_nohead name name_nonempty name_word prev) in Hp].
    rewrite (delimited_at_match _ _ _ _ _ _ Hm) in Hd.
    apply andb_true_iff in Hd as [Hdel Hd].
    pose proof (sub_at_delimiter name repl1 name_nonempty name_word
                  (last_char (last_char prev pre) num) s2 Hdel) as Hdel'.
    rewrite (sub_at_match name repl2 prev pre repl1 _ _
               (match_here_replaced name prev pre repl1 _ Hh repl1_plain Hdel')).
    rewrite (sub_at_match name repl2 prev pre num s2 _ Hm).
    f_equal. f_equal.
    apply matches_number, number_text_nonempty in Hnum.
    apply (IH (length s2)); [|done|done|].
    + rewrite !length_app. destruct num; [done|simpl; lia].
    + right. by apply delimiter_nohead in Hdel as (_ & _ & _ & ?).
Qed.

Lemma sub_after_sub line :
  delimited name line = true ->
  sub name repl2 (sub name repl1 line) = sub name repl2 line.
Proof. intros Hd. apply (later_pass line None None); [done|by left]. Qed.

End LaterPass.

Section FilesMore.
Import Parameters Re ParameterFile Objects.
Context {dist : Type}.
Implicit Types (self : refs) (h : heap dist) (content : list ascii)
  (v : value).

Lemma lines_of_set_parameter_file (nm : string) content v :
  no_newline (str v) ->
  lines (set_parameter_file nm content v)
  = map (sub (list_ascii_of_string nm) (str v)) (lines content).
Proof.
  intros Hv. unfold set_parameter_file. apply lines_of_split.
  eapply rewrites_split;
    [exact Hv|apply lines_split|apply set_parameter_file_rewrites].
Qed.

(** For a name of word characters: when the text of the value has no
    newline, as the text of every number, [set_parameter_file] keeps the
    lines of the file: the new file has as many lines as the old one,
    and each is the substitution of the line that was at its place. *)
Theorem set_parameter_file_keeps_the_lines (nm : string) content v :
  all_of is_word (list_ascii_of_string nm) ->
  no_newline (str v) ->
  lines (set_parameter_file nm content v)
  = map (sub (list_ascii_of_string nm) (str v)) (lines content)
  /\ length (lines (set_parameter_file nm content v)) = length (lines content)
  /\ forall z, no_newline (str (VInt z)).
Proof.
  intros _ Hv. rewrite lines_of_set_parameter_file by done.
  split; [done|]. split; [by rewrite length_map|].
  intros z. apply plain_number_no_newline, str_int_plain.
Qed.

(** ** A file that does not mention the parameter *)

Lemma rewrites_same (name repl : list ascii) prev (s s' : list ascii) :
  rewrites name repl prev s s' ->
  (forall a b, s <> a ++ name ++ b) \/ ("="%char ∉ s) ->
  s' = s.
Proof.
  induction 1 as [|prev c s s' _ IH|prev pre num s s' Hh _ _ _ _]; intros Hno.
  - done.
  - f_equal. apply IH. destruct Hno as [Hno|Hno].
    + left. intros a b E. apply (Hno (c :: a) b). by rewrite E.
    + right. intros Hin. apply Hno. by right.
  - exfalso. destruct Hh as (ws1 & ws2 & -> & _). destruct Hno as [Hno|Hno].
    + apply (Hno [] (ws1 ++ "="%char :: ws2 ++ num ++ s)).
      simpl. by rewrite <- !app_assoc.
    + apply Hno. rewrite !elem_of_app. left. right. right. left.
Qed.

Lemma elem_of_concat_split (ls : list (list ascii)) (l : list ascii) :
  l ∈ ls -> exists a b, concat ls = a ++ l ++ b.
Proof.
  induction ls as [|l0 ls IH]; intros Hin; [inversion Hin|].
  apply elem_of_cons in Hin as [->|Hin].
  - exists [], (concat ls). done.
  - destruct (IH Hin) as (a & b & E). exists (l0 ++ a), b.
    simpl. rewrite E. by rewrite <- !app_assoc.
Qed.

(** For a name of word characters, [set_parameter_file] leaves a file
    as it is when the name does not occur in it, and when it has no
    equals sign. *)
Theorem set_parameter_file_leaves_other_files (nm : string) content v :
  all_of is_word (list_ascii_of_string nm) ->
  (forall a b, content <> a ++ list_ascii_of_string nm ++ b)
  \/ ("="%char ∉ content) ->
  set_parameter_file nm content v = content.
Proof.
  intros _ Hno. unfold set_parameter_file.
  rewrite <- (concat_lines content) at 2. f_equal.
  rewrite <- (map_id (lines content)) at 2.
  apply map_ext_in. intros l Hl. apply list_elem_of_In in Hl.
  eapply rewrites_same; [apply sub_at_rewrites|].
  destruct (elem_of_concat_split _ _ Hl) as (a & b & E).
  rewrite concat_lines in E. destruct Hno as [Hno|Hno].
  - left. intros a' b' El. apply (Hno (a ++ a') (b' ++ b)).
    rewrite E, El. by rewrite <- !app_assoc.
  - right. intros Hin. apply Hno. rewrite E, !elem_of_app. tauto.
Qed.

(** ** The value written last *)

(** When the name is an identifier, the first value is printed as a
    plain number and every number the first application replaces is
    followed by the end of its line or by a character that is neither a
    word character nor a dot, a second application with any value gives
    the file that this value gives on the original file.  So
    [reset_parameter_file], after the parameter was set to such a value,
    gives the file it gives without that. *)
Theorem last_value_wins (nm : string) content v1 :
  list_ascii_of_string nm <> [] ->
  all_of is_word (list_ascii_of_string nm) ->
  plain_number (str v1) ->
  Forall (fun l => delimited (list_ascii_of_string nm) l = true)
         (lines content) ->
  (forall v2,
      set_parameter_file nm (set_parameter_file nm content v1) v2
      = set_parameter_file nm content v2)
  /\ (forall o : object dist,
        name o = nm ->
        Parameter_reset_parameter_file o (set_parameter_file nm content v1)
        = Parameter_reset_parameter_file o content).
Proof.
  intros Hne Hword Hplain Hdel.
  assert (Hall : forall v2,
             set_parameter_file nm (set_parameter_file nm content v1) v2
             = set_parameter_file nm content v2).
  { intros v2. unfold set_parameter_file at 1.
    rewrite lines_of_set_parameter_file
      by (by apply plain_number_no_newline).
    unfold set_parameter_file. f_equal. rewrite map_map.
    apply map_ext_in. intros l Hl.
    apply sub_after_sub; try done.
    rewrite Forall_forall in Hdel. apply Hdel. by apply list_elem_of_In. }
  split; [exact Hall|].
  intros o <-. unfold Parameter_reset_parameter_file. apply Hall.
Qed.

(** ** The files of a collection *)

Lemma reset_loop_dict self h (part : refs) content :
  (forall kl, kl ∈ part -> ref_get (fst kl) self = Some (snd kl)) ->
  reset_loop self h (keys part) content
  = set_parameters_dict self h
      (map (fun kl => (fst kl, pvalue (h (snd kl)))) part) content
  /\ fst (reset_loop self h (keys part) content) = Ok tt.
Proof.
  revert content. induction part as [|[k l] part IH]; intros content Hsub.
  - by split.
  - cbn [keys map fst snd reset_loop set_parameters_dict].
    pose proof (Hsub (k, l) ltac:(left)) as Hkl. simpl in Hkl.
    unfold getitem. rewrite Hkl. cbn [fst snd].
    apply IH. intros kl Hin. apply Hsub. by right.
Qed.

Lemma set_parameters_dict_lines self h (items : list (string * value)) content :
  Forall (fun kv => no_newline (str (snd kv))) items ->
  length (lines (snd (set_parameters_dict self h items content)))
  = length (lines content).
Proof.
  revert content. induction items as [|[k v] items IH]; intros content Hall.
  - done.
  - apply Forall_cons in Hall as [Hv Hall]. cbn [set_parameters_dict].
    destruct (getitem self k) as [l|e]; [|done].
    rewrite IH by done. rewrite lines_of_set_parameter_file by done.
    by rewrite length_map.
Qed.

(** When the name of every parameter of the collection is made of word
    characters, [Parameters.reset_parameter_file] does not raise, and
    does what [set_parameters_file] does with the mapping from every
    name of the collection to the value of its parameter; when every
    value is printed without a newline the file keeps its number of
    lines. *)
Theorem reset_parameter_file_sets_every_value self h content :
  well_formed self ->
  Forall (fun kl => all_of is_word (list_ascii_of_string (name (h (snd kl)))))
         self ->
  reset_parameter_file self h content
  = set_parameters_file self h
      (ValuesDict (map (fun kl => (fst kl, pvalue (h (snd kl)))) self)) content
  /\ fst (reset_parameter_file self h content) = Ok tt
  /\ (Forall (fun kl => no_newline (str (pvalue (h (snd kl))))) self ->
      length (lines (snd (reset_parameter_file self h content)))
      = length (lines content)).
Proof.
  intros Hwf _.
  destruct (reset_loop_dict self h self content) as [Heq Hok].
  { intros [k l] Hkl. by apply elem_ref_get. }
  unfold reset_parameter_file, set_parameters_file.
  split; [exact Heq|]. split; [exact Hok|].
  intros Hall. rewrite Heq. apply set_parameters_dict_lines.
  by apply Forall_fmap.
Qed.

Lemma set_parameters_dict_app self h (i1 i2 : list (string * value)) content :
  set_parameters_dict self h (i1 ++ i2) content
  = match set_parameters_dict self h i1 content with
    | (Ok _, c1) => set_parameters_dict self h i2 c1
    | (Raise e, c1) => (Raise e, c1)
    end.
Proof.
  revert content. induction i1 as [|[k v] i1 IH]; intros content; [done|].
  cbn [app set_parameters_dict]. destruct (getitem self k) as [l|e]; [apply IH|done].
Qed.

Lemma set_parameters_dict_ok self h (items : list (string * value)) content :
  Forall (fun kv => fst kv ∈ keys self) items ->
  fst (set_parameters_dict self h items content) = Ok tt.
Proof.
  revert content. induction items as [|[k v] items IH]; intros content Hall.
  - done.
  - apply Forall_cons in Hall as [Hk Hall]. cbn [set_parameters_dict].
    simpl in Hk. apply ref_get_keys in Hk as [l Hl]. unfold getitem. rewrite Hl.
    by apply IH.
Qed.

(** When the name of every parameter of the collection is made of word
    characters, [set_parameters_file] stops at the first name that is
    not in the collection, with [KeyError], and undoes nothing: the file
    is as the substitutions for the names before it left it.  Given a
    list of names, as its docstring says, and not a mapping, it never
    changes the file: it raises at the first name. *)
Theorem set_parameters_file_stops_at_a_missing_name self h
    (pre post : list (string * value)) (k : string) v content :
  Forall (fun kl => all_of is_word (list_ascii_of_string (name (h (snd kl)))))
         self ->
  Forall (fun kv => fst kv ∈ keys self) pre ->
  k ∉ keys self ->
  set_parameters_file self h (ValuesDict (pre ++ (k, v) :: post)) content
  = (Raise KeyError,
     snd (set_parameters_file self h (ValuesDict pre) content))
  /\ fst (set_parameters_file self h (ValuesDict pre) content) = Ok tt
  /\ (forall names,
        snd (set_parameters_file self h (ValuesList names) content) = content
        /\ (fst (set_parameters_file self h (ValuesList names) content) = Ok tt
            <-> names = [])).
Proof.
  intros _ Hpre Hk. cbn [set_parameters_file].
  pose proof (set_parameters_dict_ok self h pre content Hpre) as Hok.
  split; [|split; [exact Hok|]].
  - rewrite set_parameters_dict_app.
    destruct (set_parameters_dict self h pre content) as [[[]|e] c1];
      [|discriminate].
    cbn [set_parameters_dict snd]. unfold getitem.
    by rewrite (proj2 (ref_get_None k self) Hk).
  - intros [|n names]; [done|].
    destruct (getitem self n) as [l|e]; (split; [done|split; discriminate]).
Qed.

End FilesMore.

Section FilesMoreExamples.
Import Parameters Re ParameterFile Objects ObjectsExamples.

Lemma set_parameter_file_keeps_the_lines_witness :
  let content := list_ascii_of_string "a = 1.5
b = 2
" in
  all_of is_word (list_ascii_of_string "a")
  /\ no_newline (str (VInt 5))
  /\ lines (set_parameter_file "a" content (VInt 5))
     = map (sub (list_ascii_of_string "a") (str (VInt 5))) (lines content)
  /\ length (lines (set_parameter_file "a" content (VInt 5)))
     = length (lines content)
  /\ forall z, no_newline (str (VInt z)).
Proof.
  intros content.
  assert (H5 : no_newline (str (VInt 5)))
    by apply plain_number_no_newline, str_int_plain.
  assert (Hw : all_of is_word (list_ascii_of_string "a"))
    by (repeat constructor).
  split; [exact Hw|]. split; [exact H5|].
  apply (set_parameter_file_keeps_the_lines "a" content (VInt 5)).
  - exact Hw.
  - exact H5.
Defined.

Lemma set_parameter_file_leaves_other_files_witness :
  let content := list_ascii_of_string "b: 2" in
  all_of is_word (list_ascii_of_string "a")
  /\ ((forall a b, content <> a ++ list_ascii_of_string "a" ++ b)
   \/ ("="%char ∉ content))
  /\ set_parameter_file "a" content (VInt 5) = content.
Proof.
  intros content.
  assert (H : (forall a b, content <> a ++ list_ascii_of_string "a" ++ b)
              \/ ("="%char ∉ content)).
  { right. apply (bool_decide_unpack _). vm_compute. exact I. }
  assert (Hw : all_of is_word (list_ascii_of_string "a"))
    by (repeat constructor).
  split; [exact Hw|]. split; [exact H|].
  apply (set_parameter_file_leaves_other_files "a" content (VInt 5)).
  - exact Hw.
  - exact H.
Defined.

Lemma last_value_wins_witness :
  let content := list_ascii_of_string "a = 1.5
b = 2 # a = x
  a=3e5;" in
  list_ascii_of_string "a" <> []
  /\ all_of is_word (list_ascii_of_string "a")
  /\ plain_number (str (VInt 5))
  /\ Forall (fun l => delimited (list_ascii_of_string "a") l = true)
            (lines content)
  /\ (forall v2,
        set_parameter_file "a" (set_parameter_file "a" content (VInt 5)) v2
        = set_parameter_file "a" content v2)
  /\ (forall o : object cp_dist,
        name o = "a" ->
        Parameter_reset_parameter_file o (set_parameter_file "a" content (VInt 5))
        = Parameter_reset_parameter_file o content).
Proof.
  intros content.
  assert (H1 : list_ascii_of_string "a" <> []) by discriminate.
  assert (H2 : all_of is_word (list_ascii_of_string "a"))
    by (repeat constructor).
  assert (H4 : Forall (fun l => delimited (list_ascii_of_string "a") l = true)
                      (lines content)).
  { apply Forall_forall. intros l Hl. apply list_elem_of_In in Hl.
    revert l Hl. apply forallb_forall. vm_compute. reflexivity. }
  split; [exact H1|]. split; [exact H2|]. split; [apply str_int_plain|].
  split; [exact H4|].
  apply (last_value_wins (dist:=cp_dist) "a" content (VInt 5));
    [exact H1|exact H2|apply str_int_plain|exact H4].
Defined.

Lemma refs_ab_words :
  Forall (fun kl => all_of is_word
                      (list_ascii_of_string (name (heap_ab (snd kl)))))
         refs_ab.
Proof. repeat constructor. Qed.

Lemma reset_parameter_file_sets_every_value_witness :
  let content := list_ascii_of_string "a = 7
b = 8
" in
  well_formed refs_ab
  /\ Forall (fun kl => all_of is_word
                         (list_ascii_of_string (name (heap_ab (snd kl)))))
            refs_ab
  /\ reset_parameter_file refs_ab heap_ab content
     = set_parameters_file refs_ab heap_ab
         (ValuesDict (map (fun kl => (fst kl, pvalue (heap_ab (snd kl)))) refs_ab))
         content
  /\ fst (reset_parameter_file refs_ab heap_ab content) = Ok tt
  /\ (Forall (fun kl => no_newline (str (pvalue (heap_ab (snd kl))))) refs_ab ->
      length (lines (snd (reset_parameter_file refs_ab heap_ab content)))
      = length (lines content)).
Proof.
  intros content. split; [exact refs_ab_well_formed|].
  split; [exact refs_ab_words|].
  apply (reset_parameter_file_sets_every_value refs_ab heap_ab content).
  - exact refs_ab_well_formed.
  - exact refs_ab_words.
Defined.

Lemma set_parameters_file_stops_at_a_missing_name_witness :
  let content := list_ascii_of_string "a = 7
b = 8
" in
  Forall (fun kl => all_of is_word
                      (list_ascii_of_string (name (heap_ab (snd kl)))))
         refs_ab
  /\ Forall (fun kv : string * value => fst kv ∈ keys refs_ab) [("a", VInt 3)]
  /\ (("c" : string) ∉ keys refs_ab)
  /\ set_parameters_file refs_ab heap_ab
       (ValuesDict ([("a", VInt 3)] ++ ("c", VInt 4) :: [("b", VInt 5)])) content
     = (Raise KeyError,
        snd (set_parameters_file refs_ab heap_ab
               (ValuesDict [("a", VInt 3)]) content))
  /\ snd (set_parameters_file refs_ab heap_ab
            (ValuesDict [("a", VInt 3)]) content)
     = list_ascii_of_string "a = 3
b = 8
".
Proof.
  intros content.
  assert (H1 : Forall (fun kv : string * value => fst kv ∈ keys refs_ab)
                      [("a", VInt 3)]).
  { constructor; [|constructor]. simpl. left. }
  assert (H2 : ("c" : string) ∉ keys refs_ab).
  { apply (bool_decide_unpack _). vm_compute. exact I. }
  split; [exact refs_ab_words|]. split; [exact H1|]. split; [exact H2|].
  split; [|vm_compute; reflexivity].
  apply (set_parameters_file_stops_at_a_missing_name refs_ab heap_ab
           [("a", VInt 3)] [("b", VInt 5)] "c" (VInt 4) content
           refs_ab_words H1 H2).
Defined.

End FilesMoreExamples.
